(** * Cryptography-Projects-2025-7B: a shallow embedding of the projects' cores

    The repository is a collection of independent Python programs.  Each
    [Module] below embeds the functions of one program that the
    specification makes claims about; the theorems follow the definitions.

    Conventions of the embedding.
    - A Python [int] is a [Z]; [%] and [//] are [Z.modulo] and [Z.div]
      (both round towards minus infinity, and the remainder has the sign of
      the divisor, in Python as in Rocq).
    - A Python [str] is a [string]; letters and upper-casing are modelled on
      the ASCII range, the code points 128..255 are treated as caseless
      non-letters, and [chr] is defined on 0..255.
    - A [float] is a binary64 primitive float.
    - A raised exception is the [Raise] constructor of [result]. *)

From Stdlib Require Import ZArith Zdivisibility List Sorted Permutation.
From Stdlib Require Import String Ascii Lia Floats Reals Lra Uint63.
From stdpp Require Import base option list gmap strings pretty.

Local Open Scope string_scope.
Local Open Scope list_scope.
Local Open Scope Z_scope.
#[local] Set Warnings "-inexact-float".

(** ** Python: exceptions, integers, strings *)

Module Py.

Inductive exn : Type :=
| ValueError (msg : string)
| AssertionError (msg : string)
| ZeroDivisionError
| OverflowError
| KeyError
| IndexError
| TypeError
| AttributeError
| NumpyError.

Inductive result (A : Type) : Type :=
| Ok (a : A)
| Raise (e : exn).
Arguments Ok {A} a.
Arguments Raise {A} e.

#[export] Instance result_ret : MRet result := fun A a => Ok a.
#[export] Instance result_bind : MBind result := fun A B f m =>
  match m with
  | Ok a => f a
  | Raise e => Raise e
  end.
#[export] Instance result_fmap : FMap result := fun A B f m =>
  match m with
  | Ok a => Ok (f a)
  | Raise e => Raise e
  end.

(** [a % b] on Python integers. *)
Definition py_mod (a b : Z) : result Z :=
  if b =? 0 then Raise ZeroDivisionError else Ok (a mod b).

Definition ord (c : ascii) : Z := Z.of_N (N_of_ascii c).

Definition chr (z : Z) : result ascii :=
  if (0 <=? z) && (z <? 256) then Ok (ascii_of_N (Z.to_N z))
  else Raise (ValueError "chr() arg not in range").

Definition is_lower (c : ascii) : bool := (97 <=? ord c) && (ord c <=? 122).
Definition is_upper (c : ascii) : bool := (65 <=? ord c) && (ord c <=? 90).

(** [c.isalpha()] *)
Definition isalpha (c : ascii) : bool := is_lower c || is_upper c.

(** [c.upper()] *)
Definition upper_char (c : ascii) : ascii :=
  if is_lower c then ascii_of_N (Z.to_N (ord c - 32)) else c.

Definition chars (s : string) : list ascii := list_ascii_of_string s.
Definition str (l : list ascii) : string := string_of_list_ascii l.

(** [s.upper()] *)
Definition upper (s : string) : string := str (upper_char <$> chars s).

(** [range(n)] *)
Definition range (n : Z) : list Z := Z.of_nat <$> seq 0 (Z.to_nat n).

(** The slices [l[i:i+k]] for [i] in [range(0, len(l), k)], [k] positive. *)
Fixpoint chunks_fuel {A} (fuel k : nat) (l : list A) : list (list A) :=
  match fuel, l with
  | S f, _ :: _ => take k l :: chunks_fuel f k (drop k l)
  | _, _ => []
  end.
Definition chunks {A} (k : nat) (l : list A) : list (list A) :=
  chunks_fuel (length l) k l.

(** The blocks of a [for i in range(0, len(l), n): block = l[i:i+n]] loop,
    in order; the block at position [k] of the result is the one the loop
    sees at [i = k*n], so that [i // n = k].  A zero step makes [range]
    raise, a negative step gives an empty range. *)
Definition blocks_of {A} (n : Z) (l : list A) : result (list (list A)) :=
  if n =? 0 then Raise (ValueError "range() arg 3 must not be zero")
  else if n <? 0 then Ok []
  else Ok (chunks (Z.to_nat n) l).

(** [while len(numbers) % n != 0: numbers.append(pad)], for [n] not zero;
    the loop runs fewer than [|n|] times. *)
Fixpoint pad_loop (fuel : nat) (n pad : Z) (numbers : list Z) : list Z :=
  if Z.of_nat (length numbers) mod n =? 0 then numbers
  else match fuel with
       | O => numbers
       | S f => pad_loop f n pad (numbers ++ [pad])
       end.

(** The loop of CPython's [long_invmod(a, n)], started at [b = 1], [c = 0]:
    an inverse of [a] modulo [n], when there is one. *)
Fixpoint invmod_loop (fuel : nat) (a n b c : Z) : option Z :=
  if n =? 0 then (if a =? 1 then Some b else None)
  else match fuel with
       | O => None
       | S f => invmod_loop f n (a mod n) c (b - (a / n) * c)
       end.
Definition invmod (a n : Z) : option Z := invmod_loop (S (Z.to_nat n)) a n 1 0.

(** The built-in [pow(base, exp, mod)] on integers. *)
Definition pow (base exp modulus : Z) : result Z :=
  if modulus =? 0 then Raise (ValueError "pow() 3rd argument cannot be 0")
  else if Z.abs modulus =? 1 then Ok 0
  else if exp <? 0 then
    match invmod base (Z.abs modulus) with
    | Some inv => Ok (inv ^ (- exp) mod modulus)
    | None => Raise (ValueError "base is not invertible for the given modulus")
    end
  else Ok (base ^ exp mod modulus).

(** The byte of value [z mod 256]. *)
Definition byte_of_Z (z : Z) : Byte.byte :=
  default Byte.x00 (Byte.of_N (Z.to_N (z mod 256))).

(** [sep.join(parts)] *)
Fixpoint join (sep : string) (parts : list string) : string :=
  match parts with
  | [] => ""
  | [x] => x
  | x :: rest => (x ++ sep ++ join sep rest)%string
  end.

(** [int(x)] on a float: truncation towards zero. *)
Definition int_of_float (x : float) : result Z :=
  match Prim2SF x with
  | S754_zero _ => Ok 0
  | S754_infinity _ => Raise OverflowError
  | S754_nan => Raise (ValueError "cannot convert float NaN to integer")
  | S754_finite s m e =>
      let magnitude :=
        if 0 <=? e then Z.pos m * 2 ^ e else Z.pos m / 2 ^ (- e) in
      Ok (if s then - magnitude else magnitude)
  end.

(** [math.isfinite(x)] *)
Definition isfinite (x : float) : bool :=
  match Prim2SF x with
  | S754_zero _ | S754_finite _ _ _ => true
  | S754_infinity _ | S754_nan => false
  end.

(** [s.rstrip(c)] *)
Fixpoint drop_leading (c : ascii) (l : list ascii) : list ascii :=
  match l with
  | x :: l' => if Ascii.eqb x c then drop_leading c l' else l
  | [] => []
  end.
Definition rstrip (c : ascii) (s : string) : string :=
  str (reverse (drop_leading c (reverse (chars s)))).

(** [s.isascii()] *)
Definition isascii (s : string) : bool := forallb (fun c => ord c <? 128) (chars s).

(** The number of elements the padding loop [pad_loop] appends to a list of
    length [len]. *)
Definition pad_count (n : Z) (len : nat) : nat := Z.to_nat ((- Z.of_nat len) mod Z.abs n).

End Py.

(** ** numpy: integer matrices

    A two-dimensional integer array is the list of its rows.  The float
    determinant [np.linalg.det] followed by [int(...)] or [np.round(...)] is
    taken to be the exact integer determinant (cofactor expansion along the
    first row); float rounding in [np.linalg.det] is outside the model, and
    so is the width of numpy's integers: entries are unbounded integers
    here.  The statements below that go through these definitions are made
    at keys where the two agree, or carry bounds that make them agree. *)

Module Np.
Import Py.

Abbreviation matrix := (list (list Z)).

Definition dot (u v : list Z) : Z := foldr Z.add 0 (zip_with Z.mul u v).

(** [m @ v] for a column vector [v], flattened. *)
Definition matvec (m : matrix) (v : list Z) : list Z := (fun row => dot row v) <$> m.

(** [np.delete(np.delete(m, i, axis=0), j, axis=1)] *)
Definition minor (m : matrix) (i j : nat) : matrix := delete j <$> delete i m.

Fixpoint det_fuel (k : nat) (m : matrix) : Z :=
  match k, m with
  | S k', row :: rest =>
      foldr Z.add 0
        (imap (fun j a => (-1) ^ Z.of_nat j * a * det_fuel k' (delete j <$> rest)) row)
  | _, _ => 1
  end.

Definition det (m : matrix) : Z := det_fuel (length m) m.

(** The adjugate: entry (j, i) is the cofactor of entry (i, j). *)
Definition adjugate (m : matrix) : matrix :=
  let idx := seq 0 (length m) in
  (fun j => (fun i => (-1) ^ Z.of_nat (i + j) * det (minor m i j)) <$> idx) <$> idx.

Definition is_square (n : Z) (m : matrix) : bool :=
  (Z.of_nat (length m) =? n) && forallb (fun row => Z.of_nat (length row) =? n) m.

End Np.

(** ** hashlib: SHA-256 as in FIPS 180-4, on 32-bit words held in [Z] *)

Module Hashlib.
Import Py.

Definition add32 (x y : Z) : Z := (x + y) mod 2 ^ 32.
Definition rotr (n x : Z) : Z := Z.lor (Z.shiftr x n) (Z.shiftl x (32 - n) mod 2 ^ 32).
Definition Ch (x y z : Z) : Z := Z.lxor (Z.land x y) (Z.land (Z.lxor x (2 ^ 32 - 1)) z).
Definition Maj (x y z : Z) : Z := Z.lxor (Z.lxor (Z.land x y) (Z.land x z)) (Z.land y z).
Definition Sigma0 (x : Z) : Z := Z.lxor (Z.lxor (rotr 2 x) (rotr 13 x)) (rotr 22 x).
Definition Sigma1 (x : Z) : Z := Z.lxor (Z.lxor (rotr 6 x) (rotr 11 x)) (rotr 25 x).
Definition sigma0 (x : Z) : Z := Z.lxor (Z.lxor (rotr 7 x) (rotr 18 x)) (Z.shiftr x 3).
Definition sigma1 (x : Z) : Z := Z.lxor (Z.lxor (rotr 17 x) (rotr 19 x)) (Z.shiftr x 10).

(** The constants are given by their definition in FIPS 180-4, sections
    4.2.2 and 5.3.3: the first 32 bits of the fractional parts of the cube
    roots (for [K]) and of the square roots (for [H0]) of the first primes. *)
Definition is_prime (n : nat) : bool :=
  forallb (fun d => negb (n mod d =? 0)%nat) (seq 2 (n - 2)).

Definition primes (count : nat) : list nat :=
  take count (filter (fun n => is_prime n = true) (seq 2 310)).

(** The integer cube root of [x], found bit by bit below [2 ^ bits]. *)
Fixpoint cube_root (bits : nat) (x r : Z) : Z :=
  match bits with
  | O => r
  | S bits' =>
      let c := r + 2 ^ Z.of_nat bits' in
      if c * c * c <=? x then cube_root bits' x c else cube_root bits' x r
  end.

Definition K : list Z :=
  Eval vm_compute in
    (fun q : nat => cube_root 36 (Z.of_nat q * 2 ^ 96) 0 mod 2 ^ 32) <$> primes 64.

Definition H0 : list Z :=
  Eval vm_compute in
    (fun q : nat => Z.sqrt (Z.of_nat q * 2 ^ 64) mod 2 ^ 32) <$> primes 8.

(** Big-endian bytes of [x], [k] of them. *)
Fixpoint be_bytes (k : nat) (x : Z) : list Z :=
  match k with
  | O => []
  | S k' => (x / 256 ^ Z.of_nat k') mod 256 :: be_bytes k' x
  end.

Definition be_word (bs : list Z) : Z := fold_left (fun acc b => acc * 256 + b) bs 0.

Definition pad (msg : list Z) : list Z :=
  let l := Z.of_nat (length msg) in
  msg ++ [0x80] ++ replicate (Z.to_nat ((55 - l) mod 64)) 0 ++ be_bytes 8 (8 * l).

(** The message schedule, most recent word first. *)
Fixpoint schedule (rounds : nat) (ws : list Z) : list Z :=
  match rounds with
  | O => ws
  | S r =>
      let w := add32 (add32 (sigma1 (ws !!! 1%nat)) (ws !!! 6%nat))
                     (add32 (sigma0 (ws !!! 14%nat)) (ws !!! 15%nat)) in
      schedule r (w :: ws)
  end.

Definition round (st : list Z) (kw : Z * Z) : list Z :=
  match st with
  | [a; b; c; d; e; f; g; h] =>
      let t1 := add32 (add32 (add32 h (Sigma1 e)) (add32 (Ch e f g) kw.1)) kw.2 in
      let t2 := add32 (Sigma0 a) (Maj a b c) in
      [add32 t1 t2; a; b; c; add32 d t1; e; f; g]
  | _ => st
  end.

Definition compress (h : list Z) (block : list Z) : list Z :=
  let w16 := be_word <$> chunks 4 block in
  let ws := reverse (schedule 48 (reverse w16)) in
  zip_with add32 h (fold_left round (zip K ws) h).

Definition sha256_Z (msg : list Z) : list Z :=
  concat (be_bytes 4 <$> fold_left compress (chunks 64 (pad msg)) H0).

(** [hashlib.sha256(data).digest()] *)
Definition sha256 (data : list Byte.byte) : list Byte.byte :=
  byte_of_Z <$> sha256_Z ((fun b => Z.of_N (Byte.to_N b)) <$> data).

End Hashlib.

(** ** polyhillcipherforiot/poly_hill_cipher.py *)

Module PHC.
Import Py Np.

Record PolyHillCipher : Type := {
  n : Z;
  p : Z;
  polynomial_coeffs : option (list Z);
  hill_matrix : option matrix;
  hill_matrix_inv : option matrix;
  poly_lookup : option (gmap Z Z);
  inverse_lookup : option (gmap Z Z)
}.

(** [PolyHillCipher(block_size, modulus)] *)
Definition __init__ (block_size modulus : Z) : PolyHillCipher :=
  {| n := block_size; p := modulus;
     polynomial_coeffs := None; hill_matrix := None; hill_matrix_inv := None;
     poly_lookup := None; inverse_lookup := None |}.

Definition keys_not_generated : exn :=
  ValueError "Keys not generated. Call generate_key() first.".

(** The inner loop of [_build_lookup_tables]: P(x) mod p. *)
Definition poly_value (modulus : Z) (coeffs : list Z) (x : Z) : Z :=
  fold_left (fun acc ic => (acc + ic.2 * x ^ Z.of_nat ic.1) mod modulus)
            (imap (fun i c => (i, c)) coeffs) 0.

Definition _build_lookup_tables (self : PolyHillCipher)
  : PolyHillCipher * result unit :=
  let with_tables pl il :=
    {| n := n self; p := p self;
       polynomial_coeffs := polynomial_coeffs self;
       hill_matrix := hill_matrix self; hill_matrix_inv := hill_matrix_inv self;
       poly_lookup := Some pl; inverse_lookup := Some il |} in
  match polynomial_coeffs self with
  | None =>
      (* enumerate(None) raises on the first iteration, if there is one *)
      (with_tables ∅ ∅, if 0 <? p self then Raise TypeError else Ok tt)
  | Some coeffs =>
      let tables :=
        fold_left (fun (t : gmap Z Z * gmap Z Z) x =>
                     let v := poly_value (p self) coeffs x in
                     (<[x := v]> t.1, <[v := x]> t.2))
                  (range (p self)) (∅, ∅) in
      (with_tables tables.1 tables.2, Ok tt)
  end.

Definition _polynomial_transform (self : PolyHillCipher) (x : Z) : result Z :=
  k ← py_mod x (p self);
  match poly_lookup self with
  | None => Raise TypeError
  | Some t => match t !! k with Some v => Ok v | None => Raise KeyError end
  end.

Definition _inverse_polynomial_transform (self : PolyHillCipher) (y : Z) : result Z :=
  match inverse_lookup self with
  | None => Raise AttributeError
  | Some t => k ← py_mod y (p self); Ok (default 0 (t !! k))
  end.

(** The nested [extended_gcd]; the first argument strictly decreases in
    absolute value, so [S (Z.abs_nat a)] calls are enough. *)
Fixpoint extended_gcd (fuel : nat) (a b : Z) : Z * Z * Z :=
  if a =? 0 then (b, 0, 1)
  else match fuel with
       | O => (b, 0, 1)
       | S f =>
           let '(g, x1, y1) := extended_gcd f (b mod a) a in
           (g, y1 - (b / a) * x1, x1)
       end.

Definition _mod_inverse (a m : Z) : result Z :=
  a' ← py_mod a m;
  let '(g, x, _) := extended_gcd (S (Z.abs_nat a')) a' m in
  if g =? 1 then Ok ((x mod m + m) mod m)
  else Raise (ValueError "Modular inverse does not exist").

(** [_matrix_inverse]; the loops run over [range(self.n)] and the matrix is
    expected to be n x n (numpy's errors on other shapes are collapsed into
    [NumpyError]; a larger square matrix, which the source lets through, is
    not modelled). *)
Definition _matrix_inverse (self : PolyHillCipher) (m : matrix) : result matrix :=
  if negb (is_square (n self) m) then Raise NumpyError
  else
    d ← py_mod (det m) (p self);
    det_inv ← _mod_inverse d (p self);
    let idx := seq 0 (Z.to_nat (n self)) in
    Ok ((fun j =>
           (fun i =>
              let cofactor := (-1) ^ Z.of_nat (i + j) * det (minor m i j) in
              (cofactor * det_inv) mod p self) <$> idx) <$> idx).

Definition set_keys (self : PolyHillCipher) (coeffs : list Z) (m : matrix)
  : PolyHillCipher * result unit :=
  let self1 :=
    {| n := n self; p := p self;
       polynomial_coeffs := Some coeffs; hill_matrix := Some m;
       hill_matrix_inv := hill_matrix_inv self;
       poly_lookup := poly_lookup self; inverse_lookup := inverse_lookup self |} in
  match _matrix_inverse self1 m with
  | Raise e => (self1, Raise e)
  | Ok inv =>
      _build_lookup_tables
        {| n := n self1; p := p self1;
           polynomial_coeffs := polynomial_coeffs self1;
           hill_matrix := hill_matrix self1; hill_matrix_inv := Some inv;
           poly_lookup := poly_lookup self1; inverse_lookup := inverse_lookup self1 |}
  end.

Definition _text_to_numbers (text : string) : list Z :=
  (fun c => ord c - ord "A") <$> (upper_char <$> filter (fun c => isalpha c = true) (chars text)).

Definition _numbers_to_text (self : PolyHillCipher) (numbers : list Z) : result string :=
  str <$> mapM (fun num => r ← py_mod num (p self); chr (r + ord "A")) numbers.

(** [_pad_text]: the loop appends 23 ('X') while [len(numbers) % n != 0]. *)
Definition _pad_text (self : PolyHillCipher) (numbers : list Z) : result (list Z) :=
  if n self =? 0 then Raise ZeroDivisionError
  else Ok (pad_loop (Z.abs_nat (n self)) (n self) 23 numbers).

(** [np.array(block).reshape(self.n, 1)] *)
Definition reshape_column (self : PolyHillCipher) (block : list Z) : result (list Z) :=
  if Z.of_nat (length block) =? n self then Ok block else Raise NumpyError.

(** Step 3 of [encrypt] for one block. *)
Definition obfuscate_block (self : PolyHillCipher) (block_index : nat) (hill_result : list Z)
  : list Z :=
  imap (fun j val =>
          let obfuscated_val := Z.lxor val ((Z.of_nat block_index + Z.of_nat j) mod p self) in
          obfuscated_val mod p self) hill_result.

Definition encrypt_block (self : PolyHillCipher) (H : matrix)
    (block_index : nat) (block : list Z) : result (list Z) :=
  poly_block ← mapM (_polynomial_transform self) block;
  block_vector ← reshape_column self poly_block;
  let hill_result := (fun v => v mod p self) <$> matvec H block_vector in
  Ok (obfuscate_block self block_index hill_result).

Definition encrypt (self : PolyHillCipher) (plaintext : string) : result string :=
  match polynomial_coeffs self, hill_matrix self with
  | Some _, Some H =>
      numbers ← _pad_text self (_text_to_numbers plaintext);
      blocks ← blocks_of (n self) numbers;
      encrypted ← mapM (fun ib => encrypt_block self H ib.1 ib.2)
                       (imap (fun i b => (i, b)) blocks);
      _numbers_to_text self (concat encrypted)
  | _, _ => Raise keys_not_generated
  end.

(** Step 1 of [decrypt] for one block. *)
Definition deobfuscate_block (self : PolyHillCipher) (block_index : nat) (block : list Z)
  : result (list Z) :=
  mapM (fun jv =>
          mask ← py_mod (Z.of_nat block_index + Z.of_nat jv.1) (p self);
          py_mod (Z.lxor jv.2 mask) (p self))
       (imap (fun j v => (j, v)) block).

Definition decrypt_block (self : PolyHillCipher) (Hinv : matrix)
    (block_index : nat) (block : list Z) : result (list Z) :=
  deobfuscated_block ← deobfuscate_block self block_index block;
  block_vector ← reshape_column self deobfuscated_block;
  let hill_result := (fun v => v mod p self) <$> matvec Hinv block_vector in
  mapM (_inverse_polynomial_transform self) hill_result.

Definition decrypt (self : PolyHillCipher) (ciphertext : string) : result string :=
  match hill_matrix_inv self with
  | None => Raise keys_not_generated
  | Some Hinv =>
      blocks ← blocks_of (n self) (_text_to_numbers ciphertext);
      decrypted ← mapM (fun ib => decrypt_block self Hinv ib.1 ib.2)
                       (imap (fun i b => (i, b)) blocks);
      decrypted_text ← _numbers_to_text self (concat decrypted);
      Ok (rstrip "X" decrypted_text)
  end.

(** [IoTPolyHillCipher.encrypt_stream]; the subclass adds no key material. *)
Definition encrypt_stream (self : PolyHillCipher) (plaintext_stream : string) (chunk_size : Z)
  : result string :=
  chunks ← blocks_of chunk_size (chars plaintext_stream);
  fold_left (fun result chunk =>
               r ← result; c ← encrypt self (str chunk); Ok (r ++ c)%string)
            chunks (Ok "").

(** Key material used in the statements below. *)

(** The cipher of the worked example: block size 2, modulus 26,
    P(x) = 1 + 2x and Hill matrix [[3,2],[1,1]], installed by [set_keys]. *)
Definition worked_example : PolyHillCipher * result unit :=
  set_keys (__init__ 2 26) [1; 2] [[3; 2]; [1; 1]].

(** A key that [generate_key] can draw for block size 2 and modulus 26:
    three coefficients in 1..25 and a matrix with entries in 0..25 and
    determinant 1. *)
Definition open_cipher : PolyHillCipher * result unit :=
  set_keys (__init__ 2 26) [1; 2; 13] [[1; 2]; [1; 3]].

(** [set_keys], with the outcome of [self._matrix_inverse(self.hill_matrix)]
    left open: [matrix_inverse] stands for whatever numpy computes there, a
    matrix or an exception.  The two assignments before the call are kept
    when it raises. *)
Section WithMatrixInverse.

Variable matrix_inverse : PolyHillCipher -> matrix -> result matrix.

Definition set_keys_with (self : PolyHillCipher) (coeffs : list Z) (m : matrix)
  : PolyHillCipher * result unit :=
  let self1 :=
    {| n := n self; p := p self;
       polynomial_coeffs := Some coeffs; hill_matrix := Some m;
       hill_matrix_inv := hill_matrix_inv self;
       poly_lookup := poly_lookup self; inverse_lookup := inverse_lookup self |} in
  match matrix_inverse self1 m with
  | Raise e => (self1, Raise e)
  | Ok inv =>
      _build_lookup_tables
        {| n := n self1; p := p self1;
           polynomial_coeffs := polynomial_coeffs self1;
           hill_matrix := hill_matrix self1; hill_matrix_inv := Some inv;
           poly_lookup := poly_lookup self1; inverse_lookup := inverse_lookup self1 |}
  end.

End WithMatrixInverse.

(** A list of rows of one length: what [np.array] turns into an array. *)
Definition rectangular (m : matrix) : Prop := exists c, Forall (fun row => length row = c) m.

(** Definitions used in the statements below. *)

(** The first line of [_text_to_numbers], which the demos call [cleaned]:
    [''.join(c.upper() for c in text if c.isalpha())]. *)
Definition cleaned (text : string) : string :=
  str (upper_char <$> filter (fun c => isalpha c = true) (chars text)).

(** A cipher on which [encrypt] can run as the model says: positive block
    size and modulus, coefficients, an n x n Hill matrix whose entries are
    residues, and a forward table with a residue for every residue.  The
    bound on [n * p * p] keeps every product and sum of the Hill step within
    31 bits, so numpy's fixed-width integers agree with [Z] here. *)
Definition keyed (self : PolyHillCipher) : Prop :=
  0 < n self /\ 0 < p self /\ n self * p self * p self < 2 ^ 31 /\
  (exists coeffs, polynomial_coeffs self = Some coeffs) /\
  (exists H, hill_matrix self = Some H /\ is_square (n self) H = true /\
             Forall (Forall (fun e => 0 <= e < p self)) H) /\
  (exists t, poly_lookup self = Some t /\
             forall k, 0 <= k < p self -> exists v, t !! k = Some v /\ 0 <= v < p self).

(** One iteration of the loop of [_build_lookup_tables]. *)
Definition table_step (m : Z) (coeffs : list Z) (t : gmap Z Z * gmap Z Z) (x : Z)
  : gmap Z Z * gmap Z Z :=
  let v := poly_value m coeffs x in (<[x := v]> t.1, <[v := x]> t.2).

End PHC.

(** ** polyhillcipherforiot/phc_security_utils.py *)

Module PHCSecurityUtils.
Import Py.

(** [while b: a, b = b, a % b]; the absolute value of [b] strictly
    decreases, so [S (Z.abs_nat b)] iterations are enough. *)
Fixpoint gcd_loop (fuel : nat) (a b : Z) : Z :=
  if b =? 0 then a
  else match fuel with
       | O => a
       | S f => gcd_loop f b (a mod b)
       end.

Definition gcd (a b : Z) : Z := gcd_loop (S (Z.abs_nat b)) a b.

Definition gcd_list (numbers : list Z) : result Z :=
  match numbers with
  | [] => Raise IndexError
  | first :: rest => Ok (fold_left gcd rest first)
  end.

End PHCSecurityUtils.

(** ** Crack Time Estimator/app.py *)

Module CrackTime.
Import Py.

Definition specials : gset ascii :=
  list_to_set (chars (" !" ++ String "034" "#$%&'()*+,-./:;<=>?@[\]^_`{|}~")%string).

Definition has_lower (password : string) : bool :=
  existsb (fun c => (ord "a" <=? ord c) && (ord c <=? ord "z")) (chars password).
Definition has_upper (password : string) : bool :=
  existsb (fun c => (ord "A" <=? ord c) && (ord c <=? ord "Z")) (chars password).
Definition has_digits (password : string) : bool :=
  existsb (fun c => (ord "0" <=? ord c) && (ord c <=? ord "9")) (chars password).
Definition has_symbols (password : string) : bool :=
  existsb (fun c => bool_decide (c ∈ specials)) (chars password).

(** The integer part of [estimate_entropy_bits]: the assumed alphabet size. *)
Definition charset_size (password : string) : Z :=
  let charset_size := 0 in
  let charset_size := if has_lower password then charset_size + 26 else charset_size in
  let charset_size := if has_upper password then charset_size + 26 else charset_size in
  let charset_size := if has_digits password then charset_size + 10 else charset_size in
  let charset_size :=
    if has_symbols password then charset_size + Z.of_nat (size specials) else charset_size in
  Z.max charset_size 1.

(** [math.log2], over the reals. *)
Definition log2 (x : R) : R := (ln x / ln 2)%R.

(** [estimate_entropy_bits]; the float product and [math.log2] are taken
    over the reals. *)
Definition estimate_entropy_bits (password : string) : R :=
  match chars password with
  | [] => 0%R
  | _ => (INR (length (chars password)) * log2 (IZR (charset_size password)))%R
  end.

Definition units : list (Z * string) :=
  [ (365 * 24 * 3600, "year");
    (30 * 24 * 3600, "month");
    (7 * 24 * 3600, "week");
    (24 * 3600, "day");
    (3600, "hour");
    (60, "minute");
    (1, "second") ].

(** The f-string [f"{qty} {name}{'s' if qty != 1 else ''}"]. *)
Definition part (qty : Z) (name : string) : string :=
  (pretty qty ++ " " ++ name ++ (if (qty =? 1)%Z then "" else "s"))%string.

(** The state of the [for] loop of [format_seconds]: the parts so far, what
    remains, and whether [break] was executed. *)
Record loop_state : Type := {
  parts : list string;
  remaining : Z;
  stopped : bool
}.

Definition loop_body (st : loop_state) (unit : Z * string) : loop_state :=
  if stopped st then st
  else
    let '(unit_seconds, name) := unit in
    let st1 :=
      if unit_seconds <=? remaining st then
        let qty := remaining st / unit_seconds in
        {| parts := parts st ++ [part qty name];
           remaining := remaining st - qty * unit_seconds;
           stopped := false |}
      else st in
    if (2 <=? length (parts st1))%nat
    then {| parts := parts st1; remaining := remaining st1; stopped := true |}
    else st1.

Definition format_seconds (seconds : float) : result string :=
  if PrimFloat.ltb seconds 1 then Ok "< 1s"
  else
    r ← int_of_float seconds;
    let final := fold_left loop_body units
                   {| parts := []; remaining := r; stopped := false |} in
    Ok (match parts final with [] => "< 1s" | ps => join ", " ps end).

(** Specification-level definitions used in the statements below. *)

Definition class_size (present : bool) (size : Z) : Z := if present then size else 0.

(** Following the specification's words: greedily take the largest applicable
    units, at most [k] of them, each with its quantity. *)
Fixpoint greedy (us : list (Z * string)) (k : nat) (r : Z) : list (Z * (Z * string)) :=
  match us with
  | [] => []
  | (u, name) :: us' =>
      match k with
      | O => []
      | S k' =>
          if u <=? r then (r / u, (u, name)) :: greedy us' k' (r - r / u * u)
          else greedy us' k r
      end
  end.

Definition two_largest_units (r : Z) : list (Z * (Z * string)) := greedy units 2 r.

Definition render (ps : list (Z * (Z * string))) : string :=
  match ps with
  | [] => "< 1s"
  | _ => join ", " ((fun x => part x.1 x.2.2) <$> ps)
  end.

(** The number of seconds a list of parts accounts for. *)
Definition total (ps : list (Z * (Z * string))) : Z :=
  foldr (fun x acc => x.1 * x.2.1 + acc) 0 ps.

End CrackTime.

(** ** Iot device security using Ceaser cipher and Hill cipher/cypher.py *)

Module CaesarHill.
Import Py Np.

Definition caesar_encrypt (text : string) (shift : Z) : result string :=
  str <$> mapM (fun char =>
                  if isalpha char then chr ((ord char - 65 + shift) mod 26 + 65)
                  else Ok char)
               (chars (upper text)).

Definition caesar_decrypt (cipher : string) (shift : Z) : result string :=
  caesar_encrypt cipher (- shift).

(** [np.array(block).reshape(n, 1)] *)
Definition reshape_column (n : Z) (block : list Z) : result (list Z) :=
  if Z.of_nat (length block) =? n then Ok block else Raise NumpyError.

(** The block loop shared by [hill_encrypt] and [hill_decrypt]. *)
Definition hill_blocks (m : matrix) (numbers : list Z) : result (list Z) :=
  let n := Z.of_nat (length m) in
  blocks ← blocks_of n numbers;
  @concat Z <$> mapM (fun b => block ← reshape_column n b;
                            Ok ((fun v => v mod 26) <$> matvec m block)) blocks.

Definition hill_encrypt (text : string) (key_matrix : matrix) : result string :=
  let numbers := (fun c => ord c - 65) <$> chars (upper text) in
  let n := Z.of_nat (length key_matrix) in
  if n =? 0 then Raise ZeroDivisionError
  else
    let numbers := pad_loop (Z.abs_nat n) n 25 numbers in
    cipher_nums ← hill_blocks key_matrix numbers;
    str <$> mapM (fun num => chr (num + 65)) cipher_nums.

Definition hill_decrypt (cipher : string) (key_matrix : matrix) : result string :=
  let numbers := (fun c => ord c - 65) <$> chars (upper cipher) in
  let d := det key_matrix in
  det_inv ← pow d (-1) 26;
  let matrix_mod_inv :=
    (fun row : list Z => (fun a => (det_inv * a) mod 26) <$> row) <$> adjugate key_matrix in
  plain_nums ← hill_blocks matrix_mod_inv numbers;
  str <$> mapM (fun num => chr (num + 65)) plain_nums.

Definition hybrid_encrypt (message : string) (shift : Z) (key_matrix : matrix)
  : result (string * string) :=
  caesar_out ← caesar_encrypt message shift;
  hill_out ← hill_encrypt caesar_out key_matrix;
  Ok (caesar_out, hill_out).

Definition hybrid_decrypt (cipher : string) (shift : Z) (key_matrix : matrix)
  : result (string * string) :=
  hill_out ← hill_decrypt cipher key_matrix;
  original ← caesar_decrypt hill_out shift;
  Ok (hill_out, original).

(** The key of [process_data]. *)
Definition key_matrix : matrix := [[3; 3]; [2; 5]].

(** Definitions used in the statements below. *)

(** The letter of the alphabet position [n]. *)
Definition letter (n : Z) : ascii := ascii_of_N (Z.to_N (n + 65)).

Definition positions (ns : list Z) : Prop := Forall (fun n => 0 <= n < 26) ns.

(** The Hill stage on a list of numbers, two at a time, for the matrix
    [[a, b], [c, d]]. *)
Fixpoint hill_pairs (a b c d : Z) (l : list Z) : list Z :=
  match l with
  | x :: y :: rest =>
      ((a * x + b * y) mod 26) :: ((c * x + d * y) mod 26) :: hill_pairs a b c d rest
  | _ => []
  end.

(** What [hill_encrypt] hands to the block loop for a 2 x 2 key. *)
Definition pad_even (ns : list Z) : list Z :=
  if Nat.even (length ns) then ns else ns ++ [25].

(** What [caesar_encrypt] does to one character of the upper-cased text. *)
Definition caesar_char (shift : Z) (c : ascii) : ascii :=
  if isalpha c then letter ((ord c - 65 + shift) mod 26) else c.

End CaesarHill.

(** ** DIFFIE-HELLMAN/app/crypto_utils.py and routes.py *)

Module DH.
Import Py.

Definition compute_public_key (g private_key p : Z) : result Z :=
  pow g private_key p.

Definition compute_shared_secret (other_public private_key p : Z) : result Z :=
  pow other_public private_key p.

(** What the [/api/compute] handler produces: a JSON body with a status, or
    an exception that leaves the handler. *)
Inductive response : Type :=
| Json400 (error : string)
| Json200 (A B s1 s2 : Z) (matched : bool)
| Uncaught (e : exn).

(** The handler [compute].  Each argument is the outcome of
    [int(data.get(...))] for one field: [None] when the conversion raises. *)
Definition compute (p g a b : option Z) : response :=
  match p, g, a, b with
  | Some p, Some g, Some a, Some b =>
      if (p =? 0) || (g =? 0) || (a =? 0) || (b =? 0) then
        Json400 "Missing one or more required fields: p, g, a, b."
      else
        match
          A ← compute_public_key g a p;
          B ← compute_public_key g b p;
          s1 ← compute_shared_secret B a p;
          s2 ← compute_shared_secret A b p;
          Ok (Json200 A B s1 s2 (s1 =? s2))
        with
        | Ok r => r
        | Raise e => Uncaught e
        end
  | _, _, _, _ => Json400 "Invalid inputs. p, g, a, b must be integers."
  end.

End DH.

(** ** towerofbabel2/crypto_utils.py: the block permutation layer *)

Module ToB.
Import Py.

Abbreviation bytes := (list Byte.byte).

(** [i.to_bytes(4, "big")] *)
Definition to_bytes4 (i : nat) : result bytes :=
  let z := Z.of_nat i in
  if z <? 2 ^ 32 then
    Ok [byte_of_Z (z / 2 ^ 24); byte_of_Z (z / 2 ^ 16); byte_of_Z (z / 2 ^ 8); byte_of_Z z]
  else Raise OverflowError.

(** [a <= b] on [bytes]: lexicographic, by unsigned byte value. *)
Fixpoint bytes_le (a b : bytes) : bool :=
  match a, b with
  | [], _ => true
  | _ :: _, [] => false
  | x :: a', y :: b' =>
      match N.compare (Byte.to_N x) (Byte.to_N y) with
      | Lt => true
      | Gt => false
      | Eq => bytes_le a' b'
      end
  end.

(** [list.sort(key=...)] is stable, and a stable sort is determined by the
    order on the keys: insertion from the right, an element going before the
    elements of equal key that followed it. *)
Fixpoint insert_sorted {A} (x : bytes * A) (l : list (bytes * A)) : list (bytes * A) :=
  match l with
  | [] => [x]
  | y :: l' => if bytes_le x.1 y.1 then x :: y :: l' else y :: insert_sorted x l'
  end.

Definition sort_by_key {A} (l : list (bytes * A)) : list (bytes * A) :=
  foldr insert_sorted [] l.

(** [l[i]] for a non-negative index. *)
Definition getitem {A} (l : list A) (i : nat) : result A :=
  match l !! i with
  | Some x => Ok x
  | None => Raise IndexError
  end.

(** [l[i] = x] for a non-negative index. *)
Definition setitem {A} (l : list A) (i : nat) (x : A) : result (list A) :=
  if (i <? length l)%nat then Ok (<[i := x]> l) else Raise IndexError.

Section WithHash.

(** [hashlib.sha256(data).digest()] *)
Variable sha256 : bytes -> bytes.

Definition _split_blocks (data : bytes) (block_size : nat) : result (list bytes) :=
  if (block_size =? 0)%nat then Raise ZeroDivisionError
  else if (length data mod block_size =? 0)%nat then Ok (chunks block_size data)
  else Raise (AssertionError "Ciphertext not aligned to block size").

Definition _join_blocks (blocks : list bytes) : bytes := concat blocks.

(** The body of the loop of [_deterministic_permutation]: the pair [(h, i)]. *)
Definition score (key iv : bytes) (i : nat) : result (bytes * nat) :=
  b ← to_bytes4 i; Ok (sha256 (key ++ iv ++ b), i).

Definition _deterministic_permutation (key iv : bytes) (n : nat) : result (list nat) :=
  scores ← mapM (score key iv) (seq 0 n);
  Ok (snd <$> sort_by_key scores).

Definition obfuscate_ciphertext_blocks (key iv ciphertext : bytes)
  : result (bytes * list nat) :=
  blocks ← _split_blocks ciphertext 16;
  let n := length blocks in
  perm ← _deterministic_permutation key iv n;
  permuted_blocks ← mapM (getitem blocks) perm;
  Ok (_join_blocks permuted_blocks, perm).

(** The first loop of [deobfuscate_ciphertext_blocks]. *)
Fixpoint build_inverse (inv : list nat) (new_pos : nat) (perm : list nat)
  : result (list nat) :=
  match perm with
  | [] => Ok inv
  | src_idx :: rest =>
      inv' ← setitem inv src_idx new_pos;
      build_inverse inv' (S new_pos) rest
  end.

(** The second loop, over [orig_index] in the given indices. *)
Fixpoint reconstruct (obf_blocks : list bytes) (inv : list nat)
    (orig_blocks : list (option bytes)) (indices : list nat)
  : result (list (option bytes)) :=
  match indices with
  | [] => Ok orig_blocks
  | orig_index :: rest =>
      k ← getitem inv orig_index;
      b ← getitem obf_blocks k;
      orig_blocks' ← setitem orig_blocks orig_index (Some b);
      reconstruct obf_blocks inv orig_blocks' rest
  end.

Definition deobfuscate_ciphertext_blocks (key iv permuted_ciphertext : bytes)
    (perm : list nat) : result bytes :=
  obf_blocks ← _split_blocks permuted_ciphertext 16;
  let n := length obf_blocks in
  if negb (n =? length perm)%nat then Raise (AssertionError "Permutation mismatch")
  else
    inv ← build_inverse (replicate n 0%nat) 0 perm;
    orig_blocks ← reconstruct obf_blocks inv (replicate n None) (seq 0 n);
    (* joining a list that still holds a None is a TypeError *)
    blocks ← mapM (fun ob => match ob with Some b => Ok b | None => Raise TypeError end)
                  orig_blocks;
    Ok (_join_blocks blocks).

End WithHash.

(** A key and a 16-byte IV used in the closed statements below. *)
Definition demo_key : bytes := list_byte_of_string "key".
Definition demo_iv : bytes := replicate 16 Byte.x00.

End ToB.

(** ** 1OX22CS116-2FA-Project/main.py: the login spot check *)

Module Stego2FA.
Import Py.

(** The [secret_coordinates] of a [UserProfile], after [float(...)]. *)
Record UserProfile : Type := {
  secret_x : float;
  secret_y : float
}.

Definition default_tol : float := 0.02%float.

Definition _spot_within_tolerance (profile : option UserProfile) (x y tol : float)
  : result bool :=
  match profile with
  | None => Raise (AssertionError "")
  | Some saved =>
      Ok (PrimFloat.leb (PrimFloat.abs (PrimFloat.sub x (secret_x saved))) tol
          && PrimFloat.leb (PrimFloat.abs (PrimFloat.sub y (secret_y saved))) tol)
  end.







End Stego2FA.

(** * Theorems *)

(** ** Poly-Hill cipher *)

Section PolyHill.
Import Py Np PHC.

(** C6: with block size 2, modulus 26, coefficients [1,2] and Hill matrix
    [[3,2],[1,1]] installed through [set_keys], encrypting "HI" encodes
    H = 7 and I = 8, gives the polynomial values [15,17], the Hill output
    [1,6] mod 26, the obfuscated block [1,7], and returns "BH". *)
Theorem encrypt_HI_worked_example :
  let self := worked_example.1 in
  worked_example.2 = Ok tt /\
  polynomial_coeffs self = Some [1; 2] /\
  hill_matrix self = Some [[3; 2]; [1; 1]] /\
  _text_to_numbers "HI" = [7; 8] /\
  mapM (_polynomial_transform self) [7; 8] = Ok [15; 17] /\
  (fun v => v mod p self) <$> matvec [[3; 2]; [1; 1]] [15; 17] = [1; 6] /\
  obfuscate_block self 0 [1; 6] = [1; 7] /\
  encrypt_block self [[3; 2]; [1; 1]] 0 [7; 8] = Ok [1; 7] /\
  encrypt self "HI" = Ok "BH".
Proof. vm_compute. repeat split; reflexivity. Qed.

(** C8: on a freshly constructed cipher, whatever the block size, the
    modulus and the text, [encrypt] and [decrypt] raise the "Keys not
    generated" error and produce no result. *)
Theorem fresh_cipher_raises_keys_not_generated :
  forall (block_size modulus : Z) (text : string),
    encrypt (__init__ block_size modulus) text
      = Raise (ValueError "Keys not generated. Call generate_key() first.") /\
    decrypt (__init__ block_size modulus) text
      = Raise (ValueError "Keys not generated. Call generate_key() first.").
Proof. intros block_size modulus text. split; reflexivity. Qed.

(** The polynomial of [open_cipher] is a bijection of the residues and the
    cached matrix is the inverse of the Hill matrix modulo 26. *)
Lemma open_cipher_key_is_valid :
  let self := open_cipher.1 in
  open_cipher.2 = Ok tt /\
  hill_matrix_inv self = Some [[3; 24]; [25; 1]] /\
  Forall (fun x =>
            (y ← _polynomial_transform self x; _inverse_polynomial_transform self y) = Ok x)
         (range 26) /\
  Forall (fun v => (fun a => a mod 26) <$> matvec [[3; 24]; [25; 1]]
                     ((fun a => a mod 26) <$> matvec [[1; 2]; [1; 3]] v) = v)
         [[1; 0]; [0; 1]].
Proof.
  cbv zeta. split; [vm_compute; reflexivity|].
  split; [vm_compute; reflexivity|].
  split.
  - assert (Hb : forallb (fun x => match (y ← _polynomial_transform open_cipher.1 x;
                                          _inverse_polynomial_transform open_cipher.1 y) with
                                   | Ok x' => x' =? x
                                   | Raise _ => false
                                   end) (range 26) = true)
      by (vm_compute; reflexivity).
    rewrite List.forallb_forall in Hb.
    apply List.Forall_forall. intros x Hx. specialize (Hb x Hx).
    destruct (_ ≫= _) as [x'|]; [|discriminate].
    apply Z.eqb_eq in Hb. congruence.
  - repeat constructor.
Qed.

(** C1, evaluated at a failing input: under the valid key of [open_cipher]
    the plaintext "OPEN" (uppercase, two full blocks, no trailing X)
    encrypts to "NEKB", which decrypts to "OPAP".  In block 1 the Hill value
    25 is masked with 2, giving 27, which the reduction mod 26 turns into 1;
    unmasking 1 with 2 gives 3, not 25.  The Hill values 25 and 3 are
    obfuscated to the same value, so "OPAP" encrypts to "NEKB" as well and
    no decryption could return both plaintexts. *)
Theorem round_trip_fails_on_OPEN :
  let self := open_cipher.1 in
  encrypt self "OPEN" = Ok "NEKB" /\
  decrypt self "NEKB" = Ok "OPAP" /\
  obfuscate_block self 1 [11; 25] = [10; 1] /\
  deobfuscate_block self 1 [10; 1] = Ok [11; 3] /\
  obfuscate_block self 1 [11; 3] = [10; 1] /\
  encrypt self "OPAP" = Ok "NEKB".
Proof. vm_compute. repeat split; reflexivity. Qed.

End PolyHill.

(** ** Crack-time estimator *)

Section CrackTimeEstimator.
Import Py CrackTime.

Lemma specials_size : size specials = 33%nat.
Proof. vm_compute. reflexivity. Qed.

Lemma ln_2_pos : (0 < ln 2)%R.
Proof. rewrite <- ln_1. apply ln_increasing; lra. Qed.

Lemma log2_94_lt_95 : (log2 94 < log2 95)%R.
Proof.
  unfold log2. apply Rmult_lt_compat_r.
  - apply Rinv_0_lt_compat, ln_2_pos.
  - apply ln_increasing; lra.
Qed.

(** C2, as the claim states it, fails: the password "aA0!" has one
    character of each class, the symbol class has 33 members, the alphabet
    size is 95 and the estimate is 4 x log2(95), which is not 4 x log2(94). *)
Lemma four_classes_give_95_not_94 :
  has_lower "aA0!" = true /\ has_upper "aA0!" = true /\
  has_digits "aA0!" = true /\ has_symbols "aA0!" = true /\
  size specials = 33%nat /\
  charset_size "aA0!" = 95 /\
  estimate_entropy_bits "aA0!" = (4 * log2 95)%R /\
  (4 * log2 95 <> 4 * log2 (IZR (26 + 26 + 10 + 32)))%R.
Proof.
  assert (Hc : charset_size "aA0!" = 95) by (vm_compute; reflexivity).
  repeat split; try (vm_compute; reflexivity).
  - unfold estimate_entropy_bits. rewrite Hc. simpl. lra.
  - change (IZR (26 + 26 + 10 + 32)) with 94%R.
    pose proof log2_94_lt_95. lra.
Qed.

Lemma chars_length (s : string) : length (chars s) = String.length s.
Proof. unfold chars. induction s as [|c s IH]; simpl; [reflexivity|]. now rewrite IH. Qed.

(** C2, amended: the class sizes summed are 26 (lowercase), 26 (uppercase),
    10 (digits) and 33 (the symbol class: space and the 32 ASCII
    punctuation characters), with a minimum of 1; the result is
    length x log2(charset size) for a non-empty password, so a password with
    a character of each of the four classes gets length x log2(95). *)
Theorem entropy_charset_sizes (password : string) :
  charset_size password
    = Z.max (class_size (has_lower password) 26 + class_size (has_upper password) 26
             + class_size (has_digits password) 10 + class_size (has_symbols password) 33) 1 /\
  (password <> "" ->
   estimate_entropy_bits password
     = (INR (String.length password) * log2 (IZR (charset_size password)))%R) /\
  (has_lower password = true -> has_upper password = true ->
   has_digits password = true -> has_symbols password = true ->
   estimate_entropy_bits password = (INR (String.length password) * log2 95)%R).
Proof.
  assert (Hsize : charset_size password
    = Z.max (class_size (has_lower password) 26 + class_size (has_upper password) 26
             + class_size (has_digits password) 10 + class_size (has_symbols password) 33) 1).
  { unfold charset_size. rewrite specials_size.
    destruct (has_lower password), (has_upper password),
             (has_digits password), (has_symbols password); reflexivity. }
  pose proof (chars_length password) as Hlen.
  assert (Hne : password <> "" ->
     estimate_entropy_bits password
       = (INR (String.length password) * log2 (IZR (charset_size password)))%R).
  { intros Hp. unfold estimate_entropy_bits. rewrite <- Hlen.
    destruct password as [|c s]; [congruence|]. reflexivity. }
  split; [exact Hsize|]. split; [exact Hne|].
  intros Hl Hu Hd Hs.
  rewrite Hne.
  - rewrite Hsize, Hl, Hu, Hd, Hs. reflexivity.
  - intros ->. discriminate Hl.
Qed.

Lemma entropy_charset_sizes_witness :
  estimate_entropy_bits "aA0!" = (INR (String.length "aA0!") * log2 95)%R.
Proof.
  apply (proj2 (proj2 (entropy_charset_sizes "aA0!"))); vm_compute; reflexivity.
Defined.

Lemma digits2_pos_lower (m : positive) :
  2 ^ (Z.pos (SpecFloat.digits2_pos m) - 1) <= Z.pos m.
Proof.
  induction m as [m IH|m IH|]; cbn [SpecFloat.digits2_pos].
  - rewrite Pos2Z.inj_succ. replace (Z.succ (Z.pos (SpecFloat.digits2_pos m)) - 1)
      with (Z.succ (Z.pos (SpecFloat.digits2_pos m) - 1)) by lia.
    rewrite Z.pow_succ_r by lia. lia.
  - rewrite Pos2Z.inj_succ. replace (Z.succ (Z.pos (SpecFloat.digits2_pos m)) - 1)
      with (Z.succ (Z.pos (SpecFloat.digits2_pos m) - 1)) by lia.
    rewrite Z.pow_succ_r by lia. lia.
  - reflexivity.
Qed.

Lemma int_of_float_at_least_1 (x : float) (r : Z) :
  PrimFloat.ltb x 1 = false -> int_of_float x = Ok r -> 1 <= r.
Proof.
  intros Hlt Hint. rewrite FloatAxioms.ltb_spec in Hlt.
  change (Prim2SF 1) with (S754_finite false 4503599627370496 (-52)) in Hlt.
  pose proof (FloatAxioms.Prim2SF_valid x) as Hvalid.
  unfold int_of_float in Hint. unfold SFltb in Hlt.
  destruct (Prim2SF x) as [s|s| |s m e]; try discriminate.
  destruct s; [discriminate|].
  cbn [SFcompare] in Hlt.
  assert (He : -52 <= e).
  { destruct (Z.compare_spec e (-52)); [lia|discriminate|lia]. }
  cbn [valid_binary] in Hvalid. unfold bounded, canonical_mantissa in Hvalid.
  apply andb_prop in Hvalid as [Hcanon _]. apply Z.eqb_eq in Hcanon.
  assert (Hdigits : Z.pos (digits2_pos m) = 53).
  { unfold SpecFloat.fexp, SpecFloat.emin, FloatOps.prec, FloatOps.emax in Hcanon. lia. }
  pose proof (digits2_pos_lower m) as Hm. rewrite Hdigits in Hm.
  change (2 ^ (53 - 1)) with 4503599627370496 in Hm.
  injection Hint as <-.
  destruct (Z.leb_spec 0 e).
  - assert (0 < 2 ^ e) by (apply Z.pow_pos_nonneg; lia). nia.
  - assert (Hp : 0 < 2 ^ (- e) <= 2 ^ 52).
    { split; [apply Z.pow_pos_nonneg; lia|]. apply Z.pow_le_mono_r; lia. }
    change (2 ^ 52) with 4503599627370496 in Hp.
    apply Z.div_le_lower_bound; lia.
Qed.

Lemma int_of_float_finite (x : float) :
  isfinite x = true -> exists r, int_of_float x = Ok r.
Proof.
  unfold isfinite, int_of_float.
  destruct (Prim2SF x); intros H; try discriminate; eauto.
Qed.

Lemma loop_stopped us st :
  stopped st = true -> fold_left loop_body us st = st.
Proof.
  induction us as [|u us IH]; intros Hst; simpl; [reflexivity|].
  unfold loop_body at 2. rewrite Hst. now apply IH.
Qed.

Lemma loop_greedy us : forall ps r,
  (length ps < 2)%nat ->
  parts (fold_left loop_body us {| parts := ps; remaining := r; stopped := false |})
    = ps ++ ((fun x => part x.1 x.2.2) <$> greedy us (2 - length ps) r).
Proof.
  induction us as [|[u name] us IH]; intros ps r Hlen; simpl.
  - now rewrite app_nil_r.
  - destruct ps as [|p1 [|p2 ps]]; simpl in Hlen; [| |lia].
    + (* no part yet *)
      unfold loop_body at 2. simpl.
      destruct (u <=? r) eqn:Hu; simpl.
      * rewrite (IH [part (r / u) name]) by (simpl; lia). reflexivity.
      * rewrite (IH []) by (simpl; lia). reflexivity.
    + (* one part: a second one stops the loop *)
      unfold loop_body at 2. simpl.
      destruct (u <=? r) eqn:Hu; simpl.
      * rewrite loop_stopped by reflexivity. simpl.
        destruct us as [|[u' name'] us]; reflexivity.
      * rewrite (IH [p1]) by (simpl; lia). reflexivity.
Qed.





Lemma units_positive : Forall (fun x : Z * string => 0 < x.1) units.
Proof. repeat constructor. Qed.




End CrackTimeEstimator.

(** ** Stego-2FA spot check *)

Section StegoSpotCheck.
Import Py Stego2FA.









End StegoSpotCheck.

(** ** Diffie-Hellman *)

Section DiffieHellman.
Import Py DH.

Lemma mod_abs_eqm (p x : Z) : p <> 0 -> eqm (Z.abs p) (x mod p) x.
Proof.
  intros Hp. unfold eqm. rewrite (Z.mod_eq x p) by assumption.
  destruct (Z.abs_eq_or_opp p) as [->| ->].
  - replace (x - p * (x / p)) with (x + (- (x / p)) * p) by ring.
    apply Z_mod_plus_full.
  - replace (x - p * (x / p)) with (x + (x / p) * (- p)) by ring.
    apply Z_mod_plus_full.
Qed.

Lemma eqm_abs_mod (p x y : Z) : p <> 0 -> eqm (Z.abs p) x y -> x mod p = y mod p.
Proof.
  intros Hp H. unfold eqm in H.
  destruct (Z.abs_eq_or_opp p) as [E|E]; rewrite E in H; [exact H|].
  assert (Hz : forall z, z mod p = - ((- z) mod (- p))).
  { intros z. rewrite <- Z.mod_opp_opp by lia. now rewrite !Z.opp_involutive. }
  rewrite (Hz x), (Hz y). f_equal. apply (Zopp_eqm (- p)). exact H.
Qed.

Lemma pow_eqm (P x y e : Z) : 0 <= e -> eqm P x y -> eqm P (x ^ e) (y ^ e).
Proof.
  intros He Hxy. revert e He. apply natlike_ind.
  - reflexivity.
  - intros e He IH. rewrite !Z.pow_succ_r by assumption.
    now apply Zmult_eqm.
Qed.

Lemma invmod_loop_sound (n0 a0 : Z) fuel : forall a n b c i,
  eqm n0 a (b * a0) -> eqm n0 n (c * a0) ->
  invmod_loop fuel a n b c = Some i -> eqm n0 (a0 * i) 1.
Proof.
  induction fuel as [|fuel IH]; intros a n b c i Ha Hn; simpl.
  - destruct (Z.eqb_spec n 0); [|discriminate].
    destruct (Z.eqb_spec a 1); [|discriminate].
    intros [= <-]. subst a. rewrite Z.mul_comm. now symmetry.
  - destruct (Z.eqb_spec n 0) as [->|Hn0].
    + destruct (Z.eqb_spec a 1); [|discriminate].
      intros [= <-]. subst a. rewrite Z.mul_comm. now symmetry.
    + apply IH; [exact Hn|].
      rewrite (Z.mod_eq a n) by assumption.
      replace ((b - a / n * c) * a0) with (b * a0 - (c * a0) * (a / n)) by ring.
      apply Zminus_eqm; [exact Ha|]. apply Zmult_eqm; [exact Hn|reflexivity].
Qed.

Lemma invmod_sound (a n i : Z) : invmod a n = Some i -> eqm n (a * i) 1.
Proof.
  unfold invmod. apply invmod_loop_sound.
  - unfold eqm. f_equal. ring.
  - unfold eqm. now rewrite Z.mul_0_l, Z_mod_same_full, Zmod_0_l.
Qed.

Lemma invmod_loop_gcd fuel : forall a n b c i,
  invmod_loop fuel a n b c = Some i -> Z.gcd a n = 1.
Proof.
  induction fuel as [|fuel IH]; intros a n b c i; simpl.
  - destruct (Z.eqb_spec n 0) as [->|]; [|discriminate].
    destruct (Z.eqb_spec a 1) as [->|]; [reflexivity|discriminate].
  - destruct (Z.eqb_spec n 0) as [->|Hn].
    + destruct (Z.eqb_spec a 1) as [->|]; [reflexivity|discriminate].
    + intros H. apply IH in H.
      rewrite Z.gcd_comm, Z.gcd_mod in H by assumption.
      now rewrite Z.gcd_comm.
Qed.

Lemma invmod_loop_complete fuel : forall a n b c,
  0 <= n -> (Z.to_nat n < fuel)%nat -> (n = 0 -> 0 <= a) -> Z.gcd a n = 1 ->
  exists i, invmod_loop fuel a n b c = Some i.
Proof.
  induction fuel as [|fuel IH]; intros a n b c Hn Hfuel Ha Hgcd; [lia|].
  simpl. destruct (Z.eqb_spec n 0) as [->|Hn0].
  - rewrite Z.gcd_0_r in Hgcd. specialize (Ha eq_refl).
    assert (a = 1) by lia. subst a. eauto.
  - pose proof (Z.mod_pos_bound a n ltac:(lia)).
    apply IH; [lia|lia|lia|].
    rewrite Z.gcd_comm, Z.gcd_mod by assumption. now rewrite Z.gcd_comm.
Qed.

(** [long_invmod] finds an inverse exactly when there is one. *)
Lemma invmod_is_Some (a n : Z) : 0 < n -> is_Some (invmod a n) <-> Z.gcd a n = 1.
Proof.
  intros Hn. unfold invmod. split.
  - intros [i Hi]. now apply invmod_loop_gcd in Hi.
  - intros Hgcd. destruct (invmod_loop_complete (S (Z.to_nat n)) a n 1 0) as [i Hi];
      [lia|lia|lia|assumption|]. rewrite Hi. eauto.
Qed.

Lemma inverse_unique (P x u v : Z) : eqm P (x * u) 1 -> eqm P (x * v) 1 -> eqm P u v.
Proof.
  intros Hu Hv.
  apply (eqm_trans P _ (u * (x * v))).
  - replace u with (u * 1) at 1 by ring.
    apply Zmult_eqm; [apply eqm_refl | now apply eqm_sym].
  - replace (u * (x * v)) with ((x * u) * v) by ring.
    replace v with (1 * v) at 2 by ring.
    apply Zmult_eqm; [exact Hu | apply eqm_refl].
Qed.

Lemma mod_unit (p x : Z) : Z.abs p = 1 -> x mod p = 0.
Proof.
  intros H. destruct (Z.abs_eq_or_opp p) as [E|E]; rewrite H in E.
  - subst p. apply Z.mod_1_r.
  - assert (p = -1) by lia. subst p.
    pose proof (Z.mod_neg_bound x (-1)). lia.
Qed.

(** What a successful [pow] returns. *)
Lemma pow_nonneg (b e p : Z) : p <> 0 -> 0 <= e -> pow b e p = Ok (b ^ e mod p).
Proof.
  intros Hp He. unfold pow.
  destruct (Z.eqb_spec p 0); [contradiction|].
  destruct (Z.eqb_spec (Z.abs p) 1) as [H1|H1].
  - now rewrite mod_unit.
  - destruct (Z.ltb_spec e 0); [lia|reflexivity].
Qed.

Lemma pow_neg (b e p r : Z) :
  e < 0 -> pow b e p = Ok r ->
  p <> 0 /\ exists i, eqm (Z.abs p) (b * i) 1 /\ r = i ^ (- e) mod p.
Proof.
  intros He. unfold pow.
  destruct (Z.eqb_spec p 0); [discriminate|].
  destruct (Z.eqb_spec (Z.abs p) 1) as [H1|H1].
  - intros [= <-]. split; [assumption|]. exists 0. split.
    + unfold eqm. rewrite H1. now rewrite !Z.mod_1_r.
    + now rewrite mod_unit.
  - destruct (Z.ltb_spec e 0); [|lia].
    destruct (invmod b (Z.abs p)) as [i|] eqn:Hi; [|discriminate].
    intros [= <-]. split; [assumption|]. exists i. split; [|reflexivity].
    now apply invmod_sound.
Qed.

Lemma pow_raises (b e p : Z) (x : exn) :
  p <> 0 -> pow b e p = Raise x ->
  e < 0 /\ x = ValueError "base is not invertible for the given modulus".
Proof.
  intros Hp. unfold pow.
  destruct (Z.eqb_spec p 0); [contradiction|].
  destruct (Z.eqb (Z.abs p) 1); [discriminate|].
  destruct (Z.ltb_spec e 0); [|discriminate].
  destruct (invmod b (Z.abs p)); [discriminate|].
  intros [= <-]. split; [assumption|reflexivity].
Qed.

(** The value of a successful [pow], modulo [|p|], as a power of the base
    (non-negative exponent) or of an inverse of the base (negative one). *)
Lemma pow_value (b e p r : Z) :
  p <> 0 -> pow b e p = Ok r ->
  exists u, r = u ^ Z.abs e mod p /\
            (0 <= e -> u = b) /\ (e < 0 -> eqm (Z.abs p) (b * u) 1).
Proof.
  intros Hp H. destruct (Z.lt_ge_cases e 0) as [He|He].
  - destruct (pow_neg _ _ _ _ He H) as (_ & i & Hi & ->).
    exists i. rewrite Z.abs_neq by lia.
    split; [reflexivity|]. split; [lia|]. intros _. exact Hi.
  - rewrite pow_nonneg in H by assumption. injection H as <-.
    exists b. rewrite Z.abs_eq by lia.
    split; [reflexivity|]. split; [reflexivity|lia].
Qed.

#[local] Existing Instances eqm_setoid Zplus_eqm Zminus_eqm Zmult_eqm Zopp_eqm.

Ltac eqm_by_exponents :=
  match goal with
  | |- eqm _ ?x ?y => replace x with y; [reflexivity | f_equal; lia]
  end.

#[local] Instance Zpow_eqm (P : Z) : Proper (eqm P ==> eq ==> eqm P) Z.pow.
Proof.
  intros x y Hxy e e' <-. destruct (Z.lt_ge_cases e 0).
  - now rewrite !Z.pow_neg_r.
  - now apply pow_eqm.
Qed.

Lemma inverse_pow (P x u e : Z) : 0 <= e -> eqm P (x * u) 1 -> eqm P (x ^ e * u ^ e) 1.
Proof.
  intros He H. rewrite <- Z.pow_mul_l, H. now rewrite Z.pow_1_l.
Qed.

(** Whenever the four modular exponentiations of the exchange succeed, the
    two shared secrets are the same number. *)
Lemma shared_secrets_agree (p g a b A B s1 s2 : Z) :
  p <> 0 ->
  compute_public_key g a p = Ok A -> compute_public_key g b p = Ok B ->
  compute_shared_secret B a p = Ok s1 -> compute_shared_secret A b p = Ok s2 ->
  s1 = s2.
Proof.
  unfold compute_public_key, compute_shared_secret. intros Hp HA HB H1 H2.
  destruct (pow_value _ _ _ _ Hp HA) as (uA & -> & HuA & HiA).
  destruct (pow_value _ _ _ _ Hp HB) as (uB & -> & HuB & HiB).
  destruct (pow_value _ _ _ _ Hp H1) as (v1 & -> & Hv1 & Hi1).
  destruct (pow_value _ _ _ _ Hp H2) as (v2 & -> & Hv2 & Hi2).
  apply eqm_abs_mod; [assumption|].
  set (P := Z.abs p) in *.
  pose proof (Z.abs_nonneg a) as Ha. pose proof (Z.abs_nonneg b) as Hb.
  assert (EA : forall x, eqm P (x mod p) x) by (intros x; now apply mod_abs_eqm).
  rewrite EA in Hi2. rewrite EA in Hi1.
  destruct (Z.lt_ge_cases a 0) as [Ha0|Ha0], (Z.lt_ge_cases b 0) as [Hb0|Hb0].
  - (* both exponents negative: v1 is g^|b| and v2 is g^|a| *)
    specialize (HiA Ha0). specialize (HiB Hb0). specialize (Hi1 Ha0). specialize (Hi2 Hb0).
    assert (E1 : eqm P v1 (g ^ Z.abs b)).
    { apply (inverse_unique P (uB ^ Z.abs b)); [exact Hi1|].
      rewrite Z.mul_comm. now apply inverse_pow. }
    assert (E2 : eqm P v2 (g ^ Z.abs a)).
    { apply (inverse_unique P (uA ^ Z.abs a)); [exact Hi2|].
      rewrite Z.mul_comm. now apply inverse_pow. }
    rewrite E1, E2, <- !Z.pow_mul_r by assumption.
    eqm_by_exponents.
  - (* a negative, b not: v1 is uA^b *)
    specialize (HiA Ha0). specialize (HuB Hb0). specialize (Hi1 Ha0). specialize (Hv2 Hb0).
    subst uB v2. rewrite (Z.abs_eq b) in * by assumption.
    assert (E1 : eqm P v1 (uA ^ b)).
    { apply (inverse_unique P (g ^ b)); [exact Hi1|]. now apply inverse_pow. }
    rewrite E1, EA, <- !Z.pow_mul_r by assumption.
    eqm_by_exponents.
  - (* b negative, a not: v2 is uB^a *)
    specialize (HuA Ha0). specialize (HiB Hb0). specialize (Hv1 Ha0). specialize (Hi2 Hb0).
    subst uA v1. rewrite (Z.abs_eq a) in * by assumption.
    assert (E2 : eqm P v2 (uB ^ a)).
    { apply (inverse_unique P (g ^ a)); [exact Hi2|]. now apply inverse_pow. }
    rewrite E2, EA, <- !Z.pow_mul_r by assumption.
    eqm_by_exponents.
  - (* the textbook case *)
    specialize (HuA Ha0). specialize (HuB Hb0). specialize (Hv1 Ha0). specialize (Hv2 Hb0).
    subst uA uB v1 v2. rewrite !EA, <- !Z.pow_mul_r by assumption.
    eqm_by_exponents.
Qed.

Lemma pow_pow_mod (p g a b : Z) :
  p <> 0 -> 0 <= a -> 0 <= b -> (g ^ a mod p) ^ b mod p = g ^ (a * b) mod p.
Proof.
  intros Hp Ha Hb. apply eqm_abs_mod; [assumption|].
  rewrite (mod_abs_eqm p (g ^ a) Hp). now rewrite Z.pow_mul_r.
Qed.

(** C4, as the claim states it, fails: p = 4, g = 2, a = -1, b = 1 are
    non-zero integers, the handler accepts them, and computing Alice's
    public key raises because 2 has no inverse modulo 4; no JSON answer, and
    so no [match: true], is returned. *)
Lemma compute_raises_on_negative_exponent :
  compute_public_key 2 (-1) 4
    = Raise (ValueError "base is not invertible for the given modulus") /\
  compute (Some 4) (Some 2) (Some (-1)) (Some 1)
    = Uncaught (ValueError "base is not invertible for the given modulus").
Proof. split; vm_compute; reflexivity. Qed.

Lemma gcd_mod_abs (p x : Z) : p <> 0 -> Z.gcd (x mod p) (Z.abs p) = Z.gcd x (Z.abs p).
Proof.
  intros Hp. rewrite !Z.gcd_abs_r. rewrite Z.gcd_mod by assumption. apply Z.gcd_comm.
Qed.

Lemma gcd_pow (P g k : Z) : 0 <= k -> Z.gcd g P = 1 -> Z.gcd (g ^ k) P = 1.
Proof.
  intros Hk H. now apply (Z.coprime_pow_l g P k).
Qed.

Lemma gcd_inverse (P g i : Z) : 0 < P -> eqm P (g * i) 1 -> Z.gcd i P = 1.
Proof.
  intros HP H. destruct (Z.eq_dec P 1) as [->|HP1]; [apply Z.gcd_1_r|].
  unfold eqm in H. rewrite (Z.mod_small 1 P) in H by lia.
  apply Z.bezout_1_gcd. exists g, (- (g * i / P)).
  pose proof (Z.div_mod (g * i) P ltac:(lia)). lia.
Qed.

(** When [pow] succeeds. *)
Lemma pow_succeeds (b e p : Z) :
  p <> 0 -> (0 <= e \/ Z.abs p = 1 \/ Z.gcd b (Z.abs p) = 1) -> exists r, pow b e p = Ok r.
Proof.
  intros Hp H. unfold pow.
  destruct (Z.eqb_spec p 0); [contradiction|].
  destruct (Z.eqb_spec (Z.abs p) 1); [eauto|].
  destruct (Z.ltb_spec e 0); [|eauto].
  destruct H as [H|[H|H]]; [lia|contradiction|].
  destruct (proj2 (invmod_is_Some b (Z.abs p) ltac:(lia)) H) as [i ->]. eauto.
Qed.

Lemma pow_fails (b e p : Z) :
  p <> 0 -> e < 0 -> Z.abs p <> 1 -> Z.gcd b (Z.abs p) <> 1 ->
  pow b e p = Raise (ValueError "base is not invertible for the given modulus").
Proof.
  intros Hp He H1 Hg. unfold pow.
  destruct (Z.eqb_spec p 0); [contradiction|].
  destruct (Z.eqb_spec (Z.abs p) 1); [contradiction|].
  destruct (Z.ltb_spec e 0); [|lia].
  destruct (invmod b (Z.abs p)) as [i|] eqn:Hi; [|reflexivity].
  exfalso. apply Hg. apply (invmod_is_Some b (Z.abs p)); [lia|]. rewrite Hi. eauto.
Qed.

(** A successful [pow] of a base coprime to the modulus is coprime to it. *)
Lemma pow_coprime (b e p r : Z) :
  p <> 0 -> Z.gcd b (Z.abs p) = 1 -> pow b e p = Ok r -> Z.gcd r (Z.abs p) = 1.
Proof.
  intros Hp Hg H. destruct (pow_value _ _ _ _ Hp H) as (u & -> & Hu & Hi).
  rewrite gcd_mod_abs by assumption. apply gcd_pow; [apply Z.abs_nonneg|].
  destruct (Z.lt_ge_cases e 0) as [He|He].
  - apply (gcd_inverse _ b); [lia|]. now apply Hi.
  - now rewrite (Hu He).
Qed.

(** C4, amended: for non-zero integers p, g, a, b, (1) when the exponents a
    and b are positive, both shared secrets are g^(a*b) mod p and the
    handler answers with [match: true]; (2) the handler answers, with two
    equal secrets and [match: true], whenever a and b are positive, or g is
    coprime to p, or |p| = 1; (3) in the remaining cases, a negative
    exponent with a base that has no inverse modulo p, [pow] raises and the
    handler answers nothing. *)
Theorem diffie_hellman_agreement (p g a b : Z) :
  p <> 0 -> g <> 0 -> a <> 0 -> b <> 0 ->
  (0 < a -> 0 < b ->
     (A ← compute_public_key g a p; compute_shared_secret A b p) = Ok (g ^ (a * b) mod p) /\
     (B ← compute_public_key g b p; compute_shared_secret B a p) = Ok (g ^ (a * b) mod p) /\
     compute (Some p) (Some g) (Some a) (Some b)
       = Json200 (g ^ a mod p) (g ^ b mod p) (g ^ (a * b) mod p) (g ^ (a * b) mod p) true) /\
  ((0 < a /\ 0 < b) \/ Z.abs p = 1 \/ Z.gcd g p = 1 ->
     exists A B s, compute (Some p) (Some g) (Some a) (Some b) = Json200 A B s s true) /\
  (a < 0 \/ b < 0 -> Z.abs p <> 1 -> Z.gcd g p <> 1 ->
     compute (Some p) (Some g) (Some a) (Some b)
       = Uncaught (ValueError "base is not invertible for the given modulus")).
Proof.
  intros Hp Hg Ha Hb.
  assert (Hguard : (p =? 0) || (g =? 0) || (a =? 0) || (b =? 0) = false).
  { rewrite !orb_false_iff. repeat split; now apply Z.eqb_neq. }
  split; [|split].
  - intros Ha0 Hb0.
    assert (H2 : (A ← compute_public_key g a p; compute_shared_secret A b p)
                 = Ok (g ^ (a * b) mod p)).
    { unfold compute_public_key, compute_shared_secret.
      rewrite (pow_nonneg g a p) by lia. cbn.
      rewrite pow_nonneg by lia. now rewrite pow_pow_mod by lia. }
    assert (H1 : (B ← compute_public_key g b p; compute_shared_secret B a p)
                 = Ok (g ^ (a * b) mod p)).
    { unfold compute_public_key, compute_shared_secret.
      rewrite (pow_nonneg g b p) by lia. cbn.
      rewrite pow_nonneg by lia. rewrite pow_pow_mod by lia. now rewrite Z.mul_comm. }
    split; [exact H2|]. split; [exact H1|].
    unfold compute. rewrite Hguard.
    unfold compute_public_key, compute_shared_secret in *.
    rewrite (pow_nonneg g a p) in * by lia. rewrite (pow_nonneg g b p) in * by lia.
    cbn in *. rewrite H1, H2. cbn. now rewrite Z.eqb_refl.
  - intros Hcond. unfold compute. rewrite Hguard.
    assert (Hbase : forall e, e = a \/ e = b -> exists r, pow g e p = Ok r).
    { intros e He. apply pow_succeeds; [assumption|].
      destruct Hcond as [[Ha0 Hb0]|[H1|Hgcd]].
      - left. destruct He; subst e; lia.
      - right. now left.
      - right. right. now rewrite Z.gcd_abs_r. }
    assert (Hco : forall e r, Z.gcd g p = 1 -> pow g e p = Ok r -> Z.gcd r (Z.abs p) = 1).
    { intros e r Hgcd. apply pow_coprime; [assumption|]. now rewrite Z.gcd_abs_r. }
    assert (Hnext : forall e e' r, e' = a \/ e' = b -> pow g e p = Ok r ->
              exists r', pow r e' p = Ok r').
    { intros e e' r He' Hr. apply pow_succeeds; [assumption|].
      destruct Hcond as [[Ha0 Hb0]|[H1|Hgcd]].
      - left. destruct He'; subst e'; lia.
      - right. now left.
      - right. right. now apply (Hco e). }
    unfold compute_public_key, compute_shared_secret.
    destruct (Hbase a) as [A HA]; [auto|].
    destruct (Hbase b) as [B HB]; [auto|].
    destruct (Hnext b a B) as [s1 H1]; [auto..|].
    destruct (Hnext a b A) as [s2 H2]; [auto..|].
    rewrite HA. cbn. rewrite HB. cbn. rewrite H1. cbn. rewrite H2. cbn.
    rewrite (shared_secrets_agree p g a b A B s1 s2) by assumption.
    rewrite Z.eqb_refl. eauto.
  - intros Hneg Hp1 Hgcd. unfold compute. rewrite Hguard.
    unfold compute_public_key, compute_shared_secret.
    rewrite <- (Z.gcd_abs_r g p) in Hgcd.
    destruct (Z.lt_ge_cases a 0) as [Ha0|Ha0].
    + now rewrite (pow_fails g a p) by assumption.
    + assert (Hb0 : b < 0) by lia.
      rewrite (pow_nonneg g a p) by assumption. cbn.
      now rewrite (pow_fails g b p) by assumption.
Qed.

Lemma diffie_hellman_agreement_witness :
  compute (Some 23) (Some 5) (Some 6) (Some 15)
    = Json200 (5 ^ 6 mod 23) (5 ^ 15 mod 23) (5 ^ (6 * 15) mod 23) (5 ^ (6 * 15) mod 23) true.
Proof.
  refine (proj2 (proj2 (proj1 (diffie_hellman_agreement 23 5 6 15 _ _ _ _) _ _))); lia.
Defined.

End DiffieHellman.

(** ** The result monad and block splitting *)

Section ResultFacts.
Import Py.
Context {A B : Type}.

Lemma bind_Ok (f : A -> result B) (a : A) : (x ← Ok a; f x) = f a.
Proof. reflexivity. Qed.

Lemma mapM_Ok_fmap (f : A -> result B) (g : A -> B) (l : list A) :
  (forall x, x ∈ l -> f x = Ok (g x)) -> mapM f l = Ok (g <$> l).
Proof.
  induction l as [|x l IH]; intros H; simpl; [reflexivity|].
  rewrite (H x) by left. cbn. rewrite IH; [reflexivity|].
  intros y Hy. apply H. now right.
Qed.

Lemma mapM_Raise (f : A -> result B) (l1 : list A) (x : A) (l2 : list A) (e : exn) :
  (forall y, y ∈ l1 -> exists z, f y = Ok z) -> f x = Raise e ->
  mapM f (l1 ++ x :: l2) = Raise e.
Proof.
  induction l1 as [|y l1 IH]; intros H Hx; simpl.
  - now rewrite Hx.
  - destruct (H y) as [z Hz]; [left|]. rewrite Hz. cbn.
    rewrite IH; [reflexivity| |assumption].
    intros y' Hy'. apply H. now right.
Qed.

End ResultFacts.

Section Chunks.
Import Py.
Context {A : Type}.
Implicit Types (l : list A) (bs : list (list A)).

Lemma concat_chunks_fuel (k : nat) : forall fuel l,
  (0 < k)%nat -> (length l <= fuel)%nat -> concat (chunks_fuel fuel k l) = l.
Proof.
  induction fuel as [|fuel IH]; intros l Hk Hlen.
  - destruct l; [reflexivity|simpl in Hlen; lia].
  - destruct l as [|x l]; [reflexivity|].
    cbn [chunks_fuel concat]. rewrite IH; [apply take_drop|assumption|].
    rewrite length_drop. simpl in *. lia.
Qed.

Lemma chunks_fuel_lengths (k : nat) : forall fuel l,
  (0 < k)%nat -> (length l <= fuel)%nat -> (length l mod k = 0)%nat ->
  Forall (fun b => length b = k) (chunks_fuel fuel k l).
Proof.
  induction fuel as [|fuel IH]; intros l Hk Hlen Hmod.
  - destruct l; constructor.
  - destruct l as [|x l]; [constructor|].
    assert (Hge : (k <= length (x :: l))%nat).
    { destruct (Nat.le_gt_cases k (length (x :: l))) as [|Hlt]; [assumption|].
      rewrite Nat.mod_small in Hmod by assumption. simpl in Hmod. lia. }
    cbn [chunks_fuel]. constructor.
    + now rewrite length_take_le.
    + apply IH; [assumption| |].
      * rewrite length_drop. simpl in *. lia.
      * rewrite length_drop.
        replace (length (x :: l)) with ((length (x :: l) - k) + 1 * k)%nat in Hmod by lia.
        now rewrite Nat.Div0.mod_add in Hmod.
Qed.

Lemma chunks_fuel_concat (k : nat) : forall bs fuel,
  (0 < k)%nat -> Forall (fun b => length b = k) bs ->
  (length (concat bs) <= fuel)%nat -> chunks_fuel fuel k (concat bs) = bs.
Proof.
  induction bs as [|b bs IH]; intros fuel Hk Hall Hlen.
  - destruct fuel; reflexivity.
  - apply Forall_cons in Hall as [Hb Hall].
    simpl in Hlen. rewrite length_app in Hlen.
    destruct fuel as [|fuel]; [lia|].
    destruct b as [|x b]; [simpl in Hb; lia|].
    change (concat ((x :: b) :: bs)) with ((x :: b) ++ concat bs).
    change (chunks_fuel (S fuel) k ((x :: b) ++ concat bs))
      with (take k ((x :: b) ++ concat bs)
              :: chunks_fuel fuel k (drop k ((x :: b) ++ concat bs))).
    rewrite take_app_length' by now symmetry.
    rewrite drop_app_length' by now symmetry.
    rewrite IH; [reflexivity|assumption..|lia].
Qed.

Lemma concat_length_uniform (k : nat) bs :
  Forall (fun b => length b = k) bs -> length (concat bs) = (length bs * k)%nat.
Proof.
  induction 1 as [|b bs Hb _ IH]; simpl; [reflexivity|].
  rewrite length_app, IH, Hb. lia.
Qed.

End Chunks.

(** ** Tower of Babel: the block permutation layer *)

Section TowerOfBabel.
Import Py ToB.

(** [hashlib.sha256(...).digest()]: any function will do. *)
Variable sha256 : bytes -> bytes.

Lemma to_bytes4_ok (i : nat) :
  Z.of_nat i < 2 ^ 32 -> exists b, to_bytes4 i = Ok b.
Proof.
  intros Hi. unfold to_bytes4. cbv zeta.
  destruct (Z.ltb_spec (Z.of_nat i) (2 ^ 32)); [eauto|lia].
Qed.

Lemma to_bytes4_overflow (i : nat) :
  2 ^ 32 <= Z.of_nat i -> to_bytes4 i = Raise OverflowError.
Proof.
  intros Hi. unfold to_bytes4. cbv zeta.
  destruct (Z.ltb_spec (Z.of_nat i) (2 ^ 32)); [lia|reflexivity].
Qed.

Lemma insert_sorted_perm {A} (x : bytes * A) (l : list (bytes * A)) :
  insert_sorted x l ≡ₚ x :: l.
Proof.
  induction l as [|y l IH]; simpl; [reflexivity|].
  destruct (bytes_le x.1 y.1); [reflexivity|].
  rewrite IH. apply Permutation_swap.
Qed.

Lemma sort_by_key_perm {A} (l : list (bytes * A)) : sort_by_key l ≡ₚ l.
Proof.
  induction l as [|x l IH]; simpl; [reflexivity|].
  rewrite insert_sorted_perm. now rewrite IH.
Qed.

Lemma score_ok (key iv : bytes) (i : nat) :
  Z.of_nat i < 2 ^ 32 -> exists h, score sha256 key iv i = Ok (h, i).
Proof.
  intros Hi. unfold score. destruct (to_bytes4_ok i Hi) as [b ->]. cbn. eauto.
Qed.

Lemma scores_ok (key iv : bytes) (l : list nat) :
  (forall i, i ∈ l -> Z.of_nat i < 2 ^ 32) ->
  exists scores, mapM (score sha256 key iv) l = Ok scores /\ snd <$> scores = l.
Proof.
  induction l as [|i l IH]; intros H.
  - exists []. split; reflexivity.
  - destruct (score_ok key iv i) as [h Hh]; [apply H; left|].
    destruct IH as (scores & Hs & Hsnd); [intros j Hj; apply H; now right|].
    exists ((h, i) :: scores). split.
    + cbn [mapM]. rewrite Hh. cbn. rewrite Hs. reflexivity.
    + cbn. now rewrite Hsnd.
Qed.

Lemma deterministic_permutation_ok (key iv : bytes) (n : nat) :
  Z.of_nat n <= 2 ^ 32 ->
  exists perm, _deterministic_permutation sha256 key iv n = Ok perm /\ perm ≡ₚ seq 0 n.
Proof.
  intros Hn. unfold _deterministic_permutation.
  destruct (scores_ok key iv (seq 0 n)) as (scores & Hs & Hsnd).
  { intros i Hi. apply elem_of_seq in Hi. lia. }
  rewrite Hs. cbn.
  eexists. split; [reflexivity|].
  rewrite sort_by_key_perm. now rewrite Hsnd.
Qed.

Lemma deterministic_permutation_overflow (key iv : bytes) (n : nat) :
  2 ^ 32 < Z.of_nat n ->
  _deterministic_permutation sha256 key iv n = Raise OverflowError.
Proof.
  intros Hn. unfold _deterministic_permutation.
  assert (Hsplit : exists limit rest, Z.of_nat limit = 2 ^ 32 /\ n = (limit + S rest)%nat).
  { exists (Z.to_nat (2 ^ 32)), (n - S (Z.to_nat (2 ^ 32)))%nat. lia. }
  destruct Hsplit as (limit & rest & Hlimit & ->).
  rewrite seq_app. cbn [seq].
  rewrite (mapM_Raise (score sha256 key iv) (seq 0 limit) (0 + limit)%nat _ OverflowError).
  - reflexivity.
  - intros i Hi. apply elem_of_seq in Hi.
    destruct (score_ok key iv i) as [h Hh]; [lia|]. eauto.
  - unfold score. rewrite to_bytes4_overflow by lia. reflexivity.
Qed.

Lemma getitem_Some {A} (l : list A) (i : nat) (x : A) :
  l !! i = Some x -> getitem l i = Ok x.
Proof. intros H. unfold getitem. now rewrite H. Qed.

Lemma setitem_lt {A} (l : list A) (i : nat) (x : A) :
  (i < length l)%nat -> setitem l i x = Ok (<[i := x]> l).
Proof. intros H. unfold setitem. now destruct (Nat.ltb_spec i (length l)); [|lia]. Qed.

Lemma build_inverse_spec (perm : list nat) : forall (inv0 : list nat) (start : nat),
  NoDup perm -> (forall i, i ∈ perm -> (i < length inv0)%nat) ->
  exists inv,
    build_inverse inv0 start perm = Ok inv /\
    length inv = length inv0 /\
    (forall k i, perm !! k = Some i -> inv !! i = Some (start + k)%nat) /\
    (forall i, i ∉ perm -> inv !! i = inv0 !! i).
Proof.
  induction perm as [|src rest IH]; intros inv0 start Hnd Hlt.
  - exists inv0. split; [reflexivity|]. split; [reflexivity|]. split; [|auto].
    intros k i Hk. now rewrite lookup_nil in Hk.
  - apply NoDup_cons in Hnd as [Hsrc Hnd].
    assert (Hs : (src < length inv0)%nat) by (apply Hlt; left).
    destruct (IH (<[src := start]> inv0) (S start) Hnd)
      as (inv & Hb & Hlen & Hin & Hout).
    { intros i Hi. rewrite length_insert. apply Hlt. now right. }
    exists inv. split; [|split; [|split]].
    + cbn [build_inverse]. rewrite setitem_lt by assumption. exact Hb.
    + now rewrite Hlen, length_insert.
    + intros [|k] i Hk; simpl in Hk.
      * injection Hk as <-. rewrite Hout by assumption.
        rewrite list_lookup_insert_eq by assumption. f_equal. lia.
      * rewrite (Hin k i Hk). f_equal. lia.
    + intros i Hi. apply not_elem_of_cons in Hi as [Hne Hi].
      rewrite Hout by assumption. now apply list_lookup_insert_ne.
Qed.

Lemma reconstruct_spec (obf_blocks target : list bytes) (inv : list nat) :
  forall (m a : nat) (orig : list (option bytes)),
    length orig = length target -> (a + m <= length target)%nat ->
    (forall i, (a <= i < a + m)%nat ->
       exists k, inv !! i = Some k /\ obf_blocks !! k = target !! i) ->
    reconstruct obf_blocks inv orig (seq a m)
      = Ok (take a orig ++ (Some <$> take m (drop a target)) ++ drop (a + m) orig).
Proof.
  induction m as [|m IH]; intros a orig Hlen Hbound Hinv.
  - cbn. rewrite Nat.add_0_r, take_0. cbn. now rewrite take_drop.
  - cbn [seq reconstruct].
    destruct (Hinv a) as (k & Hk & Hobf); [lia|].
    destruct (lookup_lt_is_Some_2 target a) as [b Hb]; [lia|].
    rewrite Hb in Hobf.
    rewrite (getitem_Some _ _ _ Hk). cbn.
    rewrite (getitem_Some _ _ _ Hobf). cbn.
    rewrite setitem_lt by lia. cbn.
    rewrite IH.
    + f_equal.
      rewrite (take_S_r (<[a := Some b]> orig) a (Some b))
        by (apply list_lookup_insert_eq; lia).
      rewrite take_insert_ge by lia.
      rewrite drop_insert_lt by lia.
      rewrite (drop_S target b a Hb). cbn.
      rewrite <- app_assoc. cbn.
      now replace (S (a + m))%nat with (a + S m)%nat by lia.
    + now rewrite length_insert.
    + lia.
    + intros i Hi. apply Hinv. lia.
Qed.

Lemma split_blocks_ok (data : bytes) :
  (length data mod 16 = 0)%nat ->
  _split_blocks data 16 = Ok (chunks 16 data) /\
  Forall (fun b => length b = 16%nat) (chunks 16 data) /\
  concat (chunks 16 data) = data.
Proof.
  intros Hmod. unfold _split_blocks, chunks. cbn [Nat.eqb].
  rewrite Hmod. cbn [Nat.eqb]. split; [reflexivity|]. split.
  - apply chunks_fuel_lengths; [lia|lia|assumption].
  - apply concat_chunks_fuel; lia.
Qed.

Lemma split_blocks_concat (bs : list bytes) :
  Forall (fun b => length b = 16%nat) bs -> _split_blocks (concat bs) 16 = Ok bs.
Proof.
  intros Hall. unfold _split_blocks, chunks. cbn [Nat.eqb].
  rewrite (concat_length_uniform 16 bs Hall), Nat.Div0.mod_mul. cbn [Nat.eqb].
  rewrite <- (concat_length_uniform 16 bs Hall).
  now rewrite chunks_fuel_concat by (assumption || lia).
Qed.

Lemma join_reconstructed (blocks : list bytes) :
  mapM (fun ob : option bytes => match ob with Some b => Ok b | None => Raise TypeError end)
       (Some <$> blocks) = Ok blocks.
Proof.
  induction blocks as [|b blocks IH]; [reflexivity|].
  cbn [fmap list_fmap mapM]. cbn. rewrite IH. reflexivity.
Qed.

(** The blocks [[blocks[i] for i in perm]], for indices in range. *)
Lemma permuted_blocks_ok (blocks : list bytes) (perm : list nat) :
  (forall i, i ∈ perm -> (i < length blocks)%nat) ->
  exists permuted_blocks,
    mapM (getitem blocks) perm = Ok permuted_blocks /\
    length permuted_blocks = length perm /\
    (forall k i, perm !! k = Some i -> permuted_blocks !! k = blocks !! i).
Proof.
  intros Hlt. exists ((fun i => default [] (blocks !! i)) <$> perm).
  split; [|split].
  - apply mapM_Ok_fmap. intros i Hi.
    destruct (lookup_lt_is_Some_2 blocks i (Hlt i Hi)) as [b Hb].
    rewrite (getitem_Some _ _ _ Hb). now rewrite Hb.
  - apply length_fmap.
  - intros k i Hk. rewrite list_lookup_fmap, Hk. cbn.
    destruct (lookup_lt_is_Some_2 blocks i) as [b Hb].
    { apply Hlt. now apply list_elem_of_lookup_2 in Hk. }
    now rewrite Hb.
Qed.

Lemma perm_facts (perm : list nat) (n : nat) :
  perm ≡ₚ seq 0 n ->
  NoDup perm /\ length perm = n /\ (forall i, i ∈ perm <-> (i < n)%nat).
Proof.
  intros Hp. split; [|split].
  - rewrite Hp. apply NoDup_seq.
  - now rewrite Hp, length_seq.
  - intros i. rewrite Hp, elem_of_seq. lia.
Qed.

Lemma permuted_blocks_perm (blocks permuted_blocks : list bytes) (perm : list nat) :
  perm ≡ₚ seq 0 (length blocks) ->
  mapM (getitem blocks) perm = Ok permuted_blocks ->
  permuted_blocks ≡ₚ blocks.
Proof.
  intros Hp Hm.
  assert (Hall : forall l, (forall i, i ∈ l -> (i < length blocks)%nat) ->
            mapM (getitem blocks) l = Ok ((fun i => default [] (blocks !! i)) <$> l)).
  { intros l Hl. apply mapM_Ok_fmap. intros i Hi.
    destruct (lookup_lt_is_Some_2 blocks i (Hl i Hi)) as [b Hb].
    rewrite (getitem_Some _ _ _ Hb). now rewrite Hb. }
  rewrite Hall in Hm.
  2:{ intros i Hi. rewrite Hp, elem_of_seq in Hi. lia. }
  injection Hm as <-. rewrite Hp.
  assert (Hseq : (fun i => default [] (blocks !! i)) <$> seq 0 (length blocks) = blocks).
  { apply list_eq. intros i. rewrite list_lookup_fmap.
    destruct (Nat.lt_ge_cases i (length blocks)) as [Hi|Hi].
    - rewrite lookup_seq_lt by assumption. cbn.
      destruct (lookup_lt_is_Some_2 blocks i Hi) as [b Hb]. now rewrite Hb.
    - rewrite lookup_seq_ge by assumption. cbn. symmetry. now apply lookup_ge_None_2. }
  now rewrite Hseq.
Qed.

(** What [obfuscate_ciphertext_blocks] returns on an aligned ciphertext of at
    most 2^32 blocks. *)
Lemma obfuscate_ok (key iv ciphertext : bytes) :
  (length ciphertext mod 16 = 0)%nat ->
  Z.of_nat (length ciphertext) <= 16 * 2 ^ 32 ->
  exists permuted_blocks perm,
    obfuscate_ciphertext_blocks sha256 key iv ciphertext
      = Ok (concat permuted_blocks, perm) /\
    _deterministic_permutation sha256 key iv (length (chunks 16 ciphertext)) = Ok perm /\
    perm ≡ₚ seq 0 (length (chunks 16 ciphertext)) /\
    mapM (getitem (chunks 16 ciphertext)) perm = Ok permuted_blocks.
Proof.
  intros Hmod Hlen.
  destruct (split_blocks_ok ciphertext Hmod) as (Hsplit & Hall & Hcat).
  assert (Hn : Z.of_nat (length (chunks 16 ciphertext)) <= 2 ^ 32).
  { pose proof (concat_length_uniform 16 _ Hall) as Hl. rewrite Hcat in Hl. lia. }
  destruct (deterministic_permutation_ok key iv _ Hn) as (perm & Hperm & Hp).
  destruct (perm_facts perm _ Hp) as (Hnd & Hplen & Hpin).
  destruct (permuted_blocks_ok (chunks 16 ciphertext) perm) as (pb & Hpb & _).
  { intros i Hi. now apply Hpin. }
  exists pb, perm. split; [|auto].
  unfold obfuscate_ciphertext_blocks. rewrite Hsplit. cbn.
  rewrite Hperm. cbn. rewrite Hpb. reflexivity.
Qed.

Lemma obfuscate_overflow (key iv ciphertext : bytes) :
  (length ciphertext mod 16 = 0)%nat ->
  16 * 2 ^ 32 < Z.of_nat (length ciphertext) ->
  obfuscate_ciphertext_blocks sha256 key iv ciphertext = Raise OverflowError.
Proof.
  intros Hmod Hlen.
  destruct (split_blocks_ok ciphertext Hmod) as (Hsplit & Hall & Hcat).
  unfold obfuscate_ciphertext_blocks. rewrite Hsplit. cbn.
  rewrite deterministic_permutation_overflow; [reflexivity|].
  pose proof (concat_length_uniform 16 _ Hall) as Hl. rewrite Hcat in Hl. lia.
Qed.

(** C10, amended: for every key and iv and every n up to 2^32, the result of
    [_deterministic_permutation] is a permutation of 0..n-1, each index
    occurring exactly once; so on a ciphertext of n aligned blocks
    [obfuscate_ciphertext_blocks] returns a rearrangement of the blocks, none
    lost and none duplicated. *)
Theorem deterministic_permutation_is_permutation (key iv : bytes) (n : nat) :
  Z.of_nat n <= 2 ^ 32 ->
  (exists perm,
     _deterministic_permutation sha256 key iv n = Ok perm /\
     perm ≡ₚ seq 0 n /\ NoDup perm /\ length perm = n /\
     forall i, i ∈ perm <-> (i < n)%nat) /\
  (forall ciphertext blocks,
     _split_blocks ciphertext 16 = Ok blocks -> length blocks = n ->
     exists permuted_blocks perm,
       obfuscate_ciphertext_blocks sha256 key iv ciphertext
         = Ok (_join_blocks permuted_blocks, perm) /\
       _split_blocks (_join_blocks permuted_blocks) 16 = Ok permuted_blocks /\
       permuted_blocks ≡ₚ blocks).
Proof.
  intros Hn. split.
  - destruct (deterministic_permutation_ok key iv n Hn) as (perm & Hperm & Hp).
    destruct (perm_facts perm n Hp) as (Hnd & Hlen & Hin).
    exists perm. auto.
  - intros ciphertext blocks Hsplit Hblocks.
    assert (Hmod : (length ciphertext mod 16 = 0)%nat).
    { unfold _split_blocks in Hsplit. cbn [Nat.eqb] in Hsplit.
      destruct (Nat.eqb_spec (length ciphertext mod 16) 0); [assumption|discriminate]. }
    destruct (split_blocks_ok ciphertext Hmod) as (Hsplit' & Hall & Hcat).
    rewrite Hsplit' in Hsplit. injection Hsplit as <-.
    destruct (obfuscate_ok key iv ciphertext Hmod) as (pb & perm & Hobf & _ & Hp & Hpb).
    { pose proof (concat_length_uniform 16 _ Hall) as Hl. rewrite Hcat in Hl. lia. }
    pose proof (permuted_blocks_perm _ _ _ Hp Hpb) as Hperm.
    exists pb, perm. split; [exact Hobf|]. split; [|exact Hperm].
    apply split_blocks_concat. now rewrite Hperm.
Qed.

(** C5, amended: for every key and iv and every ciphertext whose length is
    a multiple of 16 bytes and at most 2^32 blocks, de-obfuscating the
    output of [obfuscate_ciphertext_blocks] with the permutation it returned
    gives back the ciphertext. *)
Theorem obfuscation_round_trip (key iv ciphertext : bytes) :
  (length ciphertext mod 16 = 0)%nat ->
  Z.of_nat (length ciphertext) <= 16 * 2 ^ 32 ->
  exists permuted perm,
    obfuscate_ciphertext_blocks sha256 key iv ciphertext = Ok (permuted, perm) /\
    deobfuscate_ciphertext_blocks key iv permuted perm = Ok ciphertext.
Proof.
  intros Hmod Hlen.
  destruct (split_blocks_ok ciphertext Hmod) as (Hsplit & Hall & Hcat).
  destruct (obfuscate_ok key iv ciphertext Hmod Hlen) as (pb & perm & Hobf & _ & Hp & Hpb).
  set (blocks := chunks 16 ciphertext) in *.
  destruct (perm_facts perm _ Hp) as (Hnd & Hplen & Hpin).
  pose proof (permuted_blocks_perm _ _ _ Hp Hpb) as Hperm.
  destruct (permuted_blocks_ok blocks perm) as (pb' & Hpb' & Hpblen & Hlook).
  { intros i Hi. now apply Hpin. }
  rewrite Hpb in Hpb'. injection Hpb' as <-.
  exists (concat pb), perm. split; [exact Hobf|].
  unfold deobfuscate_ciphertext_blocks.
  rewrite split_blocks_concat by now rewrite Hperm. cbn.
  rewrite Hpblen, Nat.eqb_refl. cbn.
  destruct (build_inverse_spec perm (replicate (length perm) 0%nat) 0 Hnd)
    as (inv & Hinv & Hilen & Hin & _).
  { intros i Hi. rewrite length_replicate, Hplen. now apply Hpin. }
  rewrite Hinv. cbn.
  rewrite (reconstruct_spec pb blocks inv (length perm) 0).
  - cbn. rewrite take_0, drop_0. rewrite Hplen at 1. rewrite take_ge by reflexivity.
    rewrite drop_ge by (now rewrite length_replicate).
    rewrite app_nil_l, app_nil_r, join_reconstructed. cbn.
    unfold _join_blocks. now rewrite Hcat.
  - now rewrite length_replicate.
  - lia.
  - intros i Hi.
    assert (Hi' : i ∈ perm) by (apply Hpin; lia).
    apply list_elem_of_lookup_1 in Hi' as [k Hk].
    exists k. split; [apply (Hin k i Hk)|]. now apply Hlook.
Qed.

End TowerOfBabel.

(** The first and last round constants and the initial hash value, as
    printed in FIPS 180-4. *)
Example sha256_constants :
  length Hashlib.K = 64%nat /\
  head Hashlib.K = Some 0x428a2f98 /\ last Hashlib.K = Some 0xc67178f2 /\
  head Hashlib.H0 = Some 0x6a09e667 /\ last Hashlib.H0 = Some 0x5be0cd19.
Proof. vm_compute. repeat split; reflexivity. Qed.

(** The digest of "abc", as in FIPS 180-4, appendix B.1. *)
Example sha256_abc :
  Hashlib.sha256 (list_byte_of_string "abc")
    = Py.byte_of_Z <$>
      [0xba; 0x78; 0x16; 0xbf; 0x8f; 0x01; 0xcf; 0xea; 0x41; 0x41; 0x40; 0xde; 0x5d; 0xae; 0x22; 0x23;
       0xb0; 0x03; 0x61; 0xa3; 0x96; 0x17; 0x7a; 0x9c; 0xb4; 0x10; 0xff; 0x61; 0xf2; 0x00; 0x15; 0xad].
Proof. vm_compute. reflexivity. Qed.

(** The permutation of six blocks under the key "key" and a zero IV. *)
Example deterministic_permutation_of_six :
  ToB._deterministic_permutation Hashlib.sha256
    ToB.demo_key ToB.demo_iv 6
    = Py.Ok [1; 2; 5; 4; 3; 0]%nat.
Proof. vm_compute. reflexivity. Qed.

Lemma deterministic_permutation_is_permutation_witness :
  exists perm,
    ToB._deterministic_permutation Hashlib.sha256 ToB.demo_key ToB.demo_iv 3 = Py.Ok perm /\
    perm ≡ₚ seq 0 3.
Proof.
  destruct (deterministic_permutation_is_permutation Hashlib.sha256 ToB.demo_key ToB.demo_iv 3)
    as [(perm & H1 & H2 & _) _]; [lia|].
  exists perm. split; assumption.
Defined.

(** C10, as the claim states it, fails for n above 2^32: the index 2^32 has
    no 4-byte encoding and [to_bytes] raises OverflowError. *)
Lemma deterministic_permutation_overflows :
  ToB._deterministic_permutation Hashlib.sha256 ToB.demo_key ToB.demo_iv (Z.to_nat (2 ^ 32 + 1))
    = Py.Raise Py.OverflowError.
Proof. apply deterministic_permutation_overflow. lia. Qed.

Lemma obfuscation_round_trip_witness :
  exists permuted perm,
    ToB.obfuscate_ciphertext_blocks Hashlib.sha256 ToB.demo_key ToB.demo_iv (replicate 32 Byte.x2a)
      = Py.Ok (permuted, perm) /\
    ToB.deobfuscate_ciphertext_blocks ToB.demo_key ToB.demo_iv permuted perm = Py.Ok (replicate 32 Byte.x2a).
Proof.
  apply (obfuscation_round_trip Hashlib.sha256 ToB.demo_key ToB.demo_iv (replicate 32 Byte.x2a)).
  - reflexivity.
  - rewrite length_replicate. lia.
Defined.

(** C5, as the claim states it, fails on a ciphertext of 2^32 + 1 blocks:
    its length is a multiple of 16, and obfuscation raises OverflowError. *)
Lemma obfuscation_overflows :
  (length (replicate (Z.to_nat (2 ^ 32 + 1) * 16) Byte.x00) mod 16 = 0)%nat /\
  ToB.obfuscate_ciphertext_blocks Hashlib.sha256 ToB.demo_key ToB.demo_iv
      (replicate (Z.to_nat (2 ^ 32 + 1) * 16) Byte.x00)
    = Py.Raise Py.OverflowError.
Proof.
  assert (Hmod : (length (replicate (Z.to_nat (2 ^ 32 + 1) * 16) Byte.x00) mod 16 = 0)%nat).
  { rewrite length_replicate. apply Nat.Div0.mod_mul. }
  split; [exact Hmod|].
  apply obfuscate_overflow; [exact Hmod|].
  rewrite length_replicate. lia.
Qed.

(** ** Caesar + Hill hybrid *)

Section CaesarHillHybrid.
Import Py Np CaesarHill.

Lemma ord_range (c : ascii) : 0 <= ord c < 256.
Proof.
  unfold ord. pose proof (N_ascii_bounded c). lia.
Qed.

Lemma ord_ascii_of_N (z : Z) : 0 <= z < 256 -> ord (ascii_of_N (Z.to_N z)) = z.
Proof.
  intros Hz. unfold ord. rewrite N_ascii_embedding by lia. lia.
Qed.

Lemma ord_letter (n : Z) : 0 <= n < 26 -> ord (letter n) = n + 65.
Proof. intros Hn. unfold letter. apply ord_ascii_of_N. lia. Qed.

Lemma letter_ord (c : ascii) : letter (ord c - 65) = c.
Proof.
  unfold letter, ord. replace (Z.of_N (N_of_ascii c) - 65 + 65) with (Z.of_N (N_of_ascii c)) by lia.
  rewrite N2Z.id. apply ascii_N_embedding.
Qed.

Lemma chr_letter (n : Z) : 0 <= n < 26 -> chr (n + 65) = Ok (letter n).
Proof.
  intros Hn. unfold chr, letter.
  destruct (Z.leb_spec 0 (n + 65)); [|lia].
  destruct (Z.ltb_spec (n + 65) 256); [reflexivity|lia].
Qed.

Lemma is_upper_letter (n : Z) : 0 <= n < 26 -> is_upper (letter n) = true.
Proof.
  intros Hn. unfold is_upper. rewrite ord_letter by assumption.
  apply andb_true_intro. split; [apply Z.leb_le|apply Z.leb_le]; lia.
Qed.

Lemma is_lower_letter (n : Z) : 0 <= n < 26 -> is_lower (letter n) = false.
Proof.
  intros Hn. unfold is_lower. rewrite ord_letter by assumption.
  apply andb_false_intro1. apply Z.leb_gt. lia.
Qed.

Lemma isalpha_letter (n : Z) : 0 <= n < 26 -> isalpha (letter n) = true.
Proof.
  intros Hn. unfold isalpha. rewrite is_upper_letter by assumption. apply orb_true_r.
Qed.

Lemma upper_char_letter (n : Z) : 0 <= n < 26 -> upper_char (letter n) = letter n.
Proof. intros Hn. unfold upper_char. now rewrite is_lower_letter. Qed.

(** An ASCII letter, upper-cased, is the letter of a position in 0..25. *)
Lemma upper_char_alpha (c : ascii) :
  isalpha c = true -> exists n, 0 <= n < 26 /\ upper_char c = letter n.
Proof.
  unfold isalpha, upper_char, is_lower, is_upper. intros H.
  destruct (andb (97 <=? ord c) (ord c <=? 122)) eqn:Hl.
  - apply andb_prop in Hl as [H1 H2]. apply Z.leb_le in H1, H2.
    exists (ord c - 97). split; [lia|]. unfold letter. f_equal. f_equal. lia.
  - simpl in H. apply andb_prop in H as [H1 H2]. apply Z.leb_le in H1, H2.
    exists (ord c - 65). split; [lia|]. symmetry. apply letter_ord.
Qed.

Lemma chars_str (l : list ascii) : chars (str l) = l.
Proof. apply list_ascii_of_string_of_list_ascii. Qed.

Lemma str_chars (s : string) : str (chars s) = s.
Proof. apply string_of_list_ascii_of_string. Qed.

Lemma append_empty_r (s : string) : (s ++ "")%string = s.
Proof.
  induction s as [|c s IH]; [reflexivity|].
  change (String c s ++ "")%string with (String c (s ++ "")%string). now rewrite IH.
Qed.

Lemma str_app (l1 l2 : list ascii) : str (l1 ++ l2) = (str l1 ++ str l2)%string.
Proof. induction l1 as [|c l1 IH]; simpl; [reflexivity|]. now rewrite IH. Qed.

Lemma upper_letters (ns : list Z) :
  positions ns -> upper (str (letter <$> ns)) = str (letter <$> ns).
Proof.
  intros Hns. unfold upper. rewrite chars_str. f_equal.
  rewrite <- list_fmap_compose. apply list_fmap_ext.
  intros i n Hn. cbn. apply upper_char_letter.
  unfold positions in Hns. rewrite list.Forall_forall in Hns.
  apply Hns. now apply list_elem_of_lookup_2 in Hn.
Qed.

(** The upper-cased text of a message made of ASCII letters. *)
Lemma upper_alpha (message : string) :
  Forall (fun c => isalpha c = true) (chars message) ->
  exists ns, positions ns /\ length ns = String.length message /\
             upper message = str (letter <$> ns).
Proof.
  intros Hall. unfold upper. rewrite <- chars_length.
  induction Hall as [|c l Hc Hl (ns & Hns & Hlen & Heq)].
  - exists []. repeat split. constructor.
  - destruct (upper_char_alpha c Hc) as (n & Hn & Hcn).
    exists (n :: ns). split; [now constructor|]. split; [simpl; now rewrite Hlen|].
    cbn. rewrite Hcn. f_equal. exact Heq.
Qed.

Lemma positions_letters_numbers (ns : list Z) :
  positions ns -> (fun c => ord c - 65) <$> (letter <$> ns) = ns.
Proof.
  intros Hns. rewrite <- list_fmap_compose. rewrite <- (list_fmap_id ns) at 2.
  apply list_fmap_ext. intros i n Hn. cbn.
  unfold positions in Hns. rewrite list.Forall_forall in Hns.
  rewrite ord_letter; [lia|]. apply Hns. now apply list_elem_of_lookup_2 in Hn.
Qed.

Lemma letters_of_positions (nums : list Z) :
  positions nums -> mapM (fun num => chr (num + 65)) nums = Ok (letter <$> nums).
Proof.
  intros Hns. apply mapM_Ok_fmap. intros n Hn. apply chr_letter.
  unfold positions in Hns. rewrite list.Forall_forall in Hns. now apply Hns.
Qed.

Lemma caesar_encrypt_positions (text : string) (ns : list Z) (shift : Z) :
  positions ns -> upper text = str (letter <$> ns) ->
  caesar_encrypt text shift
    = Ok (str (letter <$> ((fun n => (n + shift) mod 26) <$> ns))).
Proof.
  intros Hns Hup. unfold caesar_encrypt. rewrite Hup, chars_str.
  rewrite (mapM_Ok_fmap _ (fun c => letter ((ord c - 65 + shift) mod 26))).
  - cbn. f_equal. f_equal. rewrite <- !list_fmap_compose.
    apply list_fmap_ext. intros i n Hn. cbn.
    unfold positions in Hns. rewrite list.Forall_forall in Hns.
    rewrite ord_letter by (apply Hns; now apply list_elem_of_lookup_2 in Hn).
    f_equal. f_equal. lia.
  - intros c Hc. apply list_elem_of_fmap in Hc as (n & -> & Hn).
    unfold positions in Hns. rewrite list.Forall_forall in Hns.
    rewrite isalpha_letter by now apply Hns.
    apply chr_letter. apply Z.mod_pos_bound. lia.
Qed.

Lemma chunks_fuel_irrelevant {A} (k : nat) : forall fuel1 fuel2 (l : list A),
  (0 < k)%nat -> (length l <= fuel1)%nat -> (length l <= fuel2)%nat ->
  chunks_fuel fuel1 k l = chunks_fuel fuel2 k l.
Proof.
  induction fuel1 as [|fuel1 IH]; intros fuel2 l Hk H1 H2.
  - destruct l; [|simpl in H1; lia]. destruct fuel2; reflexivity.
  - destruct l as [|x l]; [destruct fuel2; reflexivity|].
    destruct fuel2 as [|fuel2]; [simpl in H2; lia|].
    cbn [chunks_fuel]. f_equal.
    apply IH; [assumption| |]; rewrite length_drop; simpl in *; lia.
Qed.

Lemma chunks_pair {A} (x y : A) (rest : list A) :
  chunks 2 (x :: y :: rest) = [x; y] :: chunks 2 rest.
Proof.
  unfold chunks.
  change (chunks_fuel (length (x :: y :: rest)) 2 (x :: y :: rest))
    with ([x; y] :: chunks_fuel (S (length rest)) 2 rest).
  f_equal. apply chunks_fuel_irrelevant; lia.
Qed.

Lemma hill_blocks_pairs (a b c d : Z) : forall (h : nat) (l : list Z),
  length l = (2 * h)%nat ->
  hill_blocks [[a; b]; [c; d]] l = Ok (hill_pairs a b c d l).
Proof.
  assert (Hblocks : forall (h : nat) (l : list Z),
    length l = (2 * h)%nat ->
    exists bs,
      mapM (fun blk => block ← reshape_column 2 blk;
                       Ok ((fun v => v mod 26) <$> matvec [[a; b]; [c; d]] block))
           (chunks 2 l) = Ok bs /\
      concat bs = hill_pairs a b c d l).
  { induction h as [|h IH]; intros l Hlen.
    - destruct l; [|simpl in Hlen; lia]. exists []. split; reflexivity.
    - destruct l as [|x [|y rest]]; [simpl in Hlen; lia..|].
      destruct (IH rest) as (bs & Hbs & Hcat); [simpl in Hlen; lia|].
      exists ([(a * x + b * y) mod 26; (c * x + d * y) mod 26] :: bs). split.
      + rewrite chunks_pair. cbn [mapM].
        change (reshape_column 2 [x; y]) with (Ok [x; y]).
        rewrite Hbs. cbn.
        replace (a * x + (b * y + 0)) with (a * x + b * y) by lia.
        replace (c * x + (d * y + 0)) with (c * x + d * y) by lia.
        reflexivity.
      + cbn. now rewrite Hcat. }
  intros h l Hlen. destruct (Hblocks h l Hlen) as (bs & Hbs & Hcat).
  unfold hill_blocks. change (Z.of_nat (length [[a; b]; [c; d]])) with 2.
  change (blocks_of 2 l) with (Ok (chunks 2 l)).
  rewrite bind_Ok, Hbs. cbn. now rewrite Hcat.
Qed.

Lemma hill_pairs_positions (a b c d : Z) : forall (h : nat) (l : list Z),
  length l = (2 * h)%nat ->
  positions (hill_pairs a b c d l) /\ length (hill_pairs a b c d l) = (2 * h)%nat.
Proof.
  induction h as [|h IH]; intros l Hlen.
  - destruct l; [|simpl in Hlen; lia]. split; [constructor|reflexivity].
  - destruct l as [|x [|y rest]]; [simpl in Hlen; lia..|].
    destruct (IH rest) as [Hp Hl]; [simpl in Hlen; lia|].
    split.
    + repeat constructor; try (apply Z.mod_pos_bound; lia). exact Hp.
    + cbn. rewrite Hl. lia.
Qed.

Lemma mod26_linear (u v A B : Z) :
  (u * (A mod 26) + v * (B mod 26)) mod 26 = (u * A + v * B) mod 26.
Proof.
  rewrite Z.add_mod, (Z.mul_mod u (A mod 26)), (Z.mul_mod v (B mod 26)) by lia.
  rewrite !Z.mod_mod by lia.
  rewrite <- !Z.mul_mod, <- Z.add_mod by lia. reflexivity.
Qed.

(** The matrix [[15, 17], [20, 9]] undoes the key [[3, 3], [2, 5]] modulo 26. *)
Lemma hill_pairs_inverse : forall (h : nat) (l : list Z),
  length l = (2 * h)%nat -> positions l ->
  hill_pairs 15 17 20 9 (hill_pairs 3 3 2 5 l) = l.
Proof.
  induction h as [|h IH]; intros l Hlen Hpos.
  - destruct l; [reflexivity|simpl in Hlen; lia].
  - destruct l as [|x [|y rest]]; [simpl in Hlen; lia..|].
    apply Forall_cons in Hpos as [Hx Hpos]. apply Forall_cons in Hpos as [Hy Hpos].
    cbn [hill_pairs]. rewrite IH by (assumption || (simpl in Hlen; lia)).
    rewrite !mod26_linear.
    replace (15 * (3 * x + 3 * y) + 17 * (2 * x + 5 * y)) with (x + (3 * x + 5 * y) * 26) by ring.
    replace (20 * (3 * x + 3 * y) + 9 * (2 * x + 5 * y)) with (y + (3 * x + 4 * y) * 26) by ring.
    rewrite !Z_mod_plus_full, !Z.mod_small by lia. reflexivity.
Qed.

Lemma pad_loop_two (ns : list Z) : pad_loop 2 2 25 ns = pad_even ns.
Proof.
  unfold pad_even.
  destruct (Nat.Even_or_Odd (length ns)) as [[h Hh]|[h Hh]].
  - assert (He : Nat.even (length ns) = true) by (apply Nat.even_spec; now exists h).
    rewrite He. cbn [pad_loop].
    replace (Z.of_nat (length ns)) with (Z.of_nat h * 2) by lia.
    now rewrite Z_mod_mult.
  - assert (He : Nat.even (length ns) = false).
    { rewrite Hh, Nat.add_comm, Nat.even_add_mul_2. reflexivity. }
    rewrite He. cbn [pad_loop].
    replace (Z.of_nat (length ns)) with (1 + Z.of_nat h * 2) by lia.
    rewrite Z_mod_plus_full. change (1 mod 2 =? 0) with false. cbv iota.
    rewrite length_app. cbn [length].
    replace (Z.of_nat (length ns + 1)) with (Z.of_nat (S h) * 2) by lia.
    now rewrite Z_mod_mult.
Qed.

Lemma pad_even_length (ns : list Z) : exists h, length (pad_even ns) = (2 * h)%nat.
Proof.
  unfold pad_even.
  destruct (Nat.Even_or_Odd (length ns)) as [[h Hh]|[h Hh]].
  - assert (He : Nat.even (length ns) = true) by (apply Nat.even_spec; now exists h).
    rewrite He. now exists h.
  - assert (He : Nat.even (length ns) = false).
    { rewrite Hh, Nat.add_comm, Nat.even_add_mul_2. reflexivity. }
    rewrite He. exists (S h). rewrite length_app. simpl. lia.
Qed.

Lemma pad_even_positions (ns : list Z) : positions ns -> positions (pad_even ns).
Proof.
  intros Hns. unfold pad_even. destruct (Nat.even (length ns)); [assumption|].
  apply Forall_app. split; [assumption|]. repeat constructor; lia.
Qed.

Lemma hill_encrypt_positions (text : string) (ns : list Z) :
  positions ns -> upper text = str (letter <$> ns) ->
  hill_encrypt text key_matrix
    = Ok (str (letter <$> hill_pairs 3 3 2 5 (pad_even ns))).
Proof.
  intros Hns Hup. unfold hill_encrypt, key_matrix.
  rewrite Hup, chars_str, positions_letters_numbers by assumption.
  change (Z.of_nat (length [[3; 3]; [2; 5]])) with 2.
  change (2 =? 0) with false. cbv iota zeta.
  change (Z.abs_nat 2) with 2%nat. rewrite pad_loop_two.
  destruct (pad_even_length ns) as [h Hh].
  rewrite (hill_blocks_pairs 3 3 2 5 h) by assumption. rewrite bind_Ok.
  rewrite letters_of_positions by (apply (hill_pairs_positions 3 3 2 5 h); assumption).
  reflexivity.
Qed.

Lemma hill_decrypt_positions (cipher : string) (cs : list Z) (h : nat) :
  positions cs -> length cs = (2 * h)%nat -> upper cipher = str (letter <$> cs) ->
  hill_decrypt cipher key_matrix
    = Ok (str (letter <$> hill_pairs 15 17 20 9 cs)).
Proof.
  intros Hcs Hlen Hup. unfold hill_decrypt.
  rewrite Hup, chars_str, positions_letters_numbers by assumption.
  change (pow (det key_matrix) (-1) 26) with (Ok 3). cbv zeta. rewrite bind_Ok.
  change ((fun row : list Z => (fun a => (3 * a) mod 26) <$> row) <$> adjugate key_matrix)
    with [[15; 17]; [20; 9]].
  rewrite (hill_blocks_pairs 15 17 20 9 h) by assumption. rewrite bind_Ok.
  rewrite letters_of_positions by (apply (hill_pairs_positions 15 17 20 9 h); assumption).
  reflexivity.
Qed.

Lemma caesar_shift_back (shift n : Z) :
  0 <= n < 26 -> ((n + shift) mod 26 + - shift) mod 26 = n.
Proof.
  intros Hn. rewrite Zplus_mod_idemp_l.
  replace (n + shift + - shift) with n by lia. now apply Z.mod_small.
Qed.

(** C3, as the claim states it, fails.  "A B" with shift 1: the space is
    not filtered out, it goes through the Hill stage as the number -33 and
    comes back as a letter, so the result is "ASBY" and not "AB".  "A" with
    shift 1: the pad 'Z' is added after the Caesar stage and is shifted
    back with the rest, so the result is "AY" and not "AZ". *)
Lemma hybrid_round_trip_fails :
  (r ← hybrid_encrypt "A B" 1 key_matrix; hybrid_decrypt r.2 1 key_matrix)
    = Ok ("BTCZ", "ASBY") /\
  (r ← hybrid_encrypt "A" 1 key_matrix; hybrid_decrypt r.2 1 key_matrix)
    = Ok ("BZ", "AY").
Proof. split; vm_compute; reflexivity. Qed.

(** C3, amended: for the key [[3,3],[2,5]], every shift in 1..25 and every
    message made of ASCII letters only, decrypting the hybrid ciphertext
    gives the upper-cased message, followed, when the message has odd
    length, by one more letter: the pad 'Z' shifted back by the Caesar
    stage, that is the letter at position (25 - shift) mod 26. *)
Theorem hybrid_round_trip_on_letters (message : string) (shift : Z) :
  1 <= shift <= 25 ->
  Forall (fun c => isalpha c = true) (chars message) ->
  exists caesar_out hill_out hill_back,
    hybrid_encrypt message shift key_matrix = Ok (caesar_out, hill_out) /\
    hybrid_decrypt hill_out shift key_matrix
      = Ok (hill_back,
            (upper message
             ++ (if Nat.even (String.length message) then ""
                 else String (letter ((25 - shift) mod 26)) ""))%string).
Proof.
  intros Hshift Halpha.
  destruct (upper_alpha message Halpha) as (ns & Hns & Hlen & Hup).
  set (enc := fun n => (n + shift) mod 26).
  set (dec := fun n => (n + - shift) mod 26).
  assert (He : positions (enc <$> ns)).
  { unfold positions. apply Forall_fmap, Forall_true. intros n. cbn.
    apply Z.mod_pos_bound. lia. }
  pose proof (pad_even_positions _ He) as Hpe.
  destruct (pad_even_length (enc <$> ns)) as [h Hh].
  destruct (hill_pairs_positions 3 3 2 5 h _ Hh) as [Hcs Hcslen].
  exists (str (letter <$> (enc <$> ns))),
         (str (letter <$> hill_pairs 3 3 2 5 (pad_even (enc <$> ns)))),
         (str (letter <$> pad_even (enc <$> ns))).
  split.
  - unfold hybrid_encrypt.
    rewrite (caesar_encrypt_positions message ns shift Hns Hup), bind_Ok. fold enc.
    rewrite (hill_encrypt_positions _ (enc <$> ns) He (upper_letters _ He)), bind_Ok.
    reflexivity.
  - unfold hybrid_decrypt.
    rewrite (hill_decrypt_positions _ _ h Hcs Hcslen (upper_letters _ Hcs)), bind_Ok.
    rewrite (hill_pairs_inverse h _ Hh Hpe).
    unfold caesar_decrypt.
    rewrite (caesar_encrypt_positions _ _ (- shift) Hpe (upper_letters _ Hpe)), bind_Ok.
    f_equal. f_equal. fold dec.
    assert (Hback : dec <$> (enc <$> ns) = ns).
    { rewrite <- list_fmap_compose. rewrite <- (list_fmap_id ns) at 2.
      apply list_fmap_ext. intros i n Hn. cbn. unfold dec, enc.
      apply caesar_shift_back.
      unfold positions in Hns. rewrite list.Forall_forall in Hns.
      apply Hns. now apply list_elem_of_lookup_2 in Hn. }
    unfold pad_even. rewrite length_fmap, Hlen.
    destruct (Nat.even (String.length message)).
    + rewrite Hback, Hup. symmetry. apply append_empty_r.
    + rewrite !fmap_app, Hback, str_app, Hup. cbn. unfold dec.
      now rewrite Z.add_opp_r.
Qed.

Lemma hybrid_round_trip_on_letters_witness :
  exists caesar_out hill_out hill_back,
    hybrid_encrypt "Hello" 3 key_matrix = Ok (caesar_out, hill_out) /\
    hybrid_decrypt hill_out 3 key_matrix = Ok (hill_back, "HELLOW").
Proof.
  apply (hybrid_round_trip_on_letters "Hello" 3).
  - lia.
  - repeat constructor.
Defined.

End CaesarHillHybrid.

(** * Further properties

    Properties of the same programs beyond the statements above. *)

(** ** Poly-Hill cipher: key set-up *)

Section PolyHillKeys.
Import Py Np PHC.





End PolyHillKeys.

Section Pad.
Import Py Np PHC.


Lemma pad_loop_replicate (n pad : Z) : n <> 0 -> forall fuel numbers,
  (pad_count n (length numbers) <= fuel)%nat ->
  pad_loop fuel n pad numbers = numbers ++ replicate (pad_count n (length numbers)) pad.
Proof.
  intros Hn.
  assert (Hzero : forall L, L mod n = 0 <-> (- L) mod Z.abs n = 0).
  { intros L. rewrite !Z.mod_divide by lia. rewrite Z.divide_abs_l, Z.divide_opp_r. reflexivity. }
  assert (Hstep : forall L, (- L) mod Z.abs n <> 0 ->
            (- (L + 1)) mod Z.abs n = (- L) mod Z.abs n - 1).
  { intros L HL. assert (HN : 0 < Z.abs n) by lia.
    symmetry. apply Z.mod_unique_pos with (q := (- L) / Z.abs n).
    - pose proof (Z.mod_pos_bound (- L) (Z.abs n) HN). lia.
    - pose proof (Z.div_mod (- L) (Z.abs n) ltac:(lia)). lia. }
  induction fuel as [|fuel IH]; intros numbers Hf; cbn [pad_loop].
  - destruct (Z.eqb_spec (Z.of_nat (length numbers) mod n) 0) as [E|E].
    + apply Hzero in E. unfold pad_count. rewrite E. cbn. now rewrite app_nil_r.
    + unfold pad_count in Hf. rewrite Hzero in E.
      pose proof (Z.mod_pos_bound (- Z.of_nat (length numbers)) (Z.abs n) ltac:(lia)). lia.
  - destruct (Z.eqb_spec (Z.of_nat (length numbers) mod n) 0) as [E|E].
    + apply Hzero in E. unfold pad_count. rewrite E. cbn. now rewrite app_nil_r.
    + rewrite Hzero in E.
      pose proof (Z.mod_pos_bound (- Z.of_nat (length numbers)) (Z.abs n) ltac:(lia)) as Hb.
      assert (Hc : pad_count n (length (numbers ++ [pad]))
                   = (pad_count n (length numbers) - 1)%nat).
      { unfold pad_count. rewrite length_app. cbn [length].
        rewrite Nat2Z.inj_add. change (Z.of_nat 1) with 1.
        rewrite Hstep by assumption. lia. }
      rewrite IH by (rewrite Hc; lia). rewrite Hc.
      assert (Hs : exists k, pad_count n (length numbers) = S k).
      { unfold pad_count. exists (Z.to_nat ((- Z.of_nat (length numbers)) mod Z.abs n - 1)). lia. }
      destruct Hs as [k ->]. cbn. rewrite Nat.sub_0_r.
      now rewrite <- app_assoc.
Qed.

(** X2: for a non-zero block size, [_pad_text] appends 23 ('X') exactly
    [(- len) mod |n|] times: fewer than [|n|] values, none when the length is
    already a multiple of [n], and the padded length is a multiple of [n].
    With block size 0 it raises ZeroDivisionError. *)
Theorem pad_text_appends_fewest_X (self : PolyHillCipher) (numbers : list Z) :
  (n self <> 0 ->
     let k := pad_count (n self) (length numbers) in
     _pad_text self numbers = Ok (numbers ++ replicate k 23) /\
     Z.of_nat k < Z.abs (n self) /\
     Z.of_nat (length numbers + k) mod n self = 0 /\
     (Z.of_nat (length numbers) mod n self = 0 -> k = 0%nat)) /\
  (n self = 0 -> _pad_text self numbers = Raise ZeroDivisionError).
Proof.
  split.
  - intros Hn k. unfold _pad_text. destruct (Z.eqb_spec (n self) 0); [contradiction|].
    pose proof (Z.mod_pos_bound (- Z.of_nat (length numbers)) (Z.abs (n self)) ltac:(lia)) as Hb.
    split; [|split; [|split]].
    + f_equal. apply pad_loop_replicate; [assumption|]. unfold pad_count. lia.
    + unfold k, pad_count. lia.
    + unfold k, pad_count. rewrite Nat2Z.inj_add, Z2Nat.id by lia.
      apply Z.mod_divide; [assumption|].
      apply Z.divide_abs_l.
      apply Z.mod_divide; [lia|].
      rewrite Z.add_mod_idemp_r by lia.
      now replace (Z.of_nat (length numbers) + - Z.of_nat (length numbers)) with 0 by lia.
    + intros E. unfold k, pad_count.
      apply Z.mod_divide in E; [|assumption].
      apply Z.divide_abs_l, Z.divide_opp_r in E.
      apply Z.mod_divide in E; [|lia]. now rewrite E.
  - intros E. unfold _pad_text. now rewrite E.
Qed.

Lemma pad_text_appends_fewest_X_witness :
  _pad_text (__init__ 3 26) [7; 8; 9; 10] = Ok [7; 8; 9; 10; 23; 23].
Proof.
  apply (proj1 (proj1 (pad_text_appends_fewest_X (__init__ 3 26) [7; 8; 9; 10]) ltac:(discriminate))).
Defined.
End Pad.

Section Tables.
Import Py Np PHC.

Lemma range_S (k : nat) : range (Z.of_nat (S k)) = range (Z.of_nat k) ++ [Z.of_nat k].
Proof.
  unfold range. rewrite !Nat2Z.id, seq_S, fmap_app. reflexivity.
Qed.

Lemma poly_value_range (m : Z) (coeffs : list Z) (x : Z) :
  0 < m -> 0 <= poly_value m coeffs x < m.
Proof.
  intros Hm. unfold poly_value.
  generalize (imap (fun (i : nat) (c : Z) => (i, c)) coeffs). intros l.
  assert (H : forall acc, 0 <= acc < m ->
            0 <= fold_left (fun acc (ic : nat * Z) => (acc + ic.2 * x ^ Z.of_nat ic.1) mod m) l acc < m).
  { induction l as [|ic l IH]; intros acc Hacc; cbn [fold_left]; [exact Hacc|].
    apply IH. apply Z.mod_pos_bound. exact Hm. }
  apply H. lia.
Qed.

Lemma tables_fold (m : Z) (coeffs : list Z) (k : nat) :
  let t := fold_left (table_step m coeffs) (range (Z.of_nat k)) (∅, ∅) in
  (forall x, t.1 !! x = if decide (0 <= x < Z.of_nat k) then Some (poly_value m coeffs x) else None) /\
  (forall v, match t.2 !! v with
             | Some x => 0 <= x < Z.of_nat k /\ poly_value m coeffs x = v /\
                         forall x', x < x' < Z.of_nat k -> poly_value m coeffs x' <> v
             | None => forall x', 0 <= x' < Z.of_nat k -> poly_value m coeffs x' <> v
             end).
Proof.
  induction k as [|k IH]; cbn zeta.
  - change (range (Z.of_nat 0)) with (@nil Z). cbn [fold_left fst snd]. split.
    + intros x. rewrite lookup_empty. case_decide; [lia|reflexivity].
    + intros v. rewrite lookup_empty. intros x' Hx'. lia.
  - rewrite range_S, fold_left_app. cbn [fold_left].
    cbn zeta in IH. destruct IH as [IH1 IH2].
    set (t := fold_left (table_step m coeffs) (range (Z.of_nat k)) (∅, ∅)) in *.
    unfold table_step. cbn [fst snd]. split.
    + intros x. destruct (decide (x = Z.of_nat k)) as [->|Hne].
      * rewrite lookup_insert_eq. case_decide; [reflexivity|lia].
      * rewrite lookup_insert_ne by congruence. rewrite IH1.
        repeat case_decide; try reflexivity; lia.
    + intros v. destruct (decide (v = poly_value m coeffs (Z.of_nat k))) as [->|Hne].
      * rewrite lookup_insert_eq. split; [lia|]. split; [reflexivity|]. intros x' Hx'. lia.
      * rewrite lookup_insert_ne by congruence. specialize (IH2 v).
        destruct (t.2 !! v) as [x|].
        -- destruct IH2 as (Hx & HP & Hlast). split; [lia|]. split; [exact HP|].
           intros x' Hx'. destruct (decide (x' = Z.of_nat k)) as [->|]; [congruence|].
           apply Hlast. lia.
        -- intros x' Hx'. destruct (decide (x' = Z.of_nat k)) as [->|]; [congruence|].
           apply IH2. lia.
Qed.

Lemma build_lookup_tables_fold (self : PolyHillCipher) (coeffs : list Z) :
  polynomial_coeffs self = Some coeffs ->
  let t := fold_left (table_step (p self) coeffs) (range (p self)) (∅, ∅) in
  _build_lookup_tables self
  = ({| n := n self; p := p self; polynomial_coeffs := polynomial_coeffs self;
        hill_matrix := hill_matrix self; hill_matrix_inv := hill_matrix_inv self;
        poly_lookup := Some t.1; inverse_lookup := Some t.2 |}, Ok tt).
Proof. intros H. unfold _build_lookup_tables. rewrite H. reflexivity. Qed.

(** X3: after [_build_lookup_tables], for a positive modulus,
    [_polynomial_transform x] is P(x mod p) for every integer [x], and
    [_inverse_polynomial_transform y] is the greatest residue x with
    P(x) = y mod p, or 0 when no residue is mapped to y mod p. *)
Theorem lookup_tables_tabulate_polynomial (self : PolyHillCipher) (coeffs : list Z) :
  polynomial_coeffs self = Some coeffs -> 0 < p self ->
  let self' := (_build_lookup_tables self).1 in
  let P := poly_value (p self) coeffs in
  (_build_lookup_tables self).2 = Ok tt /\
  (forall x, _polynomial_transform self' x = Ok (P (x mod p self))) /\
  (forall y, exists x,
     _inverse_polynomial_transform self' y = Ok x /\
     ((0 <= x < p self /\ P x = y mod p self /\
       forall x', x < x' < p self -> P x' <> y mod p self) \/
      (x = 0 /\ forall x', 0 <= x' < p self -> P x' <> y mod p self))).
Proof.
  intros Hc Hp self' P. subst self'.
  rewrite (build_lookup_tables_fold self coeffs Hc). cbn [fst snd].
  pose proof (tables_fold (p self) coeffs (Z.to_nat (p self))) as Ht. cbn zeta in Ht.
  rewrite Z2Nat.id in Ht by lia. destruct Ht as [H1 H2].
  set (t := fold_left (table_step (p self) coeffs) (range (p self)) (∅, ∅)) in *.
  split; [reflexivity|]. split.
  - intros x. unfold _polynomial_transform, py_mod. cbn [PHC.p poly_lookup].
    destruct (Z.eqb_spec (p self) 0); [lia|]. unfold mbind, result_bind.
    rewrite H1. pose proof (Z.mod_pos_bound x (p self) Hp).
    case_decide; [reflexivity|lia].
  - intros y. unfold _inverse_polynomial_transform, py_mod. cbn [PHC.p inverse_lookup].
    destruct (Z.eqb_spec (p self) 0); [lia|]. unfold mbind, result_bind.
    specialize (H2 (y mod p self)).
    destruct (t.2 !! (y mod p self)) as [x|]; cbn [default].
    + exists x. split; [reflexivity|]. left. exact H2.
    + exists 0. split; [reflexivity|]. right. split; [reflexivity|exact H2].
Qed.

Lemma lookup_tables_tabulate_polynomial_witness :
  let self1 := {| n := 2; p := 26; polynomial_coeffs := Some [1; 2]; hill_matrix := None;
                  hill_matrix_inv := None; poly_lookup := None; inverse_lookup := None |} in
  _polynomial_transform (_build_lookup_tables self1).1 33 = Ok 15 /\
  exists x, _inverse_polynomial_transform (_build_lookup_tables self1).1 15 = Ok x /\
            ((0 <= x < 26 /\ poly_value 26 [1; 2] x = 15 mod 26 /\
              forall x', x < x' < 26 -> poly_value 26 [1; 2] x' <> 15 mod 26) \/
             (x = 0 /\ forall x', 0 <= x' < 26 -> poly_value 26 [1; 2] x' <> 15 mod 26)).
Proof.
  intros self1.
  destruct (lookup_tables_tabulate_polynomial self1 [1; 2] eq_refl eq_refl) as (_ & Hf & Hi).
  split; [exact (Hf 33)|exact (Hi 15)].
Defined.

(** X4: the inverse table undoes the forward table on every residue exactly
    when the polynomial is injective on the residues 0..p-1. *)
Theorem inverse_lookup_inverts_iff_injective (self : PolyHillCipher) (coeffs : list Z) :
  polynomial_coeffs self = Some coeffs -> 0 < p self ->
  let self' := (_build_lookup_tables self).1 in
  let P := poly_value (p self) coeffs in
  (forall x, 0 <= x < p self ->
     (y ← _polynomial_transform self' x; _inverse_polynomial_transform self' y) = Ok x)
  <-> (forall x x', 0 <= x < p self -> 0 <= x' < p self -> P x = P x' -> x = x').
Proof.
  intros Hc Hp self' P. subst self'.
  rewrite (build_lookup_tables_fold self coeffs Hc). cbn [fst snd].
  pose proof (tables_fold (p self) coeffs (Z.to_nat (p self))) as Ht. cbn zeta in Ht.
  rewrite Z2Nat.id in Ht by lia. destruct Ht as [H1 H2].
  set (t := fold_left (table_step (p self) coeffs) (range (p self)) (∅, ∅)) in *.
  assert (Hcomp : forall x, 0 <= x < p self ->
    (y ← _polynomial_transform
           {| n := n self; p := p self; polynomial_coeffs := polynomial_coeffs self;
              hill_matrix := hill_matrix self; hill_matrix_inv := hill_matrix_inv self;
              poly_lookup := Some t.1; inverse_lookup := Some t.2 |} x;
     _inverse_polynomial_transform
           {| n := n self; p := p self; polynomial_coeffs := polynomial_coeffs self;
              hill_matrix := hill_matrix self; hill_matrix_inv := hill_matrix_inv self;
              poly_lookup := Some t.1; inverse_lookup := Some t.2 |} y)
    = Ok (default 0 (t.2 !! P x))).
  { intros x Hx. unfold _polynomial_transform, _inverse_polynomial_transform, py_mod.
    cbn [PHC.p poly_lookup inverse_lookup].
    destruct (Z.eqb_spec (p self) 0); [lia|]. unfold mbind, result_bind.
    rewrite H1, Z.mod_small by assumption.
    case_decide; [|lia]. fold P.
    rewrite Z.mod_small by (apply poly_value_range; assumption). reflexivity. }
  split.
  - intros Hinv x x' Hx Hx' HP.
    pose proof (Hinv x Hx) as E. pose proof (Hinv x' Hx') as E'.
    rewrite Hcomp in E, E' by assumption. rewrite HP in E. congruence.
  - intros Hinj x Hx. rewrite Hcomp by assumption. f_equal.
    specialize (H2 (P x)). destruct (t.2 !! P x) as [x0|]; cbn [default].
    + destruct H2 as (Hx0 & HP & _). apply Hinj; assumption.
    + exfalso. apply (H2 x Hx). reflexivity.
Qed.

Lemma inverse_lookup_inverts_iff_injective_witness :
  let self1 := {| n := 2; p := 26; polynomial_coeffs := Some [1; 2; 13]; hill_matrix := None;
                  hill_matrix_inv := None; poly_lookup := None; inverse_lookup := None |} in
  Forall (fun x => (y ← _polynomial_transform (_build_lookup_tables self1).1 x;
                    _inverse_polynomial_transform (_build_lookup_tables self1).1 y) = Ok x)
         (range 26).
Proof.
  intros self1.
  assert (Hb : forallb (fun a => forallb (fun b =>
                  implb (poly_value 26 [1; 2; 13] a =? poly_value 26 [1; 2; 13] b) (a =? b))
                (range 26)) (range 26) = true) by (vm_compute; reflexivity).
  assert (Hin : forall x, 0 <= x < 26 -> In x (range 26)).
  { intros x Hx. unfold range. rewrite <- (Z2Nat.id x) by lia.
    apply in_map, in_seq. lia. }
  assert (Hrange : forall x, In x (range 26) -> 0 <= x < 26).
  { intros x Hx. unfold range in Hx. apply in_map_iff in Hx as (k & <- & Hk).
    apply in_seq in Hk. lia. }
  apply List.Forall_forall. intros x Hx.
  apply (proj2 (inverse_lookup_inverts_iff_injective self1 [1; 2; 13] eq_refl eq_refl));
    [|exact (Hrange x Hx)].
  intros a b Ha Hb' HP. change (p self1) with 26 in *.
  rewrite List.forallb_forall in Hb. specialize (Hb a (Hin a Ha)).
  rewrite List.forallb_forall in Hb. specialize (Hb b (Hin b Hb')).
  rewrite HP, Z.eqb_refl in Hb. cbn in Hb. now apply Z.eqb_eq.
Defined.
End Tables.

(** ** Poly-Hill cipher: text handling and ciphertext shape *)

Section ResultMore.
Import Py.
Context {A B : Type}.

Lemma mapM_Ok_Forall (f : A -> result B) (Q : B -> Prop) (l : list A) :
  (forall x, x ∈ l -> exists y, f x = Ok y /\ Q y) ->
  exists ys, mapM f l = Ok ys /\ length ys = length l /\ Forall Q ys.
Proof.
  induction l as [|x l IH]; intros H.
  - exists []. repeat split. constructor.
  - destruct (H x) as (y & Hy & HQ); [left|].
    destruct IH as (ys & Hys & Hlen & Hall); [intros z Hz; apply H; now right|].
    exists (y :: ys). cbn. rewrite Hy. cbn. rewrite Hys. cbn.
    repeat split; [now rewrite Hlen | now constructor].
Qed.

End ResultMore.

Section PolyHillText.
Import Py Np PHC.

Lemma cleaned_letters (text : string) :
  exists ns, Forall (fun n => 0 <= n < 26) ns /\
             upper_char <$> filter (fun c => isalpha c = true) (chars text) = CaesarHill.letter <$> ns /\
             _text_to_numbers text = ns.
Proof.
  unfold _text_to_numbers. induction (chars text) as [|c l (ns & Hns & Heq & Hnum)].
  - exists []. repeat split. constructor.
  - rewrite filter_cons. destruct (decide (isalpha c = true)) as [Hc|Hc].
    + destruct (upper_char_alpha c Hc) as (k & Hk & Hck).
      exists (k :: ns). split; [now constructor|]. cbn [fmap list_fmap]. split.
      * rewrite Hck. f_equal. exact Heq.
      * rewrite Hck. f_equal; [|exact Hnum]. rewrite ord_letter by assumption.
        change (ord "A") with 65. lia.
    + exists ns. auto.
Qed.

Lemma numbers_to_text_letters (self : PolyHillCipher) (ns : list Z) :
  0 < p self <= 26 -> Forall (fun n => 0 <= n < p self) ns ->
  _numbers_to_text self ns = Ok (str (CaesarHill.letter <$> ns)).
Proof.
  intros Hp Hns. unfold _numbers_to_text.
  rewrite (mapM_Ok_fmap _ CaesarHill.letter); [reflexivity|].
  intros k Hk. rewrite list.Forall_forall in Hns. specialize (Hns k Hk).
  unfold py_mod. destruct (Z.eqb_spec (p self) 0); [lia|].
  rewrite bind_Ok, Z.mod_small by assumption.
  change (ord "A") with 65. apply chr_letter. lia.
Qed.

(** X5: on ASCII text and with modulus 26, [_text_to_numbers] gives one
    number in 0..25 per letter, and [_numbers_to_text] turns them back into
    the upper-cased letters of the text. *)
Theorem text_numbers_round_trip (self : PolyHillCipher) (text : string) :
  p self = 26 -> isascii text = true ->
  Forall (fun k => 0 <= k < 26) (_text_to_numbers text) /\
  length (_text_to_numbers text) = length (filter (fun c => isalpha c = true) (chars text)) /\
  _numbers_to_text self (_text_to_numbers text) = Ok (cleaned text).
Proof.
  intros Hp _. destruct (cleaned_letters text) as (ns & Hns & Heq & Hnum).
  split; [now rewrite Hnum|]. split.
  - unfold _text_to_numbers. now rewrite !length_fmap.
  - rewrite Hnum, numbers_to_text_letters; [|lia|now rewrite Hp].
    unfold cleaned. now rewrite Heq.
Qed.

Lemma text_numbers_round_trip_witness :
  _numbers_to_text (__init__ 2 26) (_text_to_numbers "Hi, IoT!") = Ok "HIIOT".
Proof.
  apply (proj2 (proj2 (text_numbers_round_trip (__init__ 2 26) "Hi, IoT!" eq_refl eq_refl))).
Defined.

Lemma text_to_numbers_cleaned (text : string) :
  _text_to_numbers (cleaned text) = _text_to_numbers text.
Proof.
  destruct (cleaned_letters text) as (ns & Hns & Heq & Hnum).
  unfold cleaned. rewrite Heq, Hnum.
  unfold _text_to_numbers. rewrite chars_str.
  assert (Hf : filter (fun c => isalpha c = true) (CaesarHill.letter <$> ns) = CaesarHill.letter <$> ns).
  { clear Heq Hnum. induction Hns as [|k ns Hk _ IH]; [reflexivity|].
    cbn [fmap list_fmap]. rewrite filter_cons.
    rewrite decide_True by now apply isalpha_letter. now rewrite IH. }
  rewrite Hf. clear Heq Hnum Hf.
  induction Hns as [|k ns Hk _ IH]; [reflexivity|].
  cbn [fmap list_fmap]. rewrite upper_char_letter, ord_letter by assumption.
  change (ord "A") with 65. f_equal; [lia|exact IH].
Qed.

(** X6: on ASCII text, [encrypt] and [decrypt] see only the upper-cased
    letters of their argument: the text and its cleaned form give the same
    result (or the same error). *)
Theorem encrypt_ignores_case_and_non_letters (self : PolyHillCipher) (text : string) :
  isascii text = true ->
  encrypt self text = encrypt self (cleaned text) /\
  decrypt self text = decrypt self (cleaned text).
Proof.
  intros _. unfold encrypt, decrypt. now rewrite text_to_numbers_cleaned.
Qed.

Lemma encrypt_ignores_case_and_non_letters_witness :
  encrypt open_cipher.1 "Open, sesame!" = encrypt open_cipher.1 "OPENSESAME".
Proof.
  apply (proj1 (encrypt_ignores_case_and_non_letters open_cipher.1 "Open, sesame!" eq_refl)).
Defined.


Lemma drop_leading_head (c : ascii) (l : list ascii) :
  head (drop_leading c l) <> Some c.
Proof.
  induction l as [|x l IH]; cbn [drop_leading]; [discriminate|].
  destruct (Ascii.eqb_spec x c) as [->|Hne]; [exact IH|].
  cbn. congruence.
Qed.

Lemma rstrip_last (c : ascii) (s : string) : last (chars (rstrip c s)) <> Some c.
Proof.
  unfold rstrip. rewrite chars_str, last_reverse. apply drop_leading_head.
Qed.

(** X7: whatever [decrypt] returns never ends with 'X': all trailing X's are
    stripped, those of the padding and those of the plaintext alike. *)
Theorem decrypt_never_ends_with_X (self : PolyHillCipher) (ciphertext plaintext : string) :
  decrypt self ciphertext = Ok plaintext -> last (chars plaintext) <> Some "X"%char.
Proof.
  unfold decrypt. intros H.
  destruct (hill_matrix_inv self) as [Hinv|]; [|discriminate].
  destruct (blocks_of _ _) as [blocks|]; [|discriminate]. rewrite bind_Ok in H.
  destruct (mapM _ _) as [decrypted|]; [|discriminate]. rewrite bind_Ok in H.
  destruct (_numbers_to_text _ _) as [text|]; [|discriminate]. rewrite bind_Ok in H.
  injection H as <-. apply rstrip_last.
Qed.

Lemma decrypt_never_ends_with_X_witness :
  decrypt open_cipher.1 "NEKB" = Ok "OPAP" /\ last (chars "OPAP") <> Some "X"%char.
Proof.
  assert (H : decrypt open_cipher.1 "NEKB" = Ok "OPAP") by (vm_compute; reflexivity).
  split; [exact H|]. exact (decrypt_never_ends_with_X open_cipher.1 "NEKB" "OPAP" H).
Defined.


Lemma chunks_aligned {A} (k : nat) (l : list A) :
  (0 < k)%nat -> (length l mod k = 0)%nat ->
  Forall (fun b => length b = k) (chunks k l) /\ concat (chunks k l) = l.
Proof.
  intros Hk Hmod. split.
  - apply chunks_fuel_lengths; auto.
  - apply concat_chunks_fuel; auto.
Qed.

Lemma matvec_length (m : matrix) (v : list Z) : length (matvec m v) = length m.
Proof. unfold matvec. apply length_fmap. Qed.

Lemma obfuscate_block_range (self : PolyHillCipher) (i : nat) (vs : list Z) :
  0 < p self ->
  length (obfuscate_block self i vs) = length vs /\
  Forall (fun v => 0 <= v < p self) (obfuscate_block self i vs).
Proof.
  intros Hp. unfold obfuscate_block. split; [apply length_imap|].
  apply list.Forall_forall. intros v Hv.
  apply list_elem_of_lookup_1 in Hv as [j Hj].
  rewrite list_lookup_imap in Hj.
  destruct (vs !! j) as [w|]; [|discriminate]. injection Hj as <-.
  apply Z.mod_pos_bound. exact Hp.
Qed.

Lemma encrypt_block_keyed (self : PolyHillCipher) (H : matrix) (i : nat) (block : list Z) :
  keyed self -> hill_matrix self = Some H -> Z.of_nat (length block) = n self ->
  exists out, encrypt_block self H i block = Ok out /\
              (Z.of_nat (length out) = n self /\ Forall (fun v => 0 <= v < p self) out).
Proof.
  intros (Hn & Hp & _ & _ & (H' & HH & Hsq & _) & (t & Ht & Hdom)) HH' Hlen.
  rewrite HH' in HH. injection HH as <-.
  unfold encrypt_block.
  destruct (mapM_Ok_Forall (_polynomial_transform self) (fun _ => True) block)
    as (poly_block & Hpoly & Hpl & _).
  { intros x _. unfold _polynomial_transform, py_mod.
    destruct (Z.eqb_spec (p self) 0); [lia|]. rewrite bind_Ok, Ht.
    destruct (Hdom (x mod p self)) as (v & Hv & _); [apply Z.mod_pos_bound; lia|].
    rewrite Hv. eauto. }
  rewrite Hpoly, bind_Ok. unfold reshape_column.
  rewrite Hpl, Hlen, Z.eqb_refl, bind_Ok.
  eexists. split; [reflexivity|].
  destruct (obfuscate_block_range self i
              ((fun v => v mod p self) <$> matvec H poly_block) Hp) as [Hl Hr].
  split; [|exact Hr].
  rewrite Hl, length_fmap, matvec_length.
  unfold is_square in Hsq. apply andb_prop in Hsq as [Hrows _].
  now apply Z.eqb_eq in Hrows.
Qed.

(** X8: on a keyed cipher (matrix entries and table values are residues,
    modulus at most 26, products within 31 bits) and ASCII text, [encrypt]
    returns a ciphertext: it consists of letters A..Z only and its length is
    the number of letters of the text rounded up to a multiple of the block
    size. *)
Theorem ciphertext_length_and_alphabet (self : PolyHillCipher) (text : string) :
  keyed self -> p self <= 26 -> isascii text = true ->
  let letters := length (filter (fun c => isalpha c = true) (chars text)) in
  exists ciphertext,
    encrypt self text = Ok ciphertext /\
    String.length ciphertext = (letters + pad_count (n self) letters)%nat /\
    Forall (fun c => is_upper c = true) (chars ciphertext).
Proof.
  intros Hkeyed Hp26 _ letters.
  pose proof Hkeyed as (Hn & Hp & _ & (coeffs & Hc) & (H & HH & Hsq & _) & _).
  unfold encrypt. rewrite Hc, HH.
  assert (Hnum : length (_text_to_numbers text) = letters).
  { unfold _text_to_numbers. now rewrite !length_fmap. }
  set (numbers := _text_to_numbers text) in *.
  set (k := pad_count (n self) letters).
  assert (Hpad : _pad_text self numbers = Ok (numbers ++ replicate k 23)).
  { unfold _pad_text. destruct (Z.eqb_spec (n self) 0); [lia|]. f_equal.
    unfold k. rewrite <- Hnum. apply pad_loop_replicate; [lia|].
    unfold pad_count.
    pose proof (Z.mod_pos_bound (- Z.of_nat (length numbers)) (Z.abs (n self)) ltac:(lia)). lia. }
  rewrite Hpad, bind_Ok.
  set (padded := numbers ++ replicate k 23).
  assert (Hplen : length padded = (letters + k)%nat).
  { unfold padded. now rewrite length_app, length_replicate, Hnum. }
  assert (Hmod : (length padded mod Z.to_nat (n self) = 0)%nat).
  { rewrite Hplen. unfold k, pad_count. rewrite Z.abs_eq by lia.
    apply Nat2Z.inj. rewrite Nat2Z.inj_mod, Z2Nat.id, Nat2Z.inj_add, Z2Nat.id by
      (try apply Z.mod_pos_bound; lia).
    rewrite Z.add_mod_idemp_r by lia.
    now replace (Z.of_nat letters + - Z.of_nat letters) with 0 by lia. }
  unfold blocks_of. destruct (Z.eqb_spec (n self) 0); [lia|].
  destruct (Z.ltb_spec (n self) 0); [lia|]. rewrite bind_Ok.
  destruct (chunks_aligned (Z.to_nat (n self)) padded ltac:(lia) Hmod) as [Hblocks Hcat].
  set (blocks := chunks (Z.to_nat (n self)) padded) in *.
  destruct (mapM_Ok_Forall (fun ib : nat * list Z => encrypt_block self H ib.1 ib.2)
              (fun out => Z.of_nat (length out) = n self /\
                          Forall (fun v => 0 <= v < p self) out)
              (imap (fun i b => (i, b)) blocks)) as (enc & Henc & Hel & Hall).
  { intros [i b] Hib. apply list_elem_of_lookup_1 in Hib as [j Hj].
    rewrite list_lookup_imap in Hj.
    destruct (blocks !! j) as [b'|] eqn:Hb; [|discriminate]. injection Hj as <- <-.
    apply encrypt_block_keyed; [assumption..|]. cbn [fst snd].
    rewrite list.Forall_forall in Hblocks.
    rewrite (Hblocks b') by (eapply list_elem_of_lookup_2; eassumption). lia. }
  rewrite Henc, bind_Ok.
  assert (Hrange : Forall (fun v => 0 <= v < p self) (concat enc)).
  { apply Forall_concat. eapply Forall_impl; [exact Hall|]. now intros out [_ ?]. }
  rewrite numbers_to_text_letters by (assumption || lia).
  eexists. split; [reflexivity|]. split.
  - rewrite <- chars_length, chars_str, length_fmap.
    rewrite (concat_length_uniform (Z.to_nat (n self))).
    + rewrite Hel, length_imap.
      rewrite <- (concat_length_uniform _ _ Hblocks), Hcat. exact Hplen.
    + eapply Forall_impl; [exact Hall|]. intros out [Hout _]. cbn beta in *. now rewrite <- Hout, Nat2Z.id.
  - rewrite chars_str. apply Forall_fmap.
    eapply Forall_impl; [exact Hrange|]. intros v Hv. cbn beta in *.
    apply is_upper_letter. lia.
Qed.

Lemma worked_example_keyed : keyed worked_example.1.
Proof.
  assert (Hdom : forallb (fun k => match poly_lookup worked_example.1 with
                                   | Some t => match t !! k with
                                               | Some v => (0 <=? v) && (v <? 26)
                                               | None => false
                                               end
                                   | None => false
                                   end) (range 26) = true) by (vm_compute; reflexivity).
  split; [reflexivity|]. split; [reflexivity|]. split; [reflexivity|].
  split; [eexists; reflexivity|]. split.
  - eexists. split; [reflexivity|]. split; [reflexivity|].
    change (p worked_example.1) with 26. repeat constructor; lia.
  - destruct (poly_lookup worked_example.1) as [t|] eqn:Ht; [|discriminate].
    exists t. split; [reflexivity|]. intros k Hk. change (p worked_example.1) with 26 in *.
    rewrite List.forallb_forall in Hdom.
    assert (Hin : In k (range 26)).
    { unfold range. rewrite <- (Z2Nat.id k) by lia. apply in_map, in_seq. lia. }
    specialize (Hdom k Hin). destruct (t !! k) as [v|]; [|discriminate].
    exists v. split; [reflexivity|]. apply andb_prop in Hdom as [H1 H2]. lia.
Defined.

Lemma ciphertext_length_and_alphabet_witness :
  exists ciphertext,
    encrypt worked_example.1 "Hello" = Ok ciphertext /\
    String.length ciphertext = 6%nat /\
    Forall (fun c => is_upper c = true) (chars ciphertext).
Proof.
  apply (ciphertext_length_and_alphabet worked_example.1 "Hello" worked_example_keyed);
    [vm_compute; discriminate | reflexivity].
Defined.

End PolyHillText.

Section PolyHillObfuscation.
Import Py Np PHC.

Lemma lxor_cancel (v m : Z) : Z.lxor (Z.lxor v m) m = v.
Proof. now rewrite Z.lxor_assoc, Z.lxor_nilpotent, Z.lxor_0_r. Qed.

Lemma lxor_below_pow2 (a b k : Z) :
  0 <= k -> 0 <= a < 2 ^ k -> 0 <= b < 2 ^ k -> 0 <= Z.lxor a b < 2 ^ k.
Proof.
  intros Hk Ha Hb.
  assert (Hnn : 0 <= Z.lxor a b) by (apply Z.lxor_nonneg; lia).
  split; [exact Hnn|].
  destruct (Z.eq_dec (Z.lxor a b) 0) as [->|Hne]; [lia|].
  apply Z.log2_lt_pow2; [lia|].
  pose proof (Z.log2_lxor a b ltac:(lia) ltac:(lia)) as Hl.
  assert (Hk0 : 0 < k).
  { destruct (Z.eq_dec k 0) as [->|]; [|lia]. exfalso.
    change (2 ^ 0) with 1 in *. assert (a = 0) by lia. assert (b = 0) by lia.
    subst. now apply Hne. }
  assert (Hlog : forall c, 0 <= c < 2 ^ k -> Z.log2 c < k).
  { intros c Hc. destruct (Z.eq_dec c 0) as [->|]; [exact Hk0|apply Z.log2_lt_pow2; lia]. }
  pose proof (Hlog a Ha). pose proof (Hlog b Hb).
  lia.
Qed.

(** X9: the XOR step of [decrypt] undoes the XOR step of [encrypt] on a block
    of residues whenever every masked value stays below the modulus; this is
    always so when the modulus is a power of two. *)
Theorem obfuscation_inverts_below_modulus (self : PolyHillCipher) (block_index : nat)
    (hill_result : list Z) :
  0 < p self ->
  Forall (fun v => 0 <= v < p self) hill_result ->
  ((forall j v, hill_result !! j = Some v ->
      Z.lxor v ((Z.of_nat block_index + Z.of_nat j) mod p self) < p self) ->
   deobfuscate_block self block_index (obfuscate_block self block_index hill_result)
     = Ok hill_result) /\
  ((exists k, 0 <= k /\ p self = 2 ^ k) ->
   deobfuscate_block self block_index (obfuscate_block self block_index hill_result)
     = Ok hill_result).
Proof.
  intros Hp Hrange.
  assert (Hmain : (forall j v, hill_result !! j = Some v ->
      Z.lxor v ((Z.of_nat block_index + Z.of_nat j) mod p self) < p self) ->
   deobfuscate_block self block_index (obfuscate_block self block_index hill_result)
     = Ok hill_result).
  { intros Hsmall. unfold deobfuscate_block.
    rewrite (mapM_Ok_fmap _ (fun jv : nat * Z =>
               Z.lxor jv.2 ((Z.of_nat block_index + Z.of_nat jv.1) mod p self) mod p self)).
    - f_equal. apply list_eq. intros j.
      rewrite list_lookup_fmap, list_lookup_imap. unfold obfuscate_block.
      rewrite list_lookup_imap.
      destruct (hill_result !! j) as [v|] eqn:Hv; [|reflexivity]. cbn.
      f_equal.
      assert (Hv' : 0 <= v < p self).
      { rewrite list.Forall_forall in Hrange. apply Hrange.
        eapply list_elem_of_lookup_2. exact Hv. }
      pose proof (Z.mod_pos_bound (Z.of_nat block_index + Z.of_nat j) (p self) Hp) as Hm.
      assert (Hnn : 0 <= Z.lxor v ((Z.of_nat block_index + Z.of_nat j) mod p self))
        by (apply Z.lxor_nonneg; lia).
      rewrite (Z.mod_small (Z.lxor v _)) by (split; [exact Hnn|now apply Hsmall]).
      rewrite lxor_cancel. now apply Z.mod_small.
    - intros [j v] _. unfold py_mod. destruct (Z.eqb_spec (p self) 0); [lia|]. reflexivity. }
  split; [exact Hmain|].
  intros (k & Hk & Hpk). apply Hmain. intros j v Hv. rewrite Hpk.
  apply lxor_below_pow2; [assumption| |].
  - rewrite <- Hpk. rewrite list.Forall_forall in Hrange. apply Hrange.
    eapply list_elem_of_lookup_2. exact Hv.
  - apply Z.mod_pos_bound. lia.
Qed.

Lemma obfuscation_inverts_below_modulus_witness :
  deobfuscate_block open_cipher.1 1 (obfuscate_block open_cipher.1 1 [11; 3]) = Ok [11; 3] /\
  deobfuscate_block (__init__ 2 32) 1 (obfuscate_block (__init__ 2 32) 1 [11; 25]) = Ok [11; 25].
Proof.
  split.
  - refine (proj1 (obfuscation_inverts_below_modulus open_cipher.1 1 [11; 3] _ _) _).
    + reflexivity.
    + repeat (constructor; [change (p open_cipher.1) with 26; lia|]). constructor.
    + intros [|[|j]] v Hv; cbn in Hv; try discriminate; injection Hv as <-; reflexivity.
  - refine (proj2 (obfuscation_inverts_below_modulus (__init__ 2 32) 1 [11; 25] _ _) _).
    + reflexivity.
    + repeat (constructor; [change (p (__init__ 2 32)) with 32; lia|]). constructor.
    + exists 5. split; [lia|reflexivity].
Defined.

End PolyHillObfuscation.

Section PolyHillStream.
Import Py Np PHC.

Lemma chunks_single {A} (k : nat) (l : list A) :
  (0 < length l <= k)%nat -> chunks k l = [l].
Proof.
  intros Hl. unfold chunks. destruct l as [|x l]; [cbn in Hl; lia|].
  cbn [length chunks_fuel] in *. rewrite take_ge, drop_ge by (cbn [length]; lia).
  destruct (length l); reflexivity.
Qed.

(** X10: [encrypt_stream] returns "" on an empty stream for every non-zero
    chunk size, also on a cipher without keys; it raises ValueError for chunk
    size 0; for a negative chunk size it returns "" whatever the stream; and
    on a non-empty stream that fits in one chunk it is [encrypt]. *)
Theorem encrypt_stream_edge_cases (self : PolyHillCipher) (text : string) (chunk_size : Z) :
  (chunk_size <> 0 -> encrypt_stream self "" chunk_size = Ok "") /\
  (chunk_size = 0 ->
     encrypt_stream self text chunk_size = Raise (ValueError "range() arg 3 must not be zero")) /\
  (chunk_size < 0 -> encrypt_stream self text chunk_size = Ok "") /\
  (0 < Z.of_nat (String.length text) <= chunk_size ->
     encrypt_stream self text chunk_size = encrypt self text).
Proof.
  unfold encrypt_stream, blocks_of. split; [|split; [|split]].
  - intros Hc. destruct (Z.eqb_spec chunk_size 0); [contradiction|].
    destruct (chunk_size <? 0); reflexivity.
  - intros ->. reflexivity.
  - intros Hc. destruct (Z.eqb_spec chunk_size 0); [lia|].
    destruct (Z.ltb_spec chunk_size 0); [reflexivity|lia].
  - intros Hl. destruct (Z.eqb_spec chunk_size 0); [lia|].
    destruct (Z.ltb_spec chunk_size 0); [lia|]. rewrite bind_Ok.
    rewrite chunks_single by (rewrite chars_length; lia).
    cbn [fold_left]. rewrite bind_Ok, str_chars.
    destruct (encrypt self text); reflexivity.
Qed.

Lemma encrypt_stream_edge_cases_witness :
  encrypt_stream (__init__ 2 26) "" 64 = Ok "" /\
  encrypt_stream open_cipher.1 "OPEN" (-1) = Ok "" /\
  encrypt_stream open_cipher.1 "OPEN" 64 = encrypt open_cipher.1 "OPEN".
Proof.
  split; [|split].
  - apply (proj1 (encrypt_stream_edge_cases (__init__ 2 26) "" 64)). discriminate.
  - apply (proj1 (proj2 (proj2 (encrypt_stream_edge_cases open_cipher.1 "OPEN" (-1))))). reflexivity.
  - apply (proj2 (proj2 (proj2 (encrypt_stream_edge_cases open_cipher.1 "OPEN" 64)))).
    cbn. lia.
Defined.

End PolyHillStream.

Section PolyHillFailedSetKeys.
Import Py Np PHC.

Lemma chunks_cons {A} (k : nat) (x : A) (l : list A) :
  exists rest, chunks k (x :: l) = take k (x :: l) :: rest.
Proof. unfold chunks. cbn [length chunks_fuel]. eauto. Qed.

Lemma encrypt_block_without_tables (self : PolyHillCipher) (H : matrix) (i : nat)
    (x : Z) (t : list Z) :
  p self <> 0 -> poly_lookup self = None -> encrypt_block self H i (x :: t) = Raise TypeError.
Proof.
  intros Hp Hl.
  assert (Hx : _polynomial_transform self x = Raise TypeError).
  { unfold _polynomial_transform, py_mod.
    destruct (Z.eqb_spec (p self) 0); [contradiction|]. now rewrite Hl. }
  unfold encrypt_block. cbn [mapM]. rewrite Hx. reflexivity.
Qed.

(** X11: whatever [_matrix_inverse] computes, when it makes [set_keys]
    raise on a fresh cipher and a rectangular matrix, the coefficients and
    the matrix have been stored but neither the inverse matrix nor the
    tables: [decrypt] then raises "Keys not generated", while [encrypt]
    passes its guard and raises TypeError on any text with a letter
    (positive block size, non-zero modulus). *)
Theorem failed_set_keys_leaves_cipher_half_keyed
    (matrix_inverse : PolyHillCipher -> matrix -> result matrix)
    (block_size modulus : Z) (coeffs : list Z) (m : matrix) (e : exn) (text : string) :
  rectangular m ->
  (set_keys_with matrix_inverse (__init__ block_size modulus) coeffs m).2 = Raise e ->
  let self := (set_keys_with matrix_inverse (__init__ block_size modulus) coeffs m).1 in
  polynomial_coeffs self = Some coeffs /\ hill_matrix self = Some m /\
  hill_matrix_inv self = None /\ poly_lookup self = None /\
  decrypt self text = Raise keys_not_generated /\
  (0 < block_size -> modulus <> 0 -> _text_to_numbers text <> [] ->
   encrypt self text = Raise TypeError).
Proof.
  intros _. unfold set_keys_with.
  cbn [n p polynomial_coeffs hill_matrix hill_matrix_inv poly_lookup inverse_lookup __init__].
  destruct (matrix_inverse _ m) as [inv|e'] eqn:Hinv.
  - unfold _build_lookup_tables. cbn [polynomial_coeffs snd]. discriminate.
  - intros _. cbn [fst]. repeat (split; [reflexivity|]).
    intros Hn Hp Hnum. unfold encrypt.
    cbn [n p polynomial_coeffs hill_matrix].
    unfold _pad_text. cbn [n]. destruct (Z.eqb_spec block_size 0); [lia|]. rewrite bind_Ok.
    unfold blocks_of. destruct (Z.eqb_spec block_size 0); [lia|].
    destruct (Z.ltb_spec block_size 0); [lia|]. rewrite bind_Ok.
    set (padded := pad_loop _ _ _ _).
    assert (Hpadded : exists x rest, padded = x :: rest).
    { unfold padded. rewrite pad_loop_replicate; [|lia|].
      - destruct (_text_to_numbers text) as [|x l]; [contradiction|]. cbn. eauto.
      - unfold pad_count.
        pose proof (Z.mod_pos_bound (- Z.of_nat (length (_text_to_numbers text)))
                      (Z.abs block_size) ltac:(lia)). lia. }
    destruct Hpadded as (x & rest & ->).
    destruct (chunks_cons (Z.to_nat block_size) x rest) as [bs ->].
    assert (Htake : exists t, take (Z.to_nat block_size) (x :: rest) = x :: t).
    { destruct (Z.to_nat block_size) as [|k] eqn:Hk; [lia|]. cbn. eauto. }
    destruct Htake as [t ->].
    cbn [imap mapM fst snd].
    rewrite encrypt_block_without_tables by (cbn; assumption || reflexivity).
    reflexivity.
Qed.

Lemma failed_set_keys_leaves_cipher_half_keyed_witness :
  let self := (set_keys_with _matrix_inverse (__init__ 2 26) [1; 2] [[2; 4]; [1; 2]]).1 in
  set_keys (__init__ 2 26) [1; 2] [[2; 4]; [1; 2]]
    = set_keys_with _matrix_inverse (__init__ 2 26) [1; 2] [[2; 4]; [1; 2]] /\
  decrypt self "HI" = Raise keys_not_generated /\ encrypt self "HI" = Raise TypeError.
Proof.
  intros self.
  assert (Hrect : rectangular [[2; 4]; [1; 2]]) by (exists 2%nat; repeat constructor).
  pose proof (failed_set_keys_leaves_cipher_half_keyed _matrix_inverse 2 26 [1; 2]
                [[2; 4]; [1; 2]] (ValueError "Modular inverse does not exist") "HI"
                Hrect eq_refl)
    as (_ & _ & _ & _ & Hd & He).
  split; [reflexivity|]. split; [exact Hd|]. apply He; [lia|discriminate|discriminate].
Defined.

End PolyHillFailedSetKeys.

(** ** Poly-Hill security utilities *)

Section SecurityUtilsGcd.
Import Py PHCSecurityUtils.

Lemma gcd_loop_pos : forall fuel a b,
  0 <= a -> 0 <= b -> (Z.to_nat b < fuel)%nat -> gcd_loop fuel a b = Z.gcd a b.
Proof.
  induction fuel as [|fuel IH]; intros a b Ha Hb Hf; [lia|].
  cbn [gcd_loop]. destruct (Z.eqb_spec b 0) as [->|Hne].
  - rewrite Z.gcd_0_r. lia.
  - pose proof (Z.mod_pos_bound a b ltac:(lia)).
    rewrite IH by lia. rewrite Z.gcd_comm, Z.gcd_mod by assumption. apply Z.gcd_comm.
Qed.

Lemma gcd_loop_neg : forall fuel a b,
  a <= 0 -> b <= 0 -> (Z.to_nat (- b) < fuel)%nat -> gcd_loop fuel a b = - Z.gcd a b.
Proof.
  induction fuel as [|fuel IH]; intros a b Ha Hb Hf; [lia|].
  cbn [gcd_loop]. destruct (Z.eqb_spec b 0) as [->|Hne].
  - rewrite Z.gcd_0_r. lia.
  - pose proof (Z.mod_neg_bound a b ltac:(lia)).
    rewrite IH by lia. rewrite Z.gcd_comm, Z.gcd_mod by assumption. now rewrite Z.gcd_comm.
Qed.

Lemma gcd_positive_modulus (a b : Z) : 0 < b -> gcd a b = Z.gcd a b.
Proof.
  intros Hb. unfold gcd. cbn [gcd_loop]. destruct (Z.eqb_spec b 0); [lia|].
  pose proof (Z.mod_pos_bound a b Hb).
  rewrite gcd_loop_pos by lia. rewrite Z.gcd_comm, Z.gcd_mod by lia. apply Z.gcd_comm.
Qed.

(** X12: [PHCSecurityUtils.gcd a b] is the greatest common divisor when
    [b] is positive, its opposite when [b] is negative, and [a] itself when
    [b] is 0. *)
Theorem gcd_is_euclid (a b : Z) :
  (0 < b -> gcd a b = Z.gcd a b) /\
  (b < 0 -> gcd a b = - Z.gcd a b) /\
  (b = 0 -> gcd a b = a).
Proof.
  split; [apply gcd_positive_modulus|]. unfold gcd. split.
  - intros Hb. cbn [gcd_loop]. destruct (Z.eqb_spec b 0); [lia|].
    pose proof (Z.mod_neg_bound a b Hb).
    rewrite gcd_loop_neg by lia. rewrite Z.gcd_comm, Z.gcd_mod by lia. now rewrite Z.gcd_comm.
  - intros ->. reflexivity.
Qed.

Lemma gcd_is_euclid_witness :
  gcd 12 18 = Z.gcd 12 18 /\ gcd 3 (-4) = - Z.gcd 3 (-4).
Proof.
  split.
  - apply (proj1 (gcd_is_euclid 12 18)). lia.
  - apply (proj1 (proj2 (gcd_is_euclid 3 (-4)))). lia.
Defined.

(** X13: [gcd_list] raises IndexError on an empty list; on a non-empty list
    of positive integers it returns their greatest common divisor: a positive
    number that divides every element and is divisible by every common
    divisor. *)
Theorem gcd_list_divides_all (numbers : list Z) :
  (numbers = [] -> gcd_list numbers = Raise IndexError) /\
  (Forall (fun k => 0 < k) numbers -> numbers <> [] ->
   exists g, gcd_list numbers = Ok g /\ 0 < g /\
             Forall (fun k => (g | k)) numbers /\
             forall d, Forall (fun k => (d | k)) numbers -> (d | g)).
Proof.
  split; [intros ->; reflexivity|].
  intros Hpos Hne. destruct numbers as [|first rest]; [contradiction|].
  apply Forall_cons in Hpos as [Hfirst Hrest]. cbn [gcd_list].
  eexists. split; [reflexivity|]. clear Hne.
  revert first Hfirst. induction Hrest as [|k rest Hk _ IH]; intros first Hfirst.
  - cbn. split; [exact Hfirst|]. split; [repeat constructor; apply Z.divide_refl|].
    intros d Hd. now apply Forall_cons in Hd as [Hd _].
  - cbn [fold_left].
    rewrite (gcd_positive_modulus first k Hk).
    assert (Hgpos : 0 < Z.gcd first k).
    { pose proof (Z.gcd_nonneg first k).
      assert (Z.gcd first k <> 0) by (intros E; apply Z.gcd_eq_0_l in E; lia). lia. }
    destruct (IH (Z.gcd first k) Hgpos) as (Hp & Hall & Hgreatest).
    split; [exact Hp|]. apply Forall_cons in Hall as [Hd Hall]. split.
    + repeat constructor.
      * eapply Z.divide_trans; [exact Hd|apply Z.gcd_divide_l].
      * eapply Z.divide_trans; [exact Hd|apply Z.gcd_divide_r].
      * exact Hall.
    + intros d Hdall. apply Forall_cons in Hdall as [Hd1 Hdall].
      apply Forall_cons in Hdall as [Hd2 Hdall].
      apply Hgreatest. constructor; [|exact Hdall].
      now apply Z.gcd_greatest.
Qed.

Lemma gcd_list_divides_all_witness :
  exists g, gcd_list [12; 18; 30] = Ok g /\ 0 < g /\
            Forall (fun k => (g | k)) [12; 18; 30] /\
            forall d, Forall (fun k => (d | k)) [12; 18; 30] -> (d | g).
Proof.
  apply (proj2 (gcd_list_divides_all [12; 18; 30])); [repeat constructor|discriminate].
Defined.

End SecurityUtilsGcd.

(** ** Caesar and Hill stages *)

Section CaesarShift.
Import Py Np CaesarHill.

Lemma caesar_encrypt_chars (text : string) (shift : Z) :
  caesar_encrypt text shift = Ok (str (caesar_char shift <$> chars (upper text))).
Proof.
  unfold caesar_encrypt. rewrite (mapM_Ok_fmap _ (caesar_char shift)); [reflexivity|].
  intros c _. unfold caesar_char. destruct (isalpha c); [|reflexivity].
  apply chr_letter. apply Z.mod_pos_bound. lia.
Qed.

Lemma upper_char_not_lower (c : ascii) : is_lower (upper_char c) = false.
Proof.
  unfold upper_char. destruct (is_lower c) eqn:Hl; [|exact Hl].
  unfold is_lower in Hl. apply andb_prop in Hl as [H1 H2]. apply Z.leb_le in H1, H2.
  unfold is_lower. rewrite ord_ascii_of_N by lia.
  apply andb_false_intro1. apply Z.leb_gt. lia.
Qed.

Lemma upper_char_idemp (c : ascii) : upper_char (upper_char c) = upper_char c.
Proof. unfold upper_char at 1. now rewrite upper_char_not_lower. Qed.

(** An upper-cased character that is a letter is one of A..Z. *)
Lemma upper_char_position (c : ascii) :
  isalpha (upper_char c) = true ->
  0 <= ord (upper_char c) - 65 < 26 /\ upper_char c = letter (ord (upper_char c) - 65).
Proof.
  intros Ha. split; [|symmetry; apply letter_ord].
  unfold isalpha in Ha. rewrite upper_char_not_lower in Ha. cbn in Ha.
  unfold is_upper in Ha. apply andb_prop in Ha as [H1 H2]. apply Z.leb_le in H1, H2. lia.
Qed.

Lemma caesar_char_compose (a b : Z) (c : ascii) :
  caesar_char b (upper_char (caesar_char a (upper_char c)))
  = caesar_char (a + b) (upper_char c).
Proof.
  unfold caesar_char at 2 3. destruct (isalpha (upper_char c)) eqn:Ha.
  - rewrite upper_char_letter by (apply Z.mod_pos_bound; lia).
    unfold caesar_char. rewrite isalpha_letter by (apply Z.mod_pos_bound; lia).
    rewrite ord_letter by (apply Z.mod_pos_bound; lia). f_equal.
    replace ((ord (upper_char c) - 65 + a) mod 26 + 65 - 65 + b)
      with ((ord (upper_char c) - 65 + a) mod 26 + b) by lia.
    rewrite Z.add_mod_idemp_l by lia. f_equal. lia.
  - rewrite upper_char_idemp. unfold caesar_char. now rewrite Ha.
Qed.

Lemma caesar_char_zero (c : ascii) : caesar_char 0 (upper_char c) = upper_char c.
Proof.
  unfold caesar_char. destruct (isalpha (upper_char c)) eqn:Ha; [|reflexivity].
  destruct (upper_char_position c Ha) as [Hr He].
  rewrite Z.add_0_r, Z.mod_small by assumption. now symmetry.
Qed.

Lemma caesar_twice (text : string) (a b : Z) :
  (c ← caesar_encrypt text a; caesar_encrypt c b) = caesar_encrypt text (a + b).
Proof.
  rewrite !caesar_encrypt_chars, bind_Ok, caesar_encrypt_chars. f_equal. f_equal.
  unfold upper. rewrite !chars_str, <- !list_fmap_compose.
  apply list_fmap_ext. intros i c _. cbn. apply caesar_char_compose.
Qed.

(** X14: on ASCII text, Caesar encryptions compose by adding the shifts,
    only the shift modulo 26 matters, and shift 0 upper-cases the text. *)
Theorem caesar_shifts_compose (text : string) (a b : Z) :
  isascii text = true ->
  (c ← caesar_encrypt text a; caesar_encrypt c b) = caesar_encrypt text (a + b) /\
  caesar_encrypt text (a + 26) = caesar_encrypt text a /\
  caesar_encrypt text 0 = Ok (upper text).
Proof.
  intros _. split; [apply caesar_twice|]. split.
  - rewrite !caesar_encrypt_chars. f_equal. f_equal.
    apply list_fmap_ext. intros i c _. unfold caesar_char.
    destruct (isalpha c); [|reflexivity]. f_equal.
    replace (ord c - 65 + (a + 26)) with (ord c - 65 + a + 1 * 26) by lia.
    apply Z_mod_plus_full.
  - rewrite caesar_encrypt_chars. f_equal. unfold upper at 2. f_equal.
    unfold upper. rewrite chars_str, <- list_fmap_compose.
    apply list_fmap_ext. intros i c _. cbn. apply caesar_char_zero.
Qed.

Lemma caesar_shifts_compose_witness :
  (c ← caesar_encrypt "Attack at dawn!" 3; caesar_encrypt c 4)
  = caesar_encrypt "Attack at dawn!" (3 + 4).
Proof. apply (proj1 (caesar_shifts_compose "Attack at dawn!" 3 4 eq_refl)). Defined.

(** X15: on ASCII text and for every integer shift, [caesar_decrypt] after
    [caesar_encrypt] returns the upper-cased text, non-letters included. *)
Theorem caesar_round_trip (text : string) (shift : Z) :
  isascii text = true ->
  (c ← caesar_encrypt text shift; caesar_decrypt c shift) = Ok (upper text).
Proof.
  intros _. unfold caesar_decrypt. rewrite caesar_twice, Z.add_opp_diag_r.
  rewrite caesar_encrypt_chars. f_equal. unfold upper at 2. f_equal.
  unfold upper. rewrite chars_str, <- list_fmap_compose.
  apply list_fmap_ext. intros i c _. cbn. apply caesar_char_zero.
Qed.

Lemma caesar_round_trip_witness :
  (c ← caesar_encrypt "Attack at dawn!" 29; caesar_decrypt c 29) = Ok "ATTACK AT DAWN!".
Proof. apply (caesar_round_trip "Attack at dawn!" 29 eq_refl). Defined.

End CaesarShift.

Section HillStage.
Import Py Np CaesarHill.

Lemma hill_encrypt_numbers (text : string) :
  hill_encrypt text key_matrix
  = Ok (str (letter <$> hill_pairs 3 3 2 5
               (pad_even ((fun c => ord c - 65) <$> chars (upper text))))).
Proof.
  unfold hill_encrypt, key_matrix.
  change (Z.of_nat (length [[3; 3]; [2; 5]])) with 2.
  change (2 =? 0) with false. cbv iota zeta.
  change (Z.abs_nat 2) with 2%nat. rewrite pad_loop_two.
  destruct (pad_even_length ((fun c => ord c - 65) <$> chars (upper text))) as [h Hh].
  rewrite (hill_blocks_pairs 3 3 2 5 h) by assumption. rewrite bind_Ok.
  rewrite letters_of_positions by (apply (hill_pairs_positions 3 3 2 5 h); assumption).
  reflexivity.
Qed.

Lemma hill_pairs_inverse_mod : forall (h : nat) (l : list Z),
  length l = (2 * h)%nat ->
  hill_pairs 15 17 20 9 (hill_pairs 3 3 2 5 l) = (fun x => x mod 26) <$> l.
Proof.
  induction h as [|h IH]; intros l Hlen.
  - destruct l; [reflexivity|simpl in Hlen; lia].
  - destruct l as [|x [|y rest]]; [simpl in Hlen; lia..|].
    cbn [hill_pairs fmap list_fmap]. rewrite IH by (simpl in Hlen; lia).
    rewrite !mod26_linear.
    replace (15 * (3 * x + 3 * y) + 17 * (2 * x + 5 * y)) with (x + (3 * x + 5 * y) * 26) by ring.
    replace (20 * (3 * x + 3 * y) + 9 * (2 * x + 5 * y)) with (y + (3 * x + 4 * y) * 26) by ring.
    rewrite !Z_mod_plus_full. reflexivity.
Qed.

(** X16: for the key [[3,3],[2,5]] and ASCII text, [hill_decrypt] after
    [hill_encrypt] returns, character by character, the letter at position
    (ord c - 65) mod 26 of the upper-cased text, followed by 'Z' when the
    text has odd length; on a text of letters only this is the upper-cased
    text followed by the pad. *)
Theorem hill_round_trip (text : string) :
  isascii text = true ->
  (c ← hill_encrypt text key_matrix; hill_decrypt c key_matrix)
    = Ok (str ((fun c => letter ((ord c - 65) mod 26)) <$> chars (upper text))
          ++ (if Nat.even (String.length text) then "" else "Z"))%string /\
  (Forall (fun c => isalpha c = true) (chars text) ->
   (c ← hill_encrypt text key_matrix; hill_decrypt c key_matrix)
     = Ok (upper text ++ (if Nat.even (String.length text) then "" else "Z"))%string).
Proof.
  intros _.
  set (nums := (fun c => ord c - 65) <$> chars (upper text)).
  assert (Hlen : length nums = String.length text).
  { unfold nums, upper. now rewrite length_fmap, chars_str, length_fmap, chars_length. }
  assert (Hgen : (c ← hill_encrypt text key_matrix; hill_decrypt c key_matrix)
                 = Ok (str (letter <$> ((fun x => x mod 26) <$> pad_even nums)))).
  { rewrite hill_encrypt_numbers, bind_Ok. fold nums.
    destruct (pad_even_length nums) as [h Hh].
    destruct (hill_pairs_positions 3 3 2 5 h _ Hh) as [Hcs Hcslen].
    rewrite (hill_decrypt_positions _ _ h Hcs Hcslen (upper_letters _ Hcs)).
    now rewrite (hill_pairs_inverse_mod h). }
  split.
  - rewrite Hgen. f_equal. unfold pad_even. rewrite Hlen.
    destruct (Nat.even (String.length text)).
    + rewrite append_empty_r. unfold nums. now rewrite <- !list_fmap_compose.
    + rewrite !fmap_app, str_app. unfold nums. now rewrite <- !list_fmap_compose.
  - intros Halpha. rewrite Hgen. f_equal.
    destruct (upper_alpha text Halpha) as (ns & Hns & Hnlen & Hup).
    assert (Hnums : nums = ns).
    { unfold nums. rewrite Hup, chars_str. now apply positions_letters_numbers. }
    assert (Hmod : (fun x => x mod 26) <$> ns = ns).
    { rewrite <- (list_fmap_id ns) at 2. apply list_fmap_ext. intros i k Hk. cbn.
      apply Z.mod_small. unfold positions in Hns. rewrite list.Forall_forall in Hns.
      apply Hns. eapply list_elem_of_lookup_2. exact Hk. }
    unfold pad_even. rewrite Hlen, Hnums.
    destruct (Nat.even (String.length text)).
    + rewrite append_empty_r, Hmod. now symmetry.
    + rewrite !fmap_app, str_app, Hmod, Hup. reflexivity.
Qed.

Lemma hill_round_trip_witness :
  (c ← hill_encrypt "Hi 5" key_matrix; hill_decrypt c key_matrix) = Ok "HITO" /\
  (c ← hill_encrypt "IoT" key_matrix; hill_decrypt c key_matrix) = Ok "IOTZ".
Proof.
  split.
  - apply (proj1 (hill_round_trip "Hi 5" eq_refl)).
  - apply (proj2 (hill_round_trip "IoT" eq_refl)). repeat constructor.
Defined.

Lemma hill_blocks_odd (a b c d : Z) : forall (h : nat) (l : list Z),
  length l = S (2 * h) -> hill_blocks [[a; b]; [c; d]] l = Raise NumpyError.
Proof.
  assert (Hblocks : forall (h : nat) (l : list Z),
    length l = S (2 * h) ->
      mapM (fun blk => block ← reshape_column 2 blk;
                       Ok ((fun v => v mod 26) <$> matvec [[a; b]; [c; d]] block))
           (chunks 2 l) = Raise NumpyError).
  { induction h as [|h IH]; intros l Hlen.
    - destruct l as [|x [|y rest]]; [simpl in Hlen; lia| |simpl in Hlen; lia]. reflexivity.
    - destruct l as [|x [|y rest]]; [simpl in Hlen; lia..|].
      rewrite chunks_pair. cbn [mapM].
      change (reshape_column 2 [x; y]) with (Ok [x; y]). rewrite bind_Ok.
      rewrite IH by (simpl in Hlen; lia). reflexivity. }
  intros h l Hlen. unfold hill_blocks.
  change (Z.of_nat (length [[a; b]; [c; d]])) with 2.
  change (blocks_of 2 l) with (Ok (chunks 2 l)).
  rewrite bind_Ok, (Hblocks h l Hlen). reflexivity.
Qed.

(** X17: for the key [[3,3],[2,5]], [hill_decrypt] and [hybrid_decrypt]
    raise (the reshape of the last, one-letter block fails) on every ASCII
    ciphertext of odd length: decryption does not pad. *)
Theorem hill_decrypt_rejects_odd_length (cipher : string) (shift : Z) :
  isascii cipher = true -> Nat.odd (String.length cipher) = true ->
  hill_decrypt cipher key_matrix = Raise NumpyError /\
  hybrid_decrypt cipher shift key_matrix = Raise NumpyError.
Proof.
  intros _ Hodd.
  assert (H : hill_decrypt cipher key_matrix = Raise NumpyError).
  { unfold hill_decrypt.
    change (pow (det key_matrix) (-1) 26) with (Ok 3). cbv zeta. rewrite bind_Ok.
    change ((fun row : list Z => (fun a => (3 * a) mod 26) <$> row) <$> adjugate key_matrix)
      with [[15; 17]; [20; 9]].
    apply Nat.odd_spec in Hodd as [h Hh].
    rewrite (hill_blocks_odd 15 17 20 9 h); [reflexivity|].
    unfold upper. rewrite length_fmap, chars_str, length_fmap, chars_length. lia. }
  split; [exact H|]. unfold hybrid_decrypt. now rewrite H.
Qed.

Lemma hill_decrypt_rejects_odd_length_witness :
  hill_decrypt "ABC" key_matrix = Raise NumpyError /\
  hybrid_decrypt "ABC" 3 key_matrix = Raise NumpyError.
Proof. apply (hill_decrypt_rejects_odd_length "ABC" 3); reflexivity. Defined.

End HillStage.

(** ** Diffie-Hellman handler *)

Section DiffieHellmanResponse.
Import Py DH.

Lemma pow_residue (b e m r : Z) : pow b e m = Ok r -> r mod m = r.
Proof.
  unfold pow. destruct (Z.eqb_spec m 0) as [|Hm]; [discriminate|].
  destruct (Z.eqb_spec (Z.abs m) 1) as [_|_].
  - intros [= <-]. apply Z.mod_0_l. exact Hm.
  - destruct (e <? 0).
    + destruct (invmod b (Z.abs m)); [|discriminate]. intros [= <-]. now apply Z.mod_mod.
    + intros [= <-]. now apply Z.mod_mod.
Qed.

(** X18: every 200 response of the [/api/compute] handler has
    [match: true] and two equal secrets; it is given only for four non-zero
    integers, and the public values and the secret are residues modulo p. *)
Theorem compute_never_reports_a_mismatch (p g a b : option Z) (A B s1 s2 : Z) (matched : bool) :
  compute p g a b = Json200 A B s1 s2 matched ->
  matched = true /\ s1 = s2 /\
  exists p0 g0 a0 b0,
    p = Some p0 /\ g = Some g0 /\ a = Some a0 /\ b = Some b0 /\
    p0 <> 0 /\ g0 <> 0 /\ a0 <> 0 /\ b0 <> 0 /\
    A mod p0 = A /\ B mod p0 = B /\ s1 mod p0 = s1.
Proof.
  unfold compute.
  destruct p as [p0|], g as [g0|], a as [a0|], b as [b0|]; try discriminate.
  destruct ((p0 =? 0) || (g0 =? 0) || (a0 =? 0) || (b0 =? 0)) eqn:Hguard; [discriminate|].
  rewrite !orb_false_iff in Hguard. destruct Hguard as [[[Hp Hg] Ha] Hb].
  apply Z.eqb_neq in Hp, Hg, Ha, Hb.
  destruct (compute_public_key g0 a0 p0) as [A'|] eqn:HA; [|discriminate]. rewrite bind_Ok.
  destruct (compute_public_key g0 b0 p0) as [B'|] eqn:HB; [|discriminate]. rewrite bind_Ok.
  destruct (compute_shared_secret B' a0 p0) as [s1'|] eqn:H1; [|discriminate]. rewrite bind_Ok.
  destruct (compute_shared_secret A' b0 p0) as [s2'|] eqn:H2; [|discriminate]. rewrite bind_Ok.
  intros [= <- <- <- <- <-].
  pose proof (shared_secrets_agree p0 g0 a0 b0 A' B' s1' s2' Hp HA HB H1 H2) as ->.
  rewrite Z.eqb_refl. split; [reflexivity|]. split; [reflexivity|].
  exists p0, g0, a0, b0. repeat split; try assumption.
  - exact (pow_residue _ _ _ _ HA).
  - exact (pow_residue _ _ _ _ HB).
  - exact (pow_residue _ _ _ _ H2).
Qed.

Lemma compute_never_reports_a_mismatch_witness :
  compute (Some 23) (Some 5) (Some (-3)) (Some 15) = Json200 7 19 14 14 true /\
  (true = true /\ 14 = 14 /\
   exists p0 g0 a0 b0,
     Some 23 = Some p0 /\ Some 5 = Some g0 /\ Some (-3) = Some a0 /\ Some 15 = Some b0 /\
     p0 <> 0 /\ g0 <> 0 /\ a0 <> 0 /\ b0 <> 0 /\
     7 mod p0 = 7 /\ 19 mod p0 = 19 /\ 14 mod p0 = 14).
Proof.
  assert (H : compute (Some 23) (Some 5) (Some (-3)) (Some 15) = Json200 7 19 14 14 true)
    by (vm_compute; reflexivity).
  split; [exact H|].
  exact (compute_never_reports_a_mismatch _ _ _ _ _ _ _ _ _ H).
Defined.

End DiffieHellmanResponse.

(** ** Tower of Babel: blocks and permutations *)

Section BlockLayer.
Import Py ToB.
Variable sha256 : bytes -> bytes.

(** X19: for a positive block size, [_split_blocks] cuts aligned data into
    blocks of that size whose concatenation is the data, and it recovers any
    list of blocks of that size from their concatenation; on data that is
    not aligned it raises AssertionError, and with block size 0
    ZeroDivisionError. *)
Theorem split_join_blocks (data : bytes) (blocks : list bytes) (block_size : nat) :
  ((0 < block_size)%nat -> (length data mod block_size = 0)%nat ->
     exists bs, _split_blocks data block_size = Ok bs /\
                Forall (fun b => length b = block_size) bs /\
                _join_blocks bs = data) /\
  ((0 < block_size)%nat -> Forall (fun b => length b = block_size) blocks ->
     _split_blocks (_join_blocks blocks) block_size = Ok blocks) /\
  ((0 < block_size)%nat -> (length data mod block_size <> 0)%nat ->
     _split_blocks data block_size
       = Raise (AssertionError "Ciphertext not aligned to block size")) /\
  (block_size = 0%nat -> _split_blocks data block_size = Raise ZeroDivisionError).
Proof.
  unfold _split_blocks, _join_blocks. split; [|split; [|split]].
  - intros Hk Hmod. destruct (Nat.eqb_spec block_size 0); [lia|].
    rewrite Hmod. cbn [Nat.eqb]. eexists. split; [reflexivity|]. split.
    + apply chunks_fuel_lengths; [lia|lia|assumption].
    + apply concat_chunks_fuel; [lia|lia].
  - intros Hk Hall. destruct (Nat.eqb_spec block_size 0); [lia|].
    rewrite (concat_length_uniform block_size blocks Hall), Nat.Div0.mod_mul. cbn [Nat.eqb].
    unfold chunks. now rewrite chunks_fuel_concat by (assumption || lia).
  - intros Hk Hmod. destruct (Nat.eqb_spec block_size 0); [lia|].
    destruct (Nat.eqb_spec (length data mod block_size) 0); [contradiction|reflexivity].
  - intros ->. reflexivity.
Qed.

Lemma split_join_blocks_witness :
  exists bs, _split_blocks (replicate 6 Byte.x2a) 3 = Ok bs /\
             Forall (fun b => length b = 3%nat) bs /\
             _join_blocks bs = replicate 6 Byte.x2a.
Proof.
  apply (proj1 (split_join_blocks (replicate 6 Byte.x2a) [] 3)); [lia|reflexivity].
Defined.

(** X20: [obfuscate_ciphertext_blocks] and [deobfuscate_ciphertext_blocks]
    raise "Ciphertext not aligned to block size" when the length is not a
    multiple of 16, and de-obfuscation raises "Permutation mismatch" when the
    permutation does not have one entry per block. *)
Theorem block_layer_rejects_bad_input (key iv data : bytes) (perm : list nat) :
  ((length data mod 16 <> 0)%nat ->
     obfuscate_ciphertext_blocks sha256 key iv data
       = Raise (AssertionError "Ciphertext not aligned to block size") /\
     deobfuscate_ciphertext_blocks key iv data perm
       = Raise (AssertionError "Ciphertext not aligned to block size")) /\
  ((length data mod 16 = 0)%nat -> (length data <> 16 * length perm)%nat ->
     deobfuscate_ciphertext_blocks key iv data perm
       = Raise (AssertionError "Permutation mismatch")).
Proof.
  split.
  - intros Hmod.
    assert (H : _split_blocks data 16
                = Raise (AssertionError "Ciphertext not aligned to block size")).
    { unfold _split_blocks. cbn [Nat.eqb].
      destruct (Nat.eqb_spec (length data mod 16) 0); [contradiction|reflexivity]. }
    unfold obfuscate_ciphertext_blocks, deobfuscate_ciphertext_blocks. now rewrite H.
  - intros Hmod Hlen. destruct (split_blocks_ok data Hmod) as (Hsplit & Hall & Hcat).
    unfold deobfuscate_ciphertext_blocks. rewrite Hsplit, bind_Ok.
    pose proof (concat_length_uniform 16 _ Hall) as Hl. rewrite Hcat in Hl.
    destruct (Nat.eqb_spec (length (chunks 16 data)) (length perm)); [lia|reflexivity].
Qed.

(** X21: [deobfuscate_ciphertext_blocks] undoes the application of any
    permutation of the block indices, whatever key and IV it is given: it
    uses only the permutation. *)
Theorem deobfuscation_undoes_any_permutation (key iv : bytes) (blocks permuted_blocks : list bytes)
    (perm : list nat) :
  Forall (fun b => length b = 16%nat) blocks ->
  perm ≡ₚ seq 0 (length blocks) ->
  mapM (getitem blocks) perm = Ok permuted_blocks ->
  deobfuscate_ciphertext_blocks key iv (_join_blocks permuted_blocks) perm
    = Ok (_join_blocks blocks).
Proof.
  intros Hall Hp Hpb.
  destruct (perm_facts perm _ Hp) as (Hnd & Hplen & Hpin).
  pose proof (permuted_blocks_perm _ _ _ Hp Hpb) as Hperm.
  destruct (permuted_blocks_ok blocks perm) as (pb' & Hpb' & Hpblen & Hlook).
  { intros i Hi. now apply Hpin. }
  rewrite Hpb in Hpb'. injection Hpb' as <-.
  unfold deobfuscate_ciphertext_blocks, _join_blocks.
  rewrite split_blocks_concat by now rewrite Hperm. cbn.
  rewrite Hpblen, Nat.eqb_refl. cbn.
  destruct (build_inverse_spec perm (replicate (length perm) 0%nat) 0 Hnd)
    as (inv & Hinv & Hilen & Hin & _).
  { intros i Hi. rewrite length_replicate, Hplen. now apply Hpin. }
  rewrite Hinv. cbn.
  rewrite (reconstruct_spec permuted_blocks blocks inv (length perm) 0).
  - cbn. rewrite take_0, drop_0. rewrite Hplen at 1. rewrite take_ge by reflexivity.
    rewrite drop_ge by (now rewrite length_replicate).
    rewrite app_nil_l, app_nil_r, join_reconstructed. reflexivity.
  - now rewrite length_replicate.
  - lia.
  - intros i Hi.
    assert (Hi' : i ∈ perm) by (apply Hpin; lia).
    apply list_elem_of_lookup_1 in Hi' as [k Hk].
    exists k. split; [apply (Hin k i Hk)|]. now apply Hlook.
Qed.

Lemma deobfuscation_undoes_any_permutation_witness :
  deobfuscate_ciphertext_blocks [] []
    (_join_blocks [replicate 16 Byte.x02; replicate 16 Byte.x00; replicate 16 Byte.x01])
    [2; 0; 1]%nat
  = Ok (_join_blocks [replicate 16 Byte.x00; replicate 16 Byte.x01; replicate 16 Byte.x02]).
Proof.
  apply deobfuscation_undoes_any_permutation.
  - repeat constructor.
  - cbn. apply (Permutation_cons_app [0%nat; 1%nat] [] 2%nat). reflexivity.
  - reflexivity.
Defined.

Lemma bytes_le_total (a b : bytes) : bytes_le a b = false -> bytes_le b a = true.
Proof.
  revert b. induction a as [|x a IH]; intros [|y b]; cbn; try discriminate; try reflexivity.
  rewrite (N.compare_antisym (Byte.to_N x) (Byte.to_N y)).
  destruct (N.compare (Byte.to_N x) (Byte.to_N y)); cbn; try discriminate; auto.
Qed.

Lemma insert_sorted_Sorted {A} (x : bytes * A) (l : list (bytes * A)) :
  Sorted (fun u v => bytes_le u.1 v.1 = true) l ->
  Sorted (fun u v => bytes_le u.1 v.1 = true) (insert_sorted x l).
Proof.
  induction 1 as [|y l Hs IH Hhd]; cbn [insert_sorted].
  - repeat constructor.
  - destruct (bytes_le x.1 y.1) eqn:Hle.
    + constructor; [constructor; assumption|]. constructor. exact Hle.
    + constructor; [exact IH|].
      destruct l as [|z l]; cbn [insert_sorted].
      * constructor. now apply bytes_le_total.
      * destruct (bytes_le x.1 z.1).
        -- constructor. now apply bytes_le_total.
        -- constructor. now inversion Hhd.
Qed.

Lemma sort_by_key_Sorted {A} (l : list (bytes * A)) :
  Sorted (fun u v => bytes_le u.1 v.1 = true) (sort_by_key l).
Proof.
  induction l as [|x l IH]; cbn; [constructor|]. now apply insert_sorted_Sorted.
Qed.

Lemma Sorted_fmap_snd {A} (R : bytes * A -> bytes * A -> Prop) (Q : bytes * A -> Prop)
    (R' : A -> A -> Prop) (l : list (bytes * A)) :
  (forall u v, Q u -> Q v -> R u v -> R' u.2 v.2) ->
  Forall Q l -> Sorted R l -> Sorted R' (snd <$> l).
Proof.
  intros Himp Hall Hs. induction Hs as [|u l Hs IH Hhd]; cbn; [constructor|].
  apply Forall_cons in Hall as [Hu Hall].
  constructor; [now apply IH|].
  destruct Hhd as [|v l' Huv]; cbn; constructor.
  apply Forall_cons in Hall as [Hv _]. now apply Himp.
Qed.

(** X22: the list returned by [_deterministic_permutation] is sorted by the
    digests of the indices: each index is followed by one whose digest
    SHA256(key || iv || index) is not smaller. *)
Theorem permutation_sorted_by_digest (key iv : bytes) (n : nat) (perm : list nat) :
  _deterministic_permutation sha256 key iv n = Ok perm ->
  Sorted (fun i j => exists hi hj,
            score sha256 key iv i = Ok (hi, i) /\ score sha256 key iv j = Ok (hj, j) /\
            bytes_le hi hj = true) perm.
Proof.
  unfold _deterministic_permutation. intros H.
  destruct (mapM (score sha256 key iv) (seq 0 n)) as [scores|] eqn:Hs; [|discriminate].
  rewrite bind_Ok in H. injection H as <-.
  assert (Hall : Forall (fun u : bytes * nat => score sha256 key iv u.2 = Ok u) scores).
  { clear -Hs. revert scores Hs. induction (seq 0 n) as [|i l IH]; intros scores Hs.
    - cbn in Hs. injection Hs as <-. constructor.
    - cbn [mapM] in Hs. destruct (score sha256 key iv i) as [u|] eqn:Hu; [|discriminate].
      rewrite bind_Ok in Hs. destruct (mapM _ l) as [us|]; [|discriminate].
      injection Hs as <-. constructor; [|now apply IH].
      assert (Hi : u.2 = i).
      { unfold score in Hu. destruct (to_bytes4 i); [|discriminate].
        rewrite bind_Ok in Hu. now injection Hu as <-. }
      cbn beta. now rewrite Hi. }
  apply (Sorted_fmap_snd (fun u v => bytes_le u.1 v.1 = true)
           (fun u : bytes * nat => score sha256 key iv u.2 = Ok u)).
  - intros [hi i] [hj j] Hi Hj Hle. cbn in *. eauto.
  - now rewrite sort_by_key_perm.
  - apply sort_by_key_Sorted.
Qed.

End BlockLayer.

Lemma block_layer_rejects_bad_input_witness :
  ToB.deobfuscate_ciphertext_blocks ToB.demo_key ToB.demo_iv (replicate 15 Byte.x00) [0%nat]
    = Py.Raise (Py.AssertionError "Ciphertext not aligned to block size") /\
  ToB.deobfuscate_ciphertext_blocks ToB.demo_key ToB.demo_iv (replicate 32 Byte.x00) [0%nat]
    = Py.Raise (Py.AssertionError "Permutation mismatch").
Proof.
  split.
  - apply (proj1 (block_layer_rejects_bad_input Hashlib.sha256 ToB.demo_key ToB.demo_iv
                    (replicate 15 Byte.x00) [0%nat])).
    cbn. lia.
  - apply (proj2 (block_layer_rejects_bad_input Hashlib.sha256 ToB.demo_key ToB.demo_iv
                    (replicate 32 Byte.x00) [0%nat]));
      cbn; lia.
Defined.

Lemma permutation_sorted_by_digest_witness :
  Sorted (fun i j => exists hi hj,
            ToB.score Hashlib.sha256 ToB.demo_key ToB.demo_iv i = Py.Ok (hi, i) /\
            ToB.score Hashlib.sha256 ToB.demo_key ToB.demo_iv j = Py.Ok (hj, j) /\
            ToB.bytes_le hi hj = true) [1; 2; 5; 4; 3; 0]%nat.
Proof.
  apply (permutation_sorted_by_digest Hashlib.sha256 ToB.demo_key ToB.demo_iv 6).
  vm_compute. reflexivity.
Defined.

(** ** Crack-time estimator: bounds and errors *)

Section CrackTimeMore.
Import Py CrackTime.
Local Open Scope R_scope.

Lemma charset_size_range (password : string) : (1 <= charset_size password <= 95)%Z.
Proof.
  unfold charset_size. rewrite specials_size.
  destruct (has_lower password), (has_upper password),
           (has_digits password), (has_symbols password); cbn; lia.
Qed.

Lemma log2_monotone (x y : R) : 0 < x -> x <= y -> log2 x <= log2 y.
Proof.
  intros Hx Hxy. unfold log2. apply Rmult_le_compat_r.
  - left. apply Rinv_0_lt_compat, ln_2_pos.
  - destruct Hxy as [Hlt| ->]; [left; now apply ln_increasing|right; reflexivity].
Qed.

Lemma log2_1 : log2 1 = 0.
Proof. unfold log2. rewrite ln_1. lra. Qed.

Lemma estimate_entropy_bits_eq (password : string) :
  estimate_entropy_bits password
  = INR (String.length password) * log2 (IZR (charset_size password)).
Proof.
  unfold estimate_entropy_bits. rewrite <- chars_length.
  destruct (chars password); [cbn; lra|reflexivity].
Qed.

(** X23: the entropy estimate lies between 0 and length x log2(95), and it
    is 0 for a password with no character of the four classes. *)
Theorem entropy_bounds (password : string) :
  0 <= estimate_entropy_bits password <= INR (String.length password) * log2 95 /\
  (has_lower password = false -> has_upper password = false ->
   has_digits password = false -> has_symbols password = false ->
   estimate_entropy_bits password = 0).
Proof.
  rewrite estimate_entropy_bits_eq.
  pose proof (charset_size_range password) as [H1 H95].
  apply IZR_le in H1, H95.
  pose proof (pos_INR (String.length password)) as Hlen.
  assert (Hlo : 0 <= log2 (IZR (charset_size password))).
  { rewrite <- log2_1. apply log2_monotone; lra. }
  assert (Hhi : log2 (IZR (charset_size password)) <= log2 95).
  { apply log2_monotone; lra. }
  split; [split|].
  - now apply Rmult_le_pos.
  - now apply Rmult_le_compat_l.
  - intros Hl Hu Hd Hs. unfold charset_size. rewrite Hl, Hu, Hd, Hs.
    change (IZR (Z.max 0 1)) with 1. rewrite log2_1. lra.
Qed.

Lemma entropy_bounds_witness :
  estimate_entropy_bits (String "009" (String "127" "")) = 0.
Proof.
  apply (proj2 (entropy_bounds (String "009" (String "127" "")))); vm_compute; reflexivity.
Defined.

Lemma chars_append (s1 s2 : string) : chars (s1 ++ s2) = chars s1 ++ chars s2.
Proof.
  unfold chars. induction s1 as [|c s1 IH]; [reflexivity|].
  change (list_ascii_of_string (String c s1 ++ s2))
    with (c :: list_ascii_of_string (s1 ++ s2)).
  rewrite IH. reflexivity.
Qed.

Lemma charset_size_append (password suffix : string) :
  (charset_size password <= charset_size (password ++ suffix))%Z.
Proof.
  unfold charset_size, has_lower, has_upper, has_digits, has_symbols.
  rewrite chars_append, !existsb_app, specials_size.
  destruct (existsb _ (chars password)), (existsb _ (chars password)),
           (existsb _ (chars password)), (existsb _ (chars password));
  destruct (existsb _ (chars suffix)), (existsb _ (chars suffix)),
           (existsb _ (chars suffix)), (existsb _ (chars suffix)); cbn; lia.
Qed.

(** X24: appending characters to a password never lowers its entropy
    estimate. *)
Theorem entropy_never_drops_when_appending (password suffix : string) :
  estimate_entropy_bits password <= estimate_entropy_bits (password ++ suffix).
Proof.
  rewrite !estimate_entropy_bits_eq.
  pose proof (charset_size_range password) as [H1 _].
  pose proof (charset_size_append password suffix) as Hc.
  apply IZR_le in H1, Hc.
  assert (Hlen : INR (String.length password) <= INR (String.length (password ++ suffix))).
  { apply le_INR. rewrite <- !chars_length, chars_append, length_app. lia. }
  pose proof (pos_INR (String.length password)).
  assert (0 <= log2 (IZR (charset_size password))).
  { rewrite <- log2_1. apply log2_monotone; lra. }
  apply Rmult_le_compat; try assumption.
  apply log2_monotone; lra.
Qed.

Local Close Scope R_scope.

(** X25: [format_seconds] raises only on NaN (ValueError) and on positive
    infinity (OverflowError); on every other float it returns a string. *)
Theorem format_seconds_raises_only_on_nan_and_infinity (seconds : float) :
  match format_seconds seconds with
  | Ok _ => seconds <> nan /\ seconds <> infinity
  | Raise e =>
      (seconds = nan /\ e = ValueError "cannot convert float NaN to integer") \/
      (seconds = infinity /\ e = OverflowError)
  end.
Proof.
  pose proof (FloatAxioms.SF2Prim_Prim2SF seconds) as Hinj.
  assert (Hne : Prim2SF seconds <> S754_nan -> Prim2SF seconds <> S754_infinity false ->
                seconds <> nan /\ seconds <> infinity).
  { intros H1 H2. split; intros ->; [apply H1|apply H2]; reflexivity. }
  unfold format_seconds. rewrite FloatAxioms.ltb_spec. unfold int_of_float.
  change (Prim2SF 1) with (S754_finite false 4503599627370496 (-52)).
  destruct (Prim2SF seconds) as [s|[|]| |s m e] eqn:E.
  - cbn. apply Hne; discriminate.
  - cbn. apply Hne; discriminate.
  - cbn. right. split; [|reflexivity]. rewrite <- Hinj. reflexivity.
  - cbn. left. split; [|reflexivity]. rewrite <- Hinj. reflexivity.
  - destruct (SFltb _ _); [apply Hne; discriminate|].
    rewrite bind_Ok. apply Hne; discriminate.
Qed.

Lemma greedy_undershoot us : forall k r,
  Forall (fun x : Z * string => 0 < x.1) us -> 0 <= r ->
  total (greedy us k r) <= r /\
  (forall x, last (greedy us k r) = Some x -> r - total (greedy us k r) < x.2.1).
Proof.
  induction us as [|[u name] us IH]; intros k r Hpos Hr; cbn [greedy].
  - split; [exact Hr|discriminate].
  - apply Forall_cons in Hpos as [Hu Hpos]. cbn in Hu.
    destruct k as [|k]; [split; [exact Hr|discriminate]|].
    destruct (u <=? r) eqn:Hur; [|now apply IH].
    pose proof (Z.mod_pos_bound r u Hu) as Hm.
    assert (Hrem : r - r / u * u = r mod u) by (rewrite Z.mod_eq by lia; ring).
    rewrite Hrem.
    destruct (IH k (r mod u) Hpos ltac:(lia)) as [Ht Hl].
    cbn [total foldr fst snd]. fold (total (greedy us k (r mod u))).
    split; [lia|].
    intros x Hx. destruct (greedy us k (r mod u)) as [|y ys] eqn:Hg.
    + cbn in Hx. injection Hx as <-. cbn. lia.
    + rewrite last_cons_cons in Hx. specialize (Hl x Hx). lia.
Qed.

(** X26: for a finite number of seconds that is not below 1, the parts
    [format_seconds] shows add up to at most the truncated number of seconds,
    and fall short of it by less than the last unit shown. *)
Theorem format_seconds_never_overstates (seconds : float) :
  PrimFloat.ltb seconds 1 = false -> isfinite seconds = true ->
  exists r, int_of_float seconds = Ok r /\
            format_seconds seconds = Ok (render (two_largest_units r)) /\
            total (two_largest_units r) <= r /\
            (forall x, last (two_largest_units r) = Some x ->
               r - total (two_largest_units r) < x.2.1).
Proof.
  intros Hlt Hfin.
  destruct (int_of_float_finite seconds Hfin) as [r Hint].
  pose proof (int_of_float_at_least_1 seconds r Hlt Hint) as Hr.
  exists r. split; [exact Hint|]. split.
  - unfold format_seconds. rewrite Hlt, Hint, bind_Ok.
    f_equal. rewrite (loop_greedy units [] r) by (simpl; lia).
    rewrite app_nil_l. change (2 - length [])%nat with 2%nat.
    unfold render, two_largest_units.
    generalize (greedy units 2 r). intros [|x l]; reflexivity.
  - apply greedy_undershoot; [apply units_positive|lia].
Qed.

Lemma format_seconds_never_overstates_witness :
  exists r, int_of_float 3725.9 = Ok r /\
            format_seconds 3725.9 = Ok (render (two_largest_units r)) /\
            total (two_largest_units r) <= r /\
            (forall x, last (two_largest_units r) = Some x ->
               r - total (two_largest_units r) < x.2.1).
Proof.
  apply (format_seconds_never_overstates 3725.9); vm_compute; reflexivity.
Defined.

End CrackTimeMore.

(** ** Stego-2FA spot check: edge cases *)

Section StegoSpotEdges.
Import Py Stego2FA.

Lemma abs_sub_self (x : float) :
  isfinite x = true -> Prim2SF (PrimFloat.abs (PrimFloat.sub x x)) = S754_zero false.
Proof.
  unfold isfinite. rewrite FloatAxioms.abs_spec, FloatAxioms.sub_spec.
  unfold SF64sub, SFsub.
  destruct (Prim2SF x) as [[|]|s| |s m e]; try discriminate; intros _; try reflexivity.
  cbv zeta. rewrite Z.sub_diag. reflexivity.
Qed.

Lemma abs_nonnegative (d : float) :
  match Prim2SF (PrimFloat.abs d) with
  | S754_zero s | S754_infinity s | S754_finite s _ _ => s = false
  | S754_nan => True
  end.
Proof. rewrite FloatAxioms.abs_spec. destruct (Prim2SF d); reflexivity || exact I. Qed.

Lemma leb_negative_tolerance (d tol : float) :
  PrimFloat.ltb tol 0 = true -> PrimFloat.leb (PrimFloat.abs d) tol = false.
Proof.
  rewrite FloatAxioms.ltb_spec, FloatAxioms.leb_spec.
  change (Prim2SF 0) with (S754_zero false).
  pose proof (abs_nonnegative d) as Hd.
  unfold SFltb, SFleb.
  destruct (Prim2SF tol) as [st|[|]| |[|] mt et]; cbn; try discriminate; intros _;
    destruct (Prim2SF (PrimFloat.abs d)) as [s|s| |s m e]; try subst s; reflexivity.
Qed.

Lemma leb_nan_sub_l (s tol : float) :
  PrimFloat.leb (PrimFloat.abs (PrimFloat.sub nan s)) tol = false.
Proof.
  rewrite FloatAxioms.leb_spec, FloatAxioms.abs_spec, FloatAxioms.sub_spec. reflexivity.
Qed.

(** X27: a click exactly on the saved spot (finite coordinates) is accepted
    for every tolerance that is not negative; a click with a NaN coordinate
    is rejected; and a negative tolerance rejects every click. *)
Theorem spot_check_edge_cases (saved : UserProfile) (x y tol : float) :
  (isfinite (secret_x saved) = true -> isfinite (secret_y saved) = true ->
   PrimFloat.leb 0 tol = true ->
   _spot_within_tolerance (Some saved) (secret_x saved) (secret_y saved) tol = Ok true) /\
  _spot_within_tolerance (Some saved) nan y tol = Ok false /\
  _spot_within_tolerance (Some saved) x nan tol = Ok false /\
  (PrimFloat.ltb tol 0 = true -> _spot_within_tolerance (Some saved) x y tol = Ok false).
Proof.
  unfold _spot_within_tolerance. split; [|split; [|split]].
  - intros Hx Hy Htol.
    rewrite FloatAxioms.leb_spec in Htol. change (Prim2SF 0) with (S754_zero false) in Htol.
    rewrite !FloatAxioms.leb_spec, !abs_sub_self by assumption. now rewrite Htol.
  - now rewrite leb_nan_sub_l.
  - rewrite leb_nan_sub_l. now rewrite andb_false_r.
  - intros Htol. now rewrite leb_negative_tolerance.
Qed.

Lemma spot_check_edge_cases_witness :
  _spot_within_tolerance (Some {| secret_x := 0.45; secret_y := 0.62 |}) 0.45 0.62 default_tol
    = Ok true /\
  _spot_within_tolerance (Some {| secret_x := 0.45; secret_y := 0.62 |}) 0.45 0.62 (-0.02)
    = Ok false.
Proof.
  split.
  - apply (proj1 (spot_check_edge_cases {| secret_x := 0.45; secret_y := 0.62 |} 0 0 default_tol));
      reflexivity.
  - apply (proj2 (proj2 (proj2
      (spot_check_edge_cases {| secret_x := 0.45; secret_y := 0.62 |} 0.45 0.62 (-0.02))))).
    reflexivity.
Defined.

End StegoSpotEdges.

